(** * Encryption benchmark client and in-memory string store

    A shallow embedding of [client.js] (the cipher wrappers, the request
    helper, the benchmark driver and its statistics) and of the Express
    store it talks to, with the properties the specification states about
    them.

    Conventions of the embedding:
    - a JavaScript string is the list of its UTF-16 code units;
    - a [Buffer] is a list of bytes;
    - a thrown exception or rejected promise is the [Throw] outcome;
    - a number is an IEEE 754 double: a finite one is held as the rational
      it denotes, and every arithmetic result is rounded to the nearest
      double, ties to even;
    - Node's [crypto] primitives, the random source, the clock and
      [JSON.stringify]/[JSON.parse] on envelopes are parameters, bundled in
      records whose laws are stated separately. *)

From Stdlib Require Import ZArith Lia Bool String Ascii QArith.
From Stdlib Require Import DecimalNat DecimalFacts.
From Stdlib Require SpecFloat.
From Stdlib Require Import List Sorting.Permutation Sorting.Sorted.
From coqutil Require Import Byte.
From Equations Require Import Equations.
Import ListNotations.

#[local] Open Scope Z_scope.

(* ===================================================================== *)
(** ** Outcomes: a value or a thrown exception *)

(** The exceptions the program can raise.  Only [JsError] is thrown by the
    source itself ([throw new Error(...)]); the others come from the
    runtime and its libraries. *)
Inductive exn : Type :=
| TypeError (what : string)      (* property or method of undefined *)
| SyntaxError                    (* JSON.parse on a non-JSON text *)
| JsError (message : string)     (* new Error(message) *)
| CryptoError (what : string)    (* thrown by a crypto primitive *)
| SystemError (code : string).   (* the request's 'error' event *)

Inductive outcome (A : Type) : Type :=
| Return (a : A)
| Throw (e : exn).
Arguments Return {A} a.
Arguments Throw {A} e.

Definition bind {A B} (m : outcome A) (k : A -> outcome B) : outcome B :=
  match m with
  | Return a => k a
  | Throw e => Throw e
  end.

Notation "x <- m ;; k" := (bind m (fun x => k))
  (at level 61, m at next level, right associativity).

Definition of_option {A} (what : string) (o : option A) : outcome A :=
  match o with
  | Some a => Return a
  | None => Throw (CryptoError what)
  end.

(* ===================================================================== *)
(** ** Strings and buffers *)

(** A JavaScript string: its UTF-16 code units, each in [0, 65536). *)
Definition jsstring := list Z.

Definition Buffer := list byte.

(** The string an ASCII literal denotes (one code unit per character). *)
Definition js (s : string) : jsstring :=
  map (fun a => Z.of_N (N_of_ascii a)) (list_ascii_of_string s).

Definition code_unit (u : Z) : bool := (0 <=? u) && (u <? 65536).

(** *** Hexadecimal: [buf.toString('hex')] and [Buffer.from(s, 'hex')] *)

Definition hexDigit (n : Z) : Z :=
  if n <? 10 then 48 + n else 87 + n.

Definition hexVal (c : Z) : option Z :=
  if (48 <=? c) && (c <=? 57) then Some (c - 48)
  else if (97 <=? c) && (c <=? 102) then Some (c - 87)
  else if (65 <=? c) && (c <=? 70) then Some (c - 55)
  else None.

Definition toHex (buf : Buffer) : jsstring :=
  flat_map (fun b => [hexDigit (byte.unsigned b / 16);
                      hexDigit (byte.unsigned b mod 16)]) buf.

(** Decoding stops at the first pair that is not two hexadecimal digits;
    a trailing single character is dropped. *)
Fixpoint fromHex (s : jsstring) : Buffer :=
  match s with
  | hi :: lo :: rest =>
      match hexVal hi, hexVal lo with
      | Some h, Some l => byte.of_Z (16 * h + l) :: fromHex rest
      | _, _ => []
      end
  | _ => []
  end.

(** *** UTF-8: [Buffer.from(s, 'utf8')] and [buf.toString('utf8')] *)

Definition isHighSurrogate (u : Z) : bool := (0xD800 <=? u) && (u <=? 0xDBFF).
Definition isLowSurrogate (u : Z) : bool := (0xDC00 <=? u) && (u <=? 0xDFFF).

Definition REPLACEMENT : Z := 0xFFFD.

(** The code points of a string, as the UTF-8 encoder reads them: a
    surrogate pair is one code point, an unpaired surrogate is replaced by
    U+FFFD. *)
Fixpoint codePoints (s : jsstring) : list Z :=
  match s with
  | [] => []
  | u :: rest =>
      if isHighSurrogate u then
        match rest with
        | v :: rest' =>
            if isLowSurrogate v
            then (0x10000 + (u - 0xD800) * 0x400 + (v - 0xDC00)) :: codePoints rest'
            else REPLACEMENT :: codePoints rest
        | [] => [REPLACEMENT]
        end
      else if isLowSurrogate u then REPLACEMENT :: codePoints rest
      else u :: codePoints rest
  end.

Definition utf8EncodeCodePoint (c : Z) : Buffer :=
  if c <? 0x80 then [byte.of_Z c]
  else if c <? 0x800 then
    [byte.of_Z (0xC0 + c / 64); byte.of_Z (0x80 + c mod 64)]
  else if c <? 0x10000 then
    [byte.of_Z (0xE0 + c / 4096); byte.of_Z (0x80 + (c / 64) mod 64);
     byte.of_Z (0x80 + c mod 64)]
  else
    [byte.of_Z (0xF0 + c / 262144); byte.of_Z (0x80 + (c / 4096) mod 64);
     byte.of_Z (0x80 + (c / 64) mod 64); byte.of_Z (0x80 + c mod 64)].

Definition utf8Encode (s : jsstring) : Buffer :=
  flat_map utf8EncodeCodePoint (codePoints s).

Definition inRange (lo hi : Z) (b : byte) : bool :=
  (lo <=? byte.unsigned b) && (byte.unsigned b <=? hi).

Definition contBits (b : byte) : Z := byte.unsigned b - 0x80.

(** The decoder of the Encoding standard: every maximal ill-formed
    subsequence becomes one U+FFFD. *)
Fixpoint utf8DecodeCodePoints (buf : Buffer) : list Z :=
  match buf with
  | [] => []
  | b0 :: r0 =>
      let x := byte.unsigned b0 in
      if x <? 0x80 then x :: utf8DecodeCodePoints r0
      else if inRange 0xC2 0xDF b0 then
        match r0 with
        | b1 :: r1 =>
            if inRange 0x80 0xBF b1
            then ((x - 0xC0) * 64 + contBits b1) :: utf8DecodeCodePoints r1
            else REPLACEMENT :: utf8DecodeCodePoints r0
        | [] => [REPLACEMENT]
        end
      else if inRange 0xE0 0xEF b0 then
        let lo := if x =? 0xE0 then 0xA0 else 0x80 in
        let hi := if x =? 0xED then 0x9F else 0xBF in
        match r0 with
        | b1 :: r1 =>
            if inRange lo hi b1 then
              match r1 with
              | b2 :: r2 =>
                  if inRange 0x80 0xBF b2
                  then ((x - 0xE0) * 4096 + contBits b1 * 64 + contBits b2)
                         :: utf8DecodeCodePoints r2
                  else REPLACEMENT :: utf8DecodeCodePoints r1
              | [] => [REPLACEMENT]
              end
            else REPLACEMENT :: utf8DecodeCodePoints r0
        | [] => [REPLACEMENT]
        end
      else if inRange 0xF0 0xF4 b0 then
        let lo := if x =? 0xF0 then 0x90 else 0x80 in
        let hi := if x =? 0xF4 then 0x8F else 0xBF in
        match r0 with
        | b1 :: r1 =>
            if inRange lo hi b1 then
              match r1 with
              | b2 :: r2 =>
                  if inRange 0x80 0xBF b2 then
                    match r2 with
                    | b3 :: r3 =>
                        if inRange 0x80 0xBF b3
                        then ((x - 0xF0) * 262144 + contBits b1 * 4096
                              + contBits b2 * 64 + contBits b3)
                               :: utf8DecodeCodePoints r3
                        else REPLACEMENT :: utf8DecodeCodePoints r2
                    | [] => [REPLACEMENT]
                    end
                  else REPLACEMENT :: utf8DecodeCodePoints r1
              | [] => [REPLACEMENT]
              end
            else REPLACEMENT :: utf8DecodeCodePoints r0
        | [] => [REPLACEMENT]
        end
      else REPLACEMENT :: utf8DecodeCodePoints r0
  end.

(** The UTF-16 code units of a code point. *)
Definition utf16Units (c : Z) : jsstring :=
  if c <? 0x10000 then [c]
  else [0xD800 + (c - 0x10000) / 0x400; 0xDC00 + (c - 0x10000) mod 0x400].

Definition utf8Decode (buf : Buffer) : jsstring :=
  flat_map utf16Units (utf8DecodeCodePoints buf).

(** A string the UTF-8 encoder represents exactly: code units in range and
    every surrogate paired. *)
Fixpoint wellFormed (s : jsstring) : bool :=
  match s with
  | [] => true
  | u :: rest =>
      code_unit u &&
      (if isHighSurrogate u then
         match rest with
         | v :: rest' => isLowSurrogate v && wellFormed rest'
         | [] => false
         end
       else negb (isLowSurrogate u) && wellFormed rest)
  end.

(** The invariant of the string type: every code unit is in range. *)
Definition isString (s : jsstring) : Prop :=
  Forall (fun u => code_unit u = true) s.

(** A Unicode scalar value: a code point that is not a surrogate. *)
Definition isScalar (c : Z) : bool :=
  ((0 <=? c) && (c <? 0xD800)) || ((0xE000 <=? c) && (c <? 0x110000)).

(** What a string becomes through UTF-8 and back: every unpaired surrogate
    replaced by U+FFFD. *)
Definition toWellFormed (s : jsstring) : jsstring :=
  flat_map utf16Units (codePoints s).

(* ===================================================================== *)
(** ** The platform: Node's [crypto] module, the random source, the clocks *)

Inductive algorithm : Type := aes_256_gcm | chacha20_poly1305.

(** What the program takes from its runtime.
    - [seal alg key iv plaintext] stands for [createCipheriv(alg, key, iv)],
      [update], [final] and [getAuthTag]: the ciphertext and the tag, or
      [None] when one of the calls throws.
    - [open alg key iv tag ciphertext] stands for [createDecipheriv],
      [setAuthTag], [update] and [final]: the plaintext, or [None] when one
      of the calls throws (in particular when [final] rejects the tag).
    - [publicEncrypt] and [privateDecrypt] are RSA-OAEP with SHA-256.
    - [hrtime] is [process.hrtime.bigint()], in nanoseconds; [dateNow] is
      [new Date()]. *)
Record Platform : Type := {
  rng : Type;
  randomBytes : nat -> rng -> Buffer * rng;
  seal : algorithm -> Buffer -> Buffer -> Buffer -> option (Buffer * Buffer);
  open : algorithm -> Buffer -> Buffer -> Buffer -> Buffer -> option Buffer;
  pubkey : Type;
  privkey : Type;
  publicEncrypt : pubkey -> Buffer -> rng -> option Buffer * rng;
  privateDecrypt : privkey -> Buffer -> option Buffer;
  clock : Type;
  hrtime : clock -> Z * clock;
  dateNow : clock -> Z * clock
}.

(** [JSON.stringify] and [JSON.parse] on the envelopes of one strategy. *)
Class JsonCodec (E : Type) : Type := {
  JSON_stringify : E -> jsstring;
  JSON_parse : jsstring -> option E
}.

(* ===================================================================== *)
(** ** Envelopes *)

(** [{ encrypted, iv, authTag }], three hexadecimal strings. *)
Record SymEnvelope : Type := {
  encrypted : jsstring;
  iv : jsstring;
  authTag : jsstring
}.

(** [{ encrypted: chunks, chunkCount }]; the field [encrypted] of the source
    is [encryptedChunks] here. *)
Record RsaEnvelope : Type := {
  encryptedChunks : list jsstring;
  chunkCount : nat
}.

(* ===================================================================== *)
(** ** The cipher wrappers of client.js *)

Section Ciphers.
Variable P : Platform.

Definition encryptAES (text : jsstring) (key : Buffer) (r : rng P)
  : outcome SymEnvelope * rng P :=
  let (nonce, r') := randomBytes P 16 r in
  (sealed <- of_option "createCipheriv" (seal P aes_256_gcm key nonce (utf8Encode text)) ;;
   Return {| encrypted := toHex (fst sealed);
             iv := toHex nonce;
             authTag := toHex (snd sealed) |},
   r').

Definition decryptAES (encryptedData : SymEnvelope) (key : Buffer)
  : outcome jsstring :=
  decrypted <- of_option "decipher"
    (open P aes_256_gcm key (fromHex (iv encryptedData))
       (fromHex (authTag encryptedData)) (fromHex (encrypted encryptedData))) ;;
  Return (utf8Decode decrypted).

Definition encryptChaCha20 (text : jsstring) (key : Buffer) (r : rng P)
  : outcome SymEnvelope * rng P :=
  let (nonce, r') := randomBytes P 12 r in
  (sealed <- of_option "createCipheriv"
     (seal P chacha20_poly1305 key nonce (utf8Encode text)) ;;
   Return {| encrypted := toHex (fst sealed);
             iv := toHex nonce;
             authTag := toHex (snd sealed) |},
   r').

Definition decryptChaCha20 (encryptedData : SymEnvelope) (key : Buffer)
  : outcome jsstring :=
  decrypted <- of_option "decipher"
    (open P chacha20_poly1305 key (fromHex (iv encryptedData))
       (fromHex (authTag encryptedData)) (fromHex (encrypted encryptedData))) ;;
  Return (utf8Decode decrypted).

(** [buf.slice(i, j)] for [0 <= i <= j]. *)
Definition slice (i j : nat) (buf : Buffer) : Buffer :=
  firstn (j - i) (skipn i buf).

Definition maxChunkSize : nat := 190.

(** The loop [for (let i = 0; i < textBuffer.length; i += maxChunkSize)] of
    [encryptRSA], from index [i] with the chunks pushed so far. *)
Equations encryptRSA_loop (publicKey : pubkey P) (textBuffer : Buffer)
  (i : nat) (chunks : list jsstring) (r : rng P)
  : outcome (list jsstring) * rng P by wf (length textBuffer - i)%nat lt :=
  encryptRSA_loop publicKey textBuffer i chunks r
    with lt_dec i (length textBuffer) := {
    | left _ with publicEncrypt P publicKey
                    (slice i (i + maxChunkSize) textBuffer) r := {
      | (Some enc, r') :=
          encryptRSA_loop publicKey textBuffer (i + maxChunkSize)%nat
            (chunks ++ [toHex enc]) r'
      | (None, r') := (Throw (CryptoError "publicEncrypt"), r') }
    | right _ := (Return chunks, r) }.
Next Obligation. unfold maxChunkSize. lia. Qed.

Definition encryptRSA (text : jsstring) (publicKey : pubkey P) (r : rng P)
  : outcome RsaEnvelope * rng P :=
  let textBuffer := utf8Encode text in
  let (res, r') := encryptRSA_loop publicKey textBuffer 0 [] r in
  (chunks <- res ;;
   Return {| encryptedChunks := chunks; chunkCount := length chunks |},
   r').

(** The loop [for (const chunk of chunks)] of [decryptRSA]. *)
Fixpoint decryptRSA_loop (privateKey : privkey P) (chunks : list jsstring)
  (decryptedChunks : list Buffer) : outcome (list Buffer) :=
  match chunks with
  | [] => Return decryptedChunks
  | chunk :: rest =>
      decrypted <- of_option "privateDecrypt"
        (privateDecrypt P privateKey (fromHex chunk)) ;;
      decryptRSA_loop privateKey rest (decryptedChunks ++ [decrypted])
  end.

Definition decryptRSA (encryptedData : RsaEnvelope) (privateKey : privkey P)
  : outcome jsstring :=
  decryptedChunks <- decryptRSA_loop privateKey (encryptedChunks encryptedData) [] ;;
  Return (utf8Decode (concat decryptedChunks)).

(** The closures [run] passes to [benchmark] for RSA; their [key] argument
    is [null]. *)
Definition rsaEncrypt (publicKey : pubkey P)
  : jsstring -> unit -> rng P -> outcome RsaEnvelope * rng P :=
  fun text key r => encryptRSA text publicKey r.

Definition rsaDecrypt (privateKey : privkey P)
  : RsaEnvelope -> unit -> outcome jsstring :=
  fun encryptedData key => decryptRSA encryptedData privateKey.

End Ciphers.

(* ===================================================================== *)
(** ** Numbers: doubles *)

(** A JavaScript number: a double.  A finite double is held as the rational
    it denotes, in lowest terms; the sign of a zero is not kept (the zeros
    this program divides by are a length and a duration, which are never
    [-0]). *)
Inductive number : Type :=
| Finite (q : Q)
| NaN
| PosInfinity
| NegInfinity.

(** The number a binary64 datum of the Standard Library's specification of
    IEEE 754 arithmetic denotes. *)
Definition ofDouble (f : SpecFloat.spec_float) : number :=
  match f with
  | SpecFloat.S754_zero _ => Finite 0
  | SpecFloat.S754_infinity false => PosInfinity
  | SpecFloat.S754_infinity true => NegInfinity
  | SpecFloat.S754_nan => NaN
  | SpecFloat.S754_finite s m e =>
      let magnitude := match e with
                       | Zneg k => Qmake (Zpos m) (Pos.shiftl 1 (Npos k))
                       | _ => inject_Z (Zpos m * 2 ^ e)
                       end in
      Finite (Qred (if s then - magnitude else magnitude))
  end.

(** [n / d], rounded to the nearest double, ties to even, with the sign
    given: the quotient with its remainder's position, then the rounding of
    binary64 (precision 53, largest exponent 1024). *)
Definition roundMagnitude (negative : bool) (n d : positive) : number :=
  let '(m, e, l) := SpecFloat.SFdiv_core_binary 53 1024 (Zpos n) 0 (Zpos d) 0 in
  ofDouble (SpecFloat.binary_round_aux 53 1024 negative m e l).

(** The double nearest to a rational: what an arithmetic operation returns
    when [q] is its exact result.  Beyond the largest double it is an
    infinity. *)
Definition roundDouble (q : Q) : number :=
  match Qnum (Qred q) with
  | Z0 => Finite 0
  | Zpos n => roundMagnitude false n (Qden (Qred q))
  | Zneg n => roundMagnitude true n (Qden (Qred q))
  end.

(** [-a], [a + b], [a - b], [a * b] and [a / b] on numbers. *)
Definition Number_neg (a : number) : number :=
  match a with
  | Finite x => Finite (- x)
  | NaN => NaN
  | PosInfinity => NegInfinity
  | NegInfinity => PosInfinity
  end.

Definition Number_add (a b : number) : number :=
  match a, b with
  | NaN, _ | _, NaN => NaN
  | PosInfinity, NegInfinity | NegInfinity, PosInfinity => NaN
  | PosInfinity, _ | _, PosInfinity => PosInfinity
  | NegInfinity, _ | _, NegInfinity => NegInfinity
  | Finite x, Finite y => roundDouble (x + y)
  end.

Definition Number_sub (a b : number) : number :=
  Number_add a (Number_neg b).

(** How zero compares with a number: [Lt] when the number is above zero,
    [Eq] when it is zero, [Gt] when it is below; [NaN] does not compare. *)
Definition signum (a : number) : option comparison :=
  match a with
  | Finite x => Some (0 ?= x)%Q
  | NaN => None
  | PosInfinity => Some Lt
  | NegInfinity => Some Gt
  end.

(** The infinity whose sign is the product of two signs. *)
Definition infinityOf (sa sb : comparison) : number :=
  match sa, sb with
  | Lt, Lt | Gt, Gt => PosInfinity
  | _, _ => NegInfinity
  end.

Definition Number_mul (a b : number) : number :=
  match a, b with
  | NaN, _ | _, NaN => NaN
  | Finite x, Finite y => roundDouble (x * y)
  | _, _ =>
      match signum a, signum b with
      | Some Eq, _ | _, Some Eq => NaN
      | Some sa, Some sb => infinityOf sa sb
      | _, _ => NaN
      end
  end.

Definition Number_div (a b : number) : number :=
  match a, b with
  | NaN, _ | _, NaN => NaN
  | Finite x, Finite y =>
      if Qeq_bool y 0 then
        match (0 ?= x)%Q with
        | Eq => NaN
        | Lt => PosInfinity
        | Gt => NegInfinity
        end
      else roundDouble (x / y)
  | Finite _, _ => Finite 0
  | _, Finite y =>
      match signum a with
      | Some sa => infinityOf sa (if Qle_bool 0 y then Lt else Gt)
      | None => NaN
      end
  | _, _ => NaN
  end.

(** A number that is zero, above zero or [Infinity]. *)
Definition notNegative (a : number) : Prop :=
  match a with
  | Finite x => (0 <= x)%Q
  | PosInfinity => True
  | NaN | NegInfinity => False
  end.

(** A rational that is a double: rounding leaves it as it is. *)
Definition isDouble (q : Q) : Prop := roundDouble q = Finite (Qred q).

(** [Number(n)] for a BigInt: the nearest double. *)
Definition Number_ofBigInt (n : Z) : number := roundDouble (inject_Z n).

(** The length of an array as a number: an integer below 2^32, which is a
    double. *)
Definition Number_ofNat (n : nat) : number := Finite (inject_Z (Z.of_nat n)).

(* ===================================================================== *)
(** ** Statistics: the end of [benchmark] (client.js, lines 199-212) *)

(** [{ avg, median, min, max }]; [median = None] is [undefined]. *)
Record Summary : Type := {
  avg : number;
  median : option Q;
  min : number;
  max : number
}.

(** [times.reduce((a, b) => a + b, 0)]: the durations are added one by one
    from the left, each sum rounded. *)
Definition sum (times : list Q) : number :=
  fold_left (fun a b => Number_add a (Finite b)) times (Finite 0).

(** [total / times.length] *)
Definition divideByLength (total : number) (n : nat) : number :=
  Number_div total (Number_ofNat n).

Definition numberMin (a : number) (x : Q) : number :=
  match a with
  | Finite y => if Qle_bool y x then Finite y else Finite x
  | PosInfinity => Finite x
  | NegInfinity => NegInfinity
  | NaN => NaN
  end.

Definition numberMax (a : number) (x : Q) : number :=
  match a with
  | Finite y => if Qle_bool x y then Finite y else Finite x
  | NegInfinity => Finite x
  | PosInfinity => PosInfinity
  | NaN => NaN
  end.

(** [Math.min(...times)]: the least argument, [Infinity] without arguments. *)
Definition Math_min (times : list Q) : number :=
  fold_left numberMin times PosInfinity.

(** [Math.max(...times)]: the greatest argument, [-Infinity] without arguments. *)
Definition Math_max (times : list Q) : number :=
  fold_left numberMax times NegInfinity.

(** [times.sort((a, b) => a - b)]: a stable ascending sort.  The difference
    of two doubles is rounded, but it is negative, zero or positive as the
    exact difference is, so the comparison is that of the values. *)
Fixpoint insert (x : Q) (sorted : list Q) : list Q :=
  match sorted with
  | [] => [x]
  | y :: rest => if Qle_bool y x then y :: insert x rest else x :: sorted
  end.

Fixpoint sortAscending (times : list Q) : list Q :=
  match times with
  | [] => []
  | x :: rest => insert x (sortAscending rest)
  end.

(** Lines 200-204. *)
Definition statistics (times : list Q) : Summary :=
  let sorted := sortAscending times in
  {| avg := divideByLength (sum times) (length times);
     median := nth_error sorted (Nat.div (length sorted) 2);
     min := Math_min times;
     max := Math_max times |}.

(** Lines 206-210: each statistic is formatted with [toFixed(3)], which
    every number has and [undefined] has not.  The printed text is not
    modelled. *)
Definition report (s : Summary) : outcome unit :=
  match median s with
  | Some _ => Return tt
  | None => Throw (TypeError "toFixed")
  end.

(** Lines 199-212: compute, print, return. *)
Definition summarize (times : list Q) : outcome Summary :=
  let s := statistics times in
  _ <- report s ;;
  Return s.

(* ===================================================================== *)
(** ** Numbers in request paths: [`${id}`] and [parseInt] *)

Fixpoint uintDigits (d : Decimal.uint) : jsstring :=
  match d with
  | Decimal.Nil => []
  | Decimal.D0 d => 48 :: uintDigits d
  | Decimal.D1 d => 49 :: uintDigits d
  | Decimal.D2 d => 50 :: uintDigits d
  | Decimal.D3 d => 51 :: uintDigits d
  | Decimal.D4 d => 52 :: uintDigits d
  | Decimal.D5 d => 53 :: uintDigits d
  | Decimal.D6 d => 54 :: uintDigits d
  | Decimal.D7 d => 55 :: uintDigits d
  | Decimal.D8 d => 56 :: uintDigits d
  | Decimal.D9 d => 57 :: uintDigits d
  end.

(** [String(n)] for a non-negative integer. *)
Definition Number_toString (n : nat) : jsstring :=
  uintDigits (Nat.to_uint n).

(** [`${id}`] where [id] is a number or [undefined]. *)
Definition templateId (id : option nat) : jsstring :=
  match id with
  | Some n => Number_toString n
  | None => js "undefined"
  end.

Definition isWhiteSpace (c : Z) : bool :=
  existsb (Z.eqb c)
    [9; 10; 11; 12; 13; 32; 160; 0x1680; 0x2028; 0x2029; 0x202F; 0x205F;
     0x3000; 0xFEFF]
  || ((0x2000 <=? c) && (c <=? 0x200A)).

Fixpoint trimStart (s : jsstring) : jsstring :=
  match s with
  | c :: rest => if isWhiteSpace c then trimStart rest else s
  | [] => []
  end.

Definition digitVal (radix c : Z) : option Z :=
  let v := if (48 <=? c) && (c <=? 57) then c - 48
           else if (97 <=? c) && (c <=? 122) then c - 87
           else if (65 <=? c) && (c <=? 90) then c - 55
           else radix in
  if v <? radix then Some v else None.

Fixpoint parseDigits (radix : Z) (s : jsstring) (acc : Z) : Z :=
  match s with
  | c :: rest =>
      match digitVal radix c with
      | Some d => parseDigits radix rest (radix * acc + d)
      | None => acc
      end
  | [] => acc
  end.

(** The sign and the radix prefix that [parseInt] strips. *)
Definition signOf (s : jsstring) : Z * jsstring :=
  match s with
  | 45 :: rest => (-1, rest)
  | 43 :: rest => (1, rest)
  | _ => (1, s)
  end.

Definition radixOf (s : jsstring) : Z * jsstring :=
  match s with
  | 48 :: x :: rest =>
      if (x =? 120) || (x =? 88) then (16, rest) else (10, s)
  | _ => (10, s)
  end.

(** [parseInt(s)] without a radix; [None] is [NaN].  The result is the exact
    integer (a double rounds it beyond 2^53, far above any array length). *)
Definition parseInt (s : jsstring) : option Z :=
  let '(sign, s2) := signOf (trimStart s) in
  let '(radix, s3) := radixOf s2 in
  match s3 with
  | c :: _ =>
      match digitVal radix c with
      | Some _ => Some (sign * parseDigits radix s3 0)
      | None => None
      end
  | [] => None
  end.

(* ===================================================================== *)
(** ** The store: the Express application *)

(** The values a [text] field can hold ([VUndefined] when it is missing). *)
Inductive jsvalue : Type :=
| VUndefined
| VNull
| VBool (b : bool)
| VNumber (n : Z)
| VString (s : jsstring).

(** [!v] *)
Definition falsy (v : jsvalue) : bool :=
  match v with
  | VUndefined | VNull => true
  | VBool b => negb b
  | VNumber n => n =? 0
  | VString s => match s with [] => true | _ => false end
  end.

(** [{ id, text, timestamp }] *)
Record StoredString : Type := {
  id : nat;
  text : jsvalue;
  timestamp : Z
}.

Inductive request : Type :=
| POST_store (text : jsvalue)            (* POST /store  { text } *)
| GET_strings                            (* GET /strings *)
| GET_strings_id (param : jsstring).     (* GET /strings/:id *)

(** The JSON bodies the application sends. *)
Inductive body : Type :=
| Stored (message : string) (id : nat) (text : jsvalue)
| Failed (error : string)
| Listing (count : nat) (strings : list StoredString)
| Entry (str : StoredString).

Record response : Type := {
  status : nat;
  json : body
}.

(** [strings[id]] *)
Definition index (strings : list StoredString) (i : option Z)
  : option StoredString :=
  match i with
  | Some z => if z <? 0 then None else nth_error strings (Z.to_nat z)
  | None => None
  end.

(** The handlers are modelled on the parsed body that [express.json()]
    hands them; the parser itself (its size limit, its treatment of a body
    that is not JSON) is outside the model. *)
Section Store.
Variable P : Platform.

(** The state of the application: the array [strings] and the wall clock
    that [new Date()] reads. *)
Record App : Type := {
  strings : list StoredString;
  wallClock : clock P
}.

(** [app.post('/store', ...)] *)
Definition post_store (text : jsvalue) (app : App) : response * App :=
  if falsy text then
    ({| status := 400; json := Failed "Text field is required" |}, app)
  else
    let id := length (strings app) in
    let (now, later) := dateNow P (wallClock app) in
    ({| status := 201; json := Stored "String stored successfully" id text |},
     {| strings := strings app ++ [{| id := id; text := text; timestamp := now |}];
        wallClock := later |}).

(** [app.get('/strings', ...)] *)
Definition get_strings (app : App) : response :=
  {| status := 200; json := Listing (length (strings app)) (strings app) |}.

(** [app.get('/strings/:id', ...)] *)
Definition get_strings_id (param : jsstring) (app : App) : response :=
  let id := parseInt param in
  match index (strings app) id with
  | None => {| status := 404; json := Failed "String not found" |}
  | Some str => {| status := 200; json := Entry str |}
  end.

Definition handle (req : request) (app : App) : response * App :=
  match req with
  | POST_store text => post_store text app
  | GET_strings => (get_strings app, app)
  | GET_strings_id param => (get_strings_id param app, app)
  end.

(** A sequence of requests, handled one after the other. *)
Fixpoint serve (reqs : list request) (app : App) : list response * App :=
  match reqs with
  | [] => ([], app)
  | req :: rest =>
      let (resp, app') := handle req app in
      let (resps, app'') := serve rest app' in
      (resp :: resps, app'')
  end.

End Store.

Arguments strings {P} _.
Arguments wallClock {P} _.

(** Every record sits at the index that is its identifier. *)
Definition consistent {P : Platform} (app : App P) : Prop :=
  forall i str, nth_error (strings app) i = Some str -> id str = i.

(** The identifier a response to a store request assigns, if any. *)
Definition assignedId (resp : response) : option nat :=
  match json resp with
  | Stored _ id _ => Some id
  | _ => None
  end.

(** The identifiers a run of requests assigns, in order. *)
Definition assignedIds (resps : list response) : list nat :=
  flat_map (fun resp => match assignedId resp with
                        | Some i => [i]
                        | None => []
                        end) resps.

(* ===================================================================== *)
(** ** The client: [makeRequest] *)

(** What the network gives back for one request: the ['error'] event, or
    a response with its status and its body.  The body is a text: the JSON
    of an object as the application sends them, the JSON text [null], or a
    text that is not JSON at all.  (A JSON number, string, boolean or array,
    or an object without the fields [id] and [text], is for this client what
    [Failed] is: all it reads of it is [undefined].) *)
Inductive payload : Type :=
| JsonText (b : body)
| JsonNull
| RawText (s : jsstring).

Inductive exchange : Type :=
| NetworkError (code : string)
| Answer (status : nat) (content : payload).

(** The value the promise resolves with: [JSON.parse(body)], or [body]
    itself when that throws. *)
Inductive resolved : Type :=
| Parsed (b : body)
| Null
| Unparsed (s : jsstring).

Definition parseBody (content : payload) : resolved :=
  match content with
  | JsonText b => Parsed b
  | JsonNull => Null
  | RawText s => Unparsed s
  end.

(** [makeRequest(method, path, data)] over one exchange: resolved on the
    response's ['end'] whatever its status, rejected on ['error'].  The
    request is [POST_store text] for [('POST', '/store', { text })] and
    [GET_strings_id p] for [('GET', '/strings/' + p)]. *)
Definition makeRequest {Peer : Type} (network : request -> Peer -> exchange * Peer)
  (req : request) (s : Peer) : outcome resolved * Peer :=
  let (x, s') := network req s in
  (match x with
   | NetworkError code => Throw (SystemError code)
   | Answer _ content => Return (parseBody content)
   end, s').

(** [response.id] and [response.text]: the field of an object, [undefined]
    where an object or a string has no such field, and a TypeError on
    [null], which has no properties. *)
Definition field_id (v : resolved) : outcome (option nat) :=
  match v with
  | Parsed (Stored _ id _) => Return (Some id)
  | Parsed (Entry str) => Return (Some (id str))
  | Null => Throw (TypeError "id")
  | _ => Return None
  end.

Definition field_text (v : resolved) : outcome jsvalue :=
  match v with
  | Parsed (Stored _ _ text) => Return text
  | Parsed (Entry str) => Return (text str)
  | Null => Throw (TypeError "text")
  | _ => Return VUndefined
  end.

(** The network when the peer is the Express application and reachable. *)
Definition express (P : Platform) (req : request) (app : App P)
  : exchange * App P :=
  let (resp, app') := handle P req app in
  (Answer (status resp) (JsonText (json resp)), app').

(* ===================================================================== *)
(** ** The client: [benchmark] *)

(** The steps of an iteration, in the order they complete.  The source
    keeps no such record; the model writes one so that the order of the
    steps can be stated. *)
Inductive event : Type :=
| Encrypted
| StoreDone (id : option nat)
| RetrieveDone (id : option nat)
| Decrypted
| Verified.

Section Benchmark.
Variable P : Platform.
Variable Peer : Type.                   (* the state of the network peer *)
Variable network : request -> Peer -> exchange * Peer.
Variable Envelope : Type.
Context {codec : JsonCodec Envelope}.
Variable Key : Type.

(** Everything an iteration reads or changes. *)
Record World : Type := {
  entropy : rng P;
  timer : clock P;
  peer : Peer;
  trace : list event
}.

(** Computations of the driver: they change the world and may throw. *)
Definition M (A : Type) : Type := World -> outcome A * World.

Definition ret {A} (a : A) : M A := fun w => (Return a, w).

Definition throw {A} (e : exn) : M A := fun w => (Throw e, w).

Definition mbind {A B} (m : M A) (k : A -> M B) : M B :=
  fun w =>
    match m w with
    | (Return a, w') => k a w'
    | (Throw e, w') => (Throw e, w')
    end.

Notation "x <~ m ;; k" := (mbind m (fun x => k))
  (at level 61, m at next level, right associativity).

Definition now : M Z := fun w =>
  let (t, c) := hrtime P (timer w) in
  (Return t, {| entropy := entropy w; timer := c; peer := peer w; trace := trace w |}).

Definition withEntropy {A} (f : rng P -> outcome A * rng P) : M A := fun w =>
  let (a, r) := f (entropy w) in
  (a, {| entropy := r; timer := timer w; peer := peer w; trace := trace w |}).

Definition await (req : request) : M resolved := fun w =>
  let (v, s) := makeRequest network req (peer w) in
  (v, {| entropy := entropy w; timer := timer w; peer := s; trace := trace w |}).

Definition emit (e : event) : M unit := fun w =>
  (Return tt, {| entropy := entropy w; timer := timer w; peer := peer w;
                 trace := trace w ++ [e] |}).

Definition lift {A} (o : outcome A) : M A := fun w => (o, w).

(** [JSON.parse(getResponse.text)]: a string is parsed; [undefined] is not
    JSON; any other value parses to itself and has none of the fields the
    decryption reads. *)
Definition parseEnvelope (text : jsvalue) : outcome Envelope :=
  match text with
  | VString s =>
      match JSON_parse s with
      | Some e => Return e
      | None => Throw SyntaxError
      end
  | VUndefined => Throw SyntaxError
  | _ => Throw (TypeError "encryptedData")
  end.

Definition jsstring_eqb (a b : jsstring) : bool :=
  if list_eq_dec Z.eq_dec a b then true else false.

(** [Number(end - start) / 1_000_000].  The readings of
    [process.hrtime.bigint()] are 64-bit counts of nanoseconds, so their
    difference is far inside the range of the doubles and the duration is a
    finite double; outside that range, where JavaScript gives an infinity,
    the embedding keeps the exact quotient. *)
Definition durationOf (start finish : Z) : Q :=
  match Number_div (Number_ofBigInt (finish - start)) (Finite 1000000) with
  | Finite duration => duration
  | _ => Qmake (finish - start) 1000000
  end.

(** The body of the loop (lines 168-196): the duration of one round trip,
    in milliseconds. *)
Definition iteration
  (encryptFn : option (jsstring -> Key -> rng P -> outcome Envelope * rng P))
  (decryptFn : option (Envelope -> Key -> outcome jsstring))
  (key : Key) (text : jsstring) : M Q :=
  start <~ now ;;
  dataToSend <~ match encryptFn with
                | Some encrypt =>
                    encrypted <~ withEntropy (encrypt text key) ;;
                    _ <~ emit Encrypted ;;
                    ret (JSON_stringify encrypted)
                | None => ret text
                end ;;
  storeResponse <~ await (POST_store (VString dataToSend)) ;;
  id <~ lift (field_id storeResponse) ;;
  _ <~ emit (StoreDone id) ;;
  getResponse <~ await (GET_strings_id (templateId id)) ;;
  _ <~ emit (RetrieveDone id) ;;
  _ <~ match decryptFn with
       | Some decrypt =>
           retrieved <~ lift (field_text getResponse) ;;
           encryptedData <~ lift (parseEnvelope retrieved) ;;
           decrypted <~ lift (decrypt encryptedData key) ;;
           _ <~ emit Decrypted ;;
           if jsstring_eqb decrypted text
           then emit Verified
           else throw (JsError "Decryption failed - data mismatch!")
       | None => ret tt
       end ;;
  finish <~ now ;;
  ret (durationOf start finish).

(** The loop [for (let i = 0; i < iterations; i++)], with [count]
    iterations left and the durations pushed so far. *)
Fixpoint iterate
  (encryptFn : option (jsstring -> Key -> rng P -> outcome Envelope * rng P))
  (decryptFn : option (Envelope -> Key -> outcome jsstring))
  (key : Key) (text : jsstring) (count : nat) (times : list Q)
  : M (list Q) :=
  match count with
  | O => ret times
  | S count' =>
      duration <~ iteration encryptFn decryptFn key text ;;
      iterate encryptFn decryptFn key text count' (times ++ [duration])
  end.

(** The number of times the loop body runs for an integer [iterations]. *)
Definition loopCount (iterations : Z) : nat := Z.to_nat iterations.

(** [benchmark(label, encryptFn, decryptFn, key, text, iterations = 100)];
    an omitted [iterations] is [None]. *)
Definition benchmark
  (encryptFn : option (jsstring -> Key -> rng P -> outcome Envelope * rng P))
  (decryptFn : option (Envelope -> Key -> outcome jsstring))
  (key : Key) (text : jsstring) (iterations : option Z) : M Summary :=
  let iterations := match iterations with Some n => n | None => 100 end in
  times <~ iterate encryptFn decryptFn key text (loopCount iterations) [] ;;
  lift (summarize times).

End Benchmark.

Arguments entropy {P Peer} _.
Arguments timer {P Peer} _.
Arguments peer {P Peer} _.
Arguments trace {P Peer} _.

(* ===================================================================== *)
(** ** What is assumed of the platform *)

Definition keyLength : nat := 32.

(** The nonce each symmetric wrapper draws. *)
Definition nonceLength (alg : algorithm) : nat :=
  match alg with
  | aes_256_gcm => 16
  | chacha20_poly1305 => 12
  end.

(** [randomBytes(n)] has [n] bytes. *)
Definition RandomLaw (P : Platform) : Prop :=
  forall n r, length (fst (randomBytes P n r)) = n.

(** Authenticated encryption is correct: with a 256-bit key and the nonce
    of the scheme, sealing succeeds and opening gives the plaintext back. *)
Definition SealOpenLaw (P : Platform) : Prop :=
  forall alg key nonce plaintext,
    length key = keyLength ->
    length nonce = nonceLength alg ->
    exists ciphertext tag,
      seal P alg key nonce plaintext = Some (ciphertext, tag) /\
      open P alg key nonce tag ciphertext = Some plaintext.

(** RSA-OAEP with SHA-256 under a 2048-bit key pair is correct on messages
    of at most 256 - 2 * 32 - 2 = 190 bytes. *)
Definition RsaLaw (P : Platform) (publicKey : pubkey P) (privateKey : privkey P)
  : Prop :=
  forall message r,
    (length message <= 190)%nat ->
    exists ciphertext,
      fst (publicEncrypt P publicKey message r) = Some ciphertext /\
      privateDecrypt P privateKey ciphertext = Some message.

(** [JSON.parse(JSON.stringify(e))] is [e], and the JSON text of an object
    is not the empty string. *)
Definition JsonLaw (E : Type) {codec : JsonCodec E} : Prop :=
  forall e : E,
    JSON_parse (JSON_stringify e) = Some e /\ JSON_stringify e <> [].

(* ===================================================================== *)
(** ** The vocabulary of the cipher properties *)

(** The plaintext chunks of the asymmetric scheme: chunk [k] is the bytes
    [k * 190 .. k * 190 + 190) of the buffer. *)
Definition chunkCapacity : nat := maxChunkSize.

Definition chunkTotal (L : nat) : nat := Nat.div (L + (chunkCapacity - 1)) chunkCapacity.

Definition plainChunks (textBuffer : Buffer) : list Buffer :=
  map (fun k => slice (k * chunkCapacity) (k * chunkCapacity + chunkCapacity) textBuffer)
      (seq 0 (chunkTotal (length textBuffer))).

(** Byte [i] of a buffer replaced by [b]. *)
Fixpoint setByte (i : nat) (b : byte) (buf : Buffer) : Buffer :=
  match buf, i with
  | [], _ => []
  | _ :: rest, O => b :: rest
  | x :: rest, S i' => x :: setByte i' b rest
  end.

(** The same from index [i] on, as the loop of [encryptRSA] meets them. *)
Definition slicesFrom (textBuffer : Buffer) (i : nat) : list Buffer :=
  map (fun k => slice (i + k * chunkCapacity)
                  (i + k * chunkCapacity + chunkCapacity) textBuffer)
      (seq 0 (chunkTotal (length textBuffer - i))).

(** An envelope whose ciphertext, or whose tag, has byte [i] replaced by
    [b] before it reaches the decryption. *)
Definition setCiphertextByte (i : nat) (b : byte) (e : SymEnvelope) : SymEnvelope :=
  {| encrypted := toHex (setByte i b (fromHex (encrypted e)));
     iv := iv e;
     authTag := authTag e |}.

Definition setTagByte (i : nat) (b : byte) (e : SymEnvelope) : SymEnvelope :=
  {| encrypted := encrypted e;
     iv := iv e;
     authTag := toHex (setByte i b (fromHex (authTag e))) |}.

(* ===================================================================== *)
(** ** The vocabulary of the benchmark properties *)

(** The events of one complete round trip that stores under identifier
    [i]: encryption and decryption with verification only when the
    strategy has them. *)
Definition roundTrip {A B : Type} (encryptFn : option A) (decryptFn : option B)
  (i : nat) : list event :=
  (match encryptFn with Some _ => [Encrypted] | None => [] end)
  ++ [StoreDone (Some i); RetrieveDone (Some i)]
  ++ (match decryptFn with Some _ => [Decrypted; Verified] | None => [] end).

(** A strategy the driver can run on [text]: none at all, on a text that
    is not empty; or an encryption that succeeds whatever the random source
    gives, with a decryption that undoes it, and a JSON form for the
    envelopes. *)
Definition StrategyWorks {P : Platform} {Envelope Key : Type}
  {codec : JsonCodec Envelope}
  (encryptFn : option (jsstring -> Key -> rng P -> outcome Envelope * rng P))
  (decryptFn : option (Envelope -> Key -> outcome jsstring))
  (key : Key) (text : jsstring) : Prop :=
  match encryptFn, decryptFn with
  | None, None => text <> []
  | Some encrypt, Some decrypt =>
      JsonLaw Envelope /\
      (forall r, exists e r',
         encrypt text key r = (Return e, r') /\ decrypt e key = Return text)
  | _, _ => False
  end.

(** The identifiers the stores of a trace were given. *)
Definition storedIds (events : list event) : list nat :=
  flat_map (fun e => match e with
                     | StoreDone (Some i) => [i]
                     | _ => []
                     end) events.

(** A network on which every exchange fails. *)
Definition unreachable {Peer : Type} (code : string)
  (req : request) (s : Peer) : exchange * Peer :=
  (NetworkError code, s).

(* ===================================================================== *)
(** ** A small platform on which the laws hold

    Used to show that the assumptions made of the platform can be met: the
    ciphertext is the plaintext reversed, the tag is the key, the nonce and
    the ciphertext together, the random source and the clocks count. *)

Definition Buffer_eqb (a b : Buffer) : bool :=
  if list_eq_dec Byte.byte_eq_dec a b then true else false.

Definition toySeal (alg : algorithm) (key nonce plaintext : Buffer)
  : option (Buffer * Buffer) :=
  if Nat.eqb (length key) keyLength
  then Some (rev plaintext, key ++ nonce ++ rev plaintext)
  else None.

Definition toyOpen (alg : algorithm) (key nonce tag ciphertext : Buffer)
  : option Buffer :=
  if Buffer_eqb tag (key ++ nonce ++ ciphertext)
  then Some (rev ciphertext)
  else None.

Definition toyPlatform : Platform := {|
  rng := nat;
  randomBytes := fun n r => (repeat (byte.of_Z (Z.of_nat r)) n, S r);
  seal := toySeal;
  open := toyOpen;
  pubkey := unit;
  privkey := unit;
  publicEncrypt := fun _ message r =>
    (if Nat.leb (length message) 190 then Some (rev message) else None, S r);
  privateDecrypt := fun _ ciphertext => Some (rev ciphertext);
  clock := Z;
  hrtime := fun c => (c, c + 250000);
  dateNow := fun c => (c, c + 1)
|}.

(** A length-prefixed text for the three fields of a symmetric envelope. *)
#[local] Instance toyCodec : JsonCodec SymEnvelope := {|
  JSON_stringify := fun e =>
    Z.of_nat (length (encrypted e)) :: Z.of_nat (length (iv e))
      :: encrypted e ++ iv e ++ authTag e;
  JSON_parse := fun s =>
    match s with
    | a :: b :: rest =>
        Some {| encrypted := firstn (Z.to_nat a) rest;
                iv := firstn (Z.to_nat b) (skipn (Z.to_nat a) rest);
                authTag := skipn (Z.to_nat b) (skipn (Z.to_nat a) rest) |}
    | _ => None
    end
|}.

Definition toyKey : Buffer := repeat Byte.x00 32.

(** The envelope [encryptAES] makes of "Lorem ipsum" on this platform. *)
Definition toyEnvelope : SymEnvelope :=
  {| encrypted := toHex (rev (utf8Encode (js "Lorem ipsum")));
     iv := toHex (repeat Byte.x00 16);
     authTag := toHex (toyKey ++ repeat Byte.x00 16
                       ++ rev (utf8Encode (js "Lorem ipsum"))) |}.

(** A fresh run: an empty store, nothing done yet. *)
Definition toyWorld : World toyPlatform (App toyPlatform) :=
  Build_World toyPlatform (App toyPlatform)
    0%nat 0 (Build_App toyPlatform [] 0) [].

(* ===================================================================== *)
(** ** The vocabulary of the statistics properties *)

(** The exact sums [acc + x1], [acc + x1 + x2], ... of a sequence. *)
Fixpoint prefixSums (acc : Q) (times : list Q) : list Q :=
  match times with
  | [] => []
  | x :: rest => (acc + x)%Q :: prefixSums (acc + x)%Q rest
  end.

(** The exact arithmetic mean. *)
Definition mean (times : list Q) : Q :=
  (fold_left Qplus times 0 / inject_Z (Z.of_nat (length times)))%Q.

(** The double 0.1: the duration of 100000 ns. *)
Definition tenth : Q := (3602879701896397 # 36028797018963968)%Q.

(* ===================================================================== *)
(** ** The vocabulary of the store properties *)

(** The texts a run of requests asks to store and the store accepts. *)
Definition acceptedTexts (reqs : list request) : list jsvalue :=
  flat_map (fun req => match req with
                       | POST_store text => if falsy text then [] else [text]
                       | _ => []
                       end) reqs.

(** What may follow the digits of an identifier in a path without changing
    what [parseInt] reads: nothing, or a character that is not a decimal
    digit (and, after a lone "0", not the "x" of a hexadecimal prefix). *)
Definition ignoredSuffix (n : nat) (suffix : jsstring) : Prop :=
  match suffix with
  | [] => True
  | c :: _ => digitVal 10 c = None /\ (n = 0%nat -> c <> 120 /\ c <> 88)
  end.

(* ===================================================================== *)
(** ** A platform whose RSA decryption can fail

    As the small platform, except that a ciphertext carries a leading
    byte 01 and decryption rejects one that does not. *)

Definition pickyPlatform : Platform := {|
  rng := nat;
  randomBytes := randomBytes toyPlatform;
  seal := toySeal;
  open := toyOpen;
  pubkey := unit;
  privkey := unit;
  publicEncrypt := fun _ message r =>
    (if Nat.leb (length message) 190 then Some (Byte.x01 :: rev message) else None,
     S r);
  privateDecrypt := fun _ ciphertext =>
    match ciphertext with
    | Byte.x01 :: body => Some (rev body)
    | _ => None
    end;
  clock := Z;
  hrtime := hrtime toyPlatform;
  dateNow := dateNow toyPlatform
|}.

(* ===================================================================== *)
(** ** The vocabulary of the envelope properties *)

(** A character [toString('hex')] produces. *)
Definition isHexDigit (c : Z) : bool :=
  ((48 <=? c) && (c <=? 57)) || ((97 <=? c) && (c <=? 102)).

(* ===================================================================== *)
(** ** The vocabulary of the driver properties *)

(** The clock does not run backwards: a reading is not below the reading
    before it. *)
Definition MonotoneClock (P : Platform) : Prop :=
  forall c, fst (hrtime P c) <= fst (hrtime P (snd (hrtime P c))).

(** The durations of [count] iterations one after the other: each reads
    the clock twice, and the next starts from where the last one left it. *)
Fixpoint clockDurations (P : Platform) (c : clock P) (count : nat) : list Q :=
  match count with
  | O => []
  | S count' =>
      let (start, c1) := hrtime P c in
      let (finish, c2) := hrtime P c1 in
      durationOf start finish :: clockDurations P c2 count'
  end.

(** What an iteration leaves in the store: without a strategy the text
    itself; with one, the JSON text of an envelope that decrypts to the
    text. *)
Definition storedBy {Envelope Key : Type} {codec : JsonCodec Envelope}
  (decryptFn : option (Envelope -> Key -> outcome jsstring))
  (key : Key) (plaintext : jsstring) (str : StoredString) : Prop :=
  match decryptFn with
  | None => text str = VString plaintext
  | Some decrypt =>
      exists e, text str = VString (JSON_stringify e) /\
                decrypt e key = Return plaintext
  end.



(** A peer that knows no record: it answers every request with 404. *)
Definition knowsNothing {Peer : Type} (req : request) (s : Peer)
  : exchange * Peer :=
  (Answer 404 (JsonText (Failed "String not found")), s).


(* ===================================================================== *)
(** ** The client: [run] *)

(** The sample text of [run] (client.js, line 235). *)
Definition testString : jsstring :=
  js "Lorem ipsum dolor sit amet, consectetur adipiscing elit. Fusce faucibus ornare lorem at volutpat. Sed vulputate augue eu neque elementum tincidunt. Aliquam sed massa libero. Curabitur eleifend vehicula mauris, ut viverra justo ultricies non. Integer ornare et enim id suscipit. Vivamus accumsan sollicitudin nisi lacinia eleifend. Nam varius justo erat, quis mollis turpis pulvinar in. Pellentesque imperdiet, nisl et imperdiet eleifend, ante elit viverra sapien, ac laoreet massa justo et nisl. Nullam malesuada gravida dolor, quis imperdiet est fermentum ullamcorper. Integer turpis enim, volutpat ut luctus id, ullamcorper ac felis. Praesent urna dolor, consequat eu bibendum at, eleifend sed elit. Suspendisse nibh sapien, dignissim et ligula sit amet, scelerisque efficitur sapien. Fusce vel imperdiet lacus. Aenean ultricies nunc odio, a tempor arcu pharetra at. Vestibulum ante ipsum primis in faucibus orci luctus et ultrices posuere cubilia curae;Vivamus ornare sagittis mattis. Aenean at nulla purus. In nisi sem, egestas a mauris quis, tempus posuere lectus. Proin a metus condimentum, commodo nisi a, maximus quam. Duis sed venenatis urna, id placerat nibh. Orci varius natoque penatibus et magnis dis parturient montes, nascetur ridiculus mus. Aenean fringilla fermentum pulvinar. Praesent nisl urna, ultricies et ornare quis, varius non purus. Cras fermentum pulvinar eleifend. Vivamus vel est ante. Fusce malesuada iaculis libero vitae vulputate. Integer laoreet ut nisi quis tempor. Aenean nunc massa, porta at venenatis sed, cursus id ante. In vestibulum velit non elit dictum, eget pharetra lectus laoreet. Phasellus sed vulputate massa.Quisque hendrerit congue justo quis porttitor. Sed eget augue aliquam, imperdiet mauris non, ultricies sapien. Donec eget leo vel est aliquam elementum. Integer id suscipit lorem. In libero urna, porta eget massa eu, porta tincidunt felis. Vestibulum ut facilisis urna. Quisque pretium molestie imperdiet. Vivamus auctor, ante at tristique blandit, nulla dui convallis risus, suscipit scelerisque dolor quam vel elit. Integer lobortis tortor nisi, at facilisis risus suscipit at. Donec ut nisl ut ante ultricies tincidunt et sit amet tortor. Aenean quis pulvinar lacus. Mauris ut consequat nulla. Quisque id tortor quis purus fringilla dignissim. Integer eget ex vitae mauris vehicula vestibulum. Nullam et lectus eros.Ut ut erat fermentum, pellentesque nisl a, fringilla nulla. Quisque rutrum, turpis sed ullamcorper ultrices, erat felis convallis libero, at consequat neque metus eu velit. Maecenas interdum, libero pulvinar porta vehicula, dui mauris lobortis risus, laoreet commodo ex ante a leo. Quisque vitae auctor mauris. Praesent non neque fringilla, vehicula odio ac, consequat velit. Nam euismod libero vel odio luctus pretium. Nullam porttitor, arcu a finibus aliquam, est lectus maximus erat, ac pellentesque felis erat eget enim. Phasellus sed dui sit amet magna aliquet pulvinar. Aliquam eu sem eu erat gravida interdum. Cras sem nibh, molestie non pulvinar sed, mollis vitae tortor. Ut eu lorem vitae diam efficitur sagittis. Ut euismod orci leo, vel eleifend urna ornare sit amet. Fusce non pharetra odio. Nam aliquet, lacus eget gravida volutpat, ligula nibh scelerisque dui, ut blandit arcu tellus ac risus.Aliquam at placerat massa. Maecenas libero dui, bibendum sed augue sit amet, iaculis varius dui. Etiam auctor elementum faucibus. Ut dui eros, tempor ut urna ac, hendrerit rhoncus metus. Curabitur nec erat interdum, venenatis lacus pellentesque, pellentesque purus. In blandit vulputate metus, sed accumsan leo auctor vel. Curabitur non tellus condimentum, pharetra orci et, maximus diam. Suspendisse potenti. Morbi a vehicula sem.Quisque ut mattis ante, eget rhoncus felis. Mauris nec nisl at sapien consectetur efficitur. Quisque at tempus erat. Fusce tristique vestibulum libero, rhoncus sodales ex luctus at. Vivamus nec porta eros, vel molestie ante. Cras vehicula eget tortor eget maximus. Phasellus in facilisis metus, vitae lacinia dolor. Praesent arcu lacus, varius vitae eros a, venenatis molestie metus. Nullam vel sapien ac ipsum congue semper id sed massa. Aenean eu tincidunt ligula, nec tempor risus. Morbi vel pellentesque neque. Sed sit amet nisi imperdiet ligula fringilla dapibus. Vestibulum ante ipsum primis in faucibus orci luctus et ultrices posuere cubilia curae; Aenean non volutpat libero. Quisque accumsan sodales libero et tincidunt.Maecenas vel ipsum gravida, dapibus elit hendrerit, facilisis quam. Aliquam dapibus porta felis a suscipit. Quisque volutpat quis justo interdum semper. Nulla et mollis ante. Fusce nec fringilla lacus, a vestibulum leo. Nam id quam eleifend, vehicula orci sed, volutpat dui. Vivamus porta nisi quam, at aliquam est faucibus sit amet. Aliquam augue lacus, consectetur at commodo sed, venenatis eget nisl. Suspendisse porttitor augue quis eleifend egestas. Ut rutrum diam felis, eget lobortis urna bibendum vel. Nam orci ex, commodo nec elementum a, ornare ut lectus. Donec et aliquam elit, quis varius nulla. Duis ut ullamcorper metus. Aenean nec mi quis lacus dictum mattis eget vel enim. Curabitur turpis risus, tempus et maximus a, condimentum nec metus.Etiam massa ligula, blandit et consequat ac, euismod sit amet tellus. Proin ut fringilla libero. Nunc quis justo id ex cursus ultricies. Proin finibus id quam ac sodales. Donec augue enim, finibus non feugiat a, vehicula convallis odio. Duis sollicitudin porta ornare. Pellentesque habitant morbi tristique senectus et netus et malesuada fames ac turpis egestas. Nunc venenatis arcu et lorem tempor pharetra. Nulla interdum quam eget est aliquet sollicitudin. Vestibulum ac tellus quis nisi maximus feugiat. Vestibulum semper mollis dolor. Pellentesque a tellus in nulla egestas iaculis. Phasellus at mauris quis neque porttitor interdum.In tincidunt mi sagittis blandit luctus. Nam tempus, nunc at commodo faucibus, risus tortor vehicula quam, vitae blandit erat mi at est. Integer in lacinia justo, id sodales nisi. Mauris vulputate laoreet consequat. Suspendisse ullamcorper a augue ac ornare. Donec eu tincidunt nibh. Class aptent taciti sociosqu ad litora torquent per conubia nostra, per inceptos himenaeos. Donec eu nunc vel nibh blandit tristique. Suspendisse a mollis massa. Nunc vel scelerisque nulla, ac bibendum orci. Aenean molestie, velit at congue mattis, neque nibh sodales est, eu vestibulum neque nunc eget sem. Aliquam auctor ligula lorem, non malesuada dolor laoreet et. Donec id ex vitae dolor bibendum placerat. Phasellus non quam aliquet, consequat metus vitae, blandit nunc. Integer vitae metus dapibus, viverra elit vitae, volutpat purus. Maecenas consectetur dui eget nibh ultricies cursus.Sed vel dui sit amet tortor lacinia dapibus. Sed ut blandit quam. Praesent molestie sagittis lacinia. Phasellus eget dolor eget ipsum elementum suscipit. Nunc bibendum ante ac odio lobortis, non scelerisque diam pretium. Vivamus id risus leo. Sed non nisl euismod, tempus dolor quis, aliquet orci. Fusce ut purus consequat, malesuada risus vitae, ullamcorper magna.Sed a aliquet urna. Phasellus varius, purus vitae ultrices ullamcorper, mi odio tristique elit, et tempor tortor orci vel purus. Suspendisse tristique, erat ac eleifend ultrices, orci tellus imperdiet felis, et iaculis magna odio faucibus nunc. Quisque posuere rhoncus mauris. In hac habitasse platea dictumst. Interdum et malesuada fames ac ante ipsum primis in faucibus. Quisque vestibulum finibus velit ornare tristique. Phasellus vel placerat diam. Vestibulum tempor justo nec est ornare faucibus nec id magna. Nunc eleifend, nisl ac finibus volutpat, nisi metus pulvinar neque, quis feugiat urna odio ut diam. Sed sed sem ullamcorper, porttitor risus eu, scelerisque nisi. Integer semper enim ut cursus ornare. Suspendisse hendrerit turpis at augue mollis, nec sodales augue auctor. Sed porttitor nisl eu mauris fermentum convallis. Donec felis dui, condimentum eget faucibus ac, volutpat vel metus. Praesent mattis dolor lectus, nec aliquet ex finibus vel.Etiam nec porta felis. In nec felis bibendum, accumsan mauris in, iaculis nulla. Suspendisse sagittis condimentum erat eu ornare. Nullam ullamcorper leo velit, ac faucibus arcu mollis eget. Maecenas porta euismod ante et condimentum. Curabitur mollis felis non massa dignissim, fringilla commodo sem vestibulum. Quisque ornare ut tortor laoreet rutrum.Nam vitae ipsum eget libero mollis sagittis. Mauris tempus placerat nunc, a scelerisque sapien ullamcorper vestibulum. Etiam vehicula orci massa, sit amet congue tellus euismod iaculis. Integer viverra nibh vel bibendum aliquam. Nullam fringilla felis neque, a consectetur turpis commodo vitae. Suspendisse potenti. Curabitur sit amet risus ut turpis interdum pretium. Morbi efficitur, dolor at mollis lacinia, sapien massa pharetra purus, dictum vestibulum quam velit non lectus. Aliquam efficitur mi a feugiat egestas. Nulla facilisi. Maecenas commodo enim quis velit placerat pulvinar. Maecenas ac tortor at mauris tincidunt gravida. Nunc gravida velit vel eros malesuada fringilla. Pellentesque tincidunt semper porttitor. Praesent blandit ipsum nunc, quis aliquam dolor feugiat vitae.Curabitur vel massa a sem tempus molestie. Maecenas ut ligula metus. Quisque sodales aliquam elit non efficitur. Donec et nibh ultricies, placerat lorem quis, elementum ante. Sed laoreet viverra erat, sed vulputate libero fermentum ut. Ut eget aliquet lorem. Vestibulum pharetra dolor lacinia, semper enim vel, malesuada eros.Vestibulum accumsan risus lectus, non varius tellus efficitur in. Etiam volutpat consectetur diam, dictum blandit purus blandit at. Sed luctus, ex id pellentesque laoreet, ante lacus molestie diam, id mattis enim risus eget lacus. Sed suscipit interdum sapien sit amet sollicitudin. Praesent elementum urna odio, vel pharetra tortor suscipit a. Etiam pulvinar nec risus nec placerat. Nam vitae nulla in risus pretium rhoncus a vel justo. Integer feugiat porttitor lacinia. Suspendisse laoreet sit amet quam nec rutrum. Proin sodales varius aliquam. Suspendisse nec tristique neque.Aliquam elementum non orci venenatis laoreet. Quisque efficitur ac est ut commodo. Aliquam sed turpis aliquam nisi mollis dapibus laoreet nec odio nec. ".

(** [Math.abs(x)] *)
Definition Math_abs (x : number) : number :=
  match x with
  | Finite q => Finite (if Qle_bool 0 q then q else (- q)%Q)
  | NaN => NaN
  | PosInfinity | NegInfinity => PosInfinity
  end.

(** [(m / base - 1) * 100] *)
Definition percentSlower (m base : Q) : number :=
  Number_mul (Number_sub (Number_div (Finite m) (Finite base)) (Finite 1))
             (Finite 100).

(** What the summary at the end of [run] prints (lines 277-293): the four
    medians, the difference and the overhead of each scheme against the
    unencrypted median, and which symmetric scheme has the lower median. *)
Record Report : Type := {
  unencryptedMedian : Q;
  aesMedian : Q;
  chachaMedian : Q;
  rsaMedian : Q;
  aesDelta : number;
  chachaDelta : number;
  rsaDelta : number;
  aesOverhead : number;
  chachaOverhead : number;
  rsaOverhead : number;
  faster : string;
  diff : number
}.

(** [summary.median.toFixed(3)] needs a median. *)
Definition medianOf (s : Summary) : outcome Q :=
  match median s with
  | Some m => Return m
  | None => Throw (TypeError "toFixed")
  end.

Definition printSummary (unencrypted aes chacha rsa : Summary) : outcome Report :=
  u <- medianOf unencrypted ;;
  a <- medianOf aes ;;
  c <- medianOf chacha ;;
  r <- medianOf rsa ;;
  Return {| unencryptedMedian := u;
            aesMedian := a;
            chachaMedian := c;
            rsaMedian := r;
            aesDelta := Number_sub (Finite a) (Finite u);
            chachaDelta := Number_sub (Finite c) (Finite u);
            rsaDelta := Number_sub (Finite r) (Finite u);
            aesOverhead := percentSlower a u;
            chachaOverhead := percentSlower c u;
            rsaOverhead := percentSlower r u;
            faster := if negb (Qle_bool c a) then "AES-256-GCM"
                      else "ChaCha20-Poly1305";
            diff := Math_abs (Number_sub (Finite a) (Finite c)) |}.

(** How [run] ends: with its summary printed, or in its [catch]. *)
Inductive runResult : Type :=
| Reported (report : Report)
| Caught (error : exn).

Section Run.
Variable P : Platform.
(** [crypto.generateKeyPairSync('rsa', { modulusLength: 2048, ... })] *)
Variable generateKeyPairSync : rng P -> (pubkey P * privkey P) * rng P.
Context {symCodec : JsonCodec SymEnvelope} {rsaCodec : JsonCodec RsaEnvelope}.
Variable Peer : Type.
Variable network : request -> Peer -> exchange * Peer.

Notation "x <~ m ;; k" := (mbind P Peer m (fun x => k))
  (at level 61, m at next level, right associativity).

(** The [try] block of [run]: the keys, the four benchmarks with the
    default number of iterations, the summary. *)
Definition runBody : M P Peer Report :=
  aesKey <~ withEntropy P Peer
              (fun r => let (k, r') := randomBytes P 32 r in (Return k, r')) ;;
  chachaKey <~ withEntropy P Peer
                 (fun r => let (k, r') := randomBytes P 32 r in (Return k, r')) ;;
  keys <~ withEntropy P Peer
            (fun r => let (k, r') := generateKeyPairSync r in (Return k, r')) ;;
  unencrypted <~ benchmark P Peer network SymEnvelope unit
                   None None tt testString None ;;
  aes <~ benchmark P Peer network SymEnvelope Buffer
           (Some (encryptAES P)) (Some (decryptAES P)) aesKey testString None ;;
  chacha <~ benchmark P Peer network SymEnvelope Buffer
              (Some (encryptChaCha20 P)) (Some (decryptChaCha20 P))
              chachaKey testString None ;;
  rsa <~ benchmark P Peer network RsaEnvelope unit
           (Some (rsaEncrypt P (fst keys))) (Some (rsaDecrypt P (snd keys)))
           tt testString None ;;
  lift P Peer (printSummary unencrypted aes chacha rsa).

(** [run()]: whatever the [try] block throws is caught and logged. *)
Definition run (w : World P Peer) : runResult * World P Peer :=
  match runBody w with
  | (Return report, w') => (Reported report, w')
  | (Throw error, w') => (Caught error, w')
  end.

End Run.

(** The key pairs this generator makes are good RSA key pairs. *)
Definition KeyPairLaw (P : Platform)
  (generateKeyPairSync : rng P -> (pubkey P * privkey P) * rng P) : Prop :=
  forall r, RsaLaw P (fst (fst (generateKeyPairSync r)))
                     (snd (fst (generateKeyPairSync r))).

(** A length-prefixed text for the chunks of an asymmetric envelope. *)
Fixpoint toyParseChunks (fuel : nat) (s : jsstring) : list jsstring :=
  match fuel, s with
  | S fuel', len :: rest =>
      firstn (Z.to_nat len) rest :: toyParseChunks fuel' (skipn (Z.to_nat len) rest)
  | _, _ => []
  end.

Definition toyRsaCodec : JsonCodec RsaEnvelope := {|
  JSON_stringify := fun e =>
    Z.of_nat (chunkCount e)
      :: flat_map (fun c => Z.of_nat (length c) :: c) (encryptedChunks e);
  JSON_parse := fun s =>
    match s with
    | count :: rest =>
        Some {| encryptedChunks := toyParseChunks (length rest) rest;
                chunkCount := Z.to_nat count |}
    | [] => None
    end
|}.

Definition toyKeyPair (r : rng toyPlatform)
  : (pubkey toyPlatform * privkey toyPlatform) * rng toyPlatform :=
  ((tt, tt), S r).

(* ===================================================================== *)
(** * Properties *)

(** ** The model on concrete inputs *)

Example toHex_bytes :
  toHex [Byte.x00; Byte.xab; Byte.xff] = js "00abff".
Proof. reflexivity. Qed.

Example fromHex_stops_at_bad_pair :
  fromHex (js "ABzz12") = [Byte.xab] /\ fromHex (js "abc") = [Byte.xab].
Proof. split; reflexivity. Qed.

Example utf8Encode_by_length :
  utf8Encode [0x41] = [Byte.x41] /\
  utf8Encode [0xE9] = [Byte.xc3; Byte.xa9] /\
  utf8Encode [0x20AC] = [Byte.xe2; Byte.x82; Byte.xac] /\
  utf8Encode [0xD83D; 0xDE00] = [Byte.xf0; Byte.x9f; Byte.x98; Byte.x80].
Proof. repeat split; reflexivity. Qed.

Example utf8Decode_by_length :
  utf8Decode [Byte.xc3; Byte.xa9; Byte.xe2; Byte.x82; Byte.xac;
              Byte.xf0; Byte.x9f; Byte.x98; Byte.x80]
  = [0xE9; 0x20AC; 0xD83D; 0xDE00].
Proof. reflexivity. Qed.

(** An unpaired surrogate does not survive UTF-8. *)
Example unpaired_surrogate_replaced :
  utf8Encode [0xD800] = [Byte.xef; Byte.xbf; Byte.xbd] /\
  utf8Decode (utf8Encode [0xD800]) = [0xFFFD] /\
  wellFormed [0xD800] = false.
Proof. repeat split; reflexivity. Qed.

Example parseInt_inputs :
  parseInt (js "12") = Some 12 /\
  parseInt (js " 42abc") = Some 42 /\
  parseInt (js "-7") = Some (-7) /\
  parseInt (js "0x1f") = Some 31 /\
  parseInt (js "undefined") = None /\
  parseInt (js "") = None.
Proof. repeat split; reflexivity. Qed.

Example templateId_values :
  templateId (Some 0%nat) = js "0" /\
  templateId (Some 120%nat) = js "120" /\
  templateId None = js "undefined".
Proof. repeat split; reflexivity. Qed.

Example summarize_one_duration :
  exists a,
    summarize [7 # 2]%Q
    = Return {| avg := Finite a; median := Some (7 # 2);
                min := Finite (7 # 2); max := Finite (7 # 2) |}%Q /\
    (a == 7 # 2)%Q.
Proof. eexists. split; reflexivity. Qed.

(** Doubles: 1/10 is rounded to the double 0.1; 0.1 + 0.2 is
    0.30000000000000004; 2^53 + 1 is a tie and goes to the even 2^53, and
    2^53 + 3 to 2^53 + 4; the least double is 2^-1074, half of it is a tie
    and goes to 0; past the largest double is an infinity. *)
Example roundDouble_values :
  roundDouble (1 # 10) = Finite tenth /\
  Number_add (Finite tenth) (roundDouble (2 # 10))
    = Finite (1351079888211149 # 4503599627370496) /\
  Number_ofBigInt (2 ^ 53 + 1) = Finite (inject_Z (2 ^ 53)) /\
  Number_ofBigInt (2 ^ 53 + 3) = Finite (inject_Z (2 ^ 53 + 4)) /\
  roundDouble (1 # Pos.pow 2 1074) = Finite (1 # Pos.pow 2 1074) /\
  roundDouble (1 # Pos.pow 2 1075) = Finite 0 /\
  roundDouble (inject_Z (2 ^ 1024)) = PosInfinity /\
  roundDouble (inject_Z (- 2 ^ 1024)) = NegInfinity /\
  Number_div (Finite 1) (Finite 0) = PosInfinity /\
  Number_div (Finite 0) (Finite 0) = NaN.
Proof. repeat split; vm_compute; reflexivity. Qed.

(** A round trip of 250000 ns lasts 0.25 ms, one of 100000 ns the double
    0.1. *)
Example durationOf_values :
  durationOf 1000 251000 = (1 # 4)%Q /\ durationOf 0 100000 = tenth.
Proof. split; vm_compute; reflexivity. Qed.

(** ** Hexadecimal *)

Lemma hexVal_hexDigit n : 0 <= n < 16 -> hexVal (hexDigit n) = Some n.
Proof.
  intros H. unfold hexVal, hexDigit.
  destruct (n <? 10) eqn:E.
  - apply Z.ltb_lt in E.
    replace ((48 <=? 48 + n) && (48 + n <=? 57)) with true by (symmetry; apply andb_true_iff; split; apply Z.leb_le; lia).
    f_equal. lia.
  - apply Z.ltb_ge in E.
    replace ((48 <=? 87 + n) && (87 + n <=? 57)) with false by (symmetry; apply andb_false_iff; right; apply Z.leb_gt; lia).
    replace ((97 <=? 87 + n) && (87 + n <=? 102)) with true by (symmetry; apply andb_true_iff; split; apply Z.leb_le; lia).
    f_equal. lia.
Qed.

Lemma fromHex_toHex buf : fromHex (toHex buf) = buf.
Proof.
  induction buf as [|b buf IH]; [reflexivity|].
  cbn [toHex flat_map app fromHex].
  pose proof (byte.unsigned_range b) as R.
  rewrite !hexVal_hexDigit.
  - fold (toHex buf). rewrite IH. f_equal.
    rewrite <- Z.div_mod by lia. apply byte.of_Z_unsigned.
  - apply Z.mod_pos_bound. lia.
  - split; [apply Z.div_pos; lia | apply Z.div_lt_upper_bound; lia].
Qed.

(** ** UTF-8 *)

Lemma unsigned_of_Z_small v : 0 <= v < 256 -> byte.unsigned (byte.of_Z v) = v.
Proof.
  intros H. rewrite byte.unsigned_of_Z. unfold byte.wrap.
  apply Z.mod_small. exact H.
Qed.

Ltac bool_arith :=
  repeat (match goal with
          | |- context [?a =? ?b] =>
              let E := fresh "E" in destruct (Z.eqb_spec a b) as [E|E]
          | |- context [?a <? ?b] =>
              let E := fresh "E" in destruct (Z.ltb_spec a b) as [E|E]
          | |- context [?a <=? ?b] =>
              let E := fresh "E" in destruct (Z.leb_spec a b) as [E|E]
          end; try lia; cbn [andb orb negb]; cbv iota).

(** Decide the test of the conditional at the head of the left-hand side. *)
Ltac head_if :=
  repeat (match goal with
          | |- (if ?c then _ else _) = _ =>
              first [ replace c with true by (symmetry; bool_arith; reflexivity)
                    | replace c with false by (symmetry; bool_arith; reflexivity) ]
          end; cbv iota).

Lemma isScalar_spec c :
  isScalar c = true <-> (0 <= c < 0xD800 \/ 0xE000 <= c < 0x110000).
Proof.
  unfold isScalar. split.
  - bool_arith; intros; try discriminate; lia.
  - intros H. bool_arith; reflexivity.
Qed.

Lemma decode_cons b0 r0 :
  utf8DecodeCodePoints (b0 :: r0) =
  ltac:(let t := eval cbv beta iota delta [utf8DecodeCodePoints] in
          (utf8DecodeCodePoints (b0 :: r0)) in
        let t := eval fold utf8DecodeCodePoints in t in exact t).
Proof. reflexivity. Qed.

Ltac decode_step :=
  rewrite decode_cons; cbv beta iota zeta; unfold inRange, contBits;
  rewrite ?unsigned_of_Z_small by lia; head_if.

Lemma decode_encode_cp c rest :
  isScalar c = true ->
  utf8DecodeCodePoints (utf8EncodeCodePoint c ++ rest)
  = c :: utf8DecodeCodePoints rest.
Proof.
  intros H. apply isScalar_spec in H.
  unfold utf8EncodeCodePoint.
  destruct (Z.ltb_spec c 0x80) as [E1|E1];
    [|destruct (Z.ltb_spec c 0x800) as [E2|E2];
      [|destruct (Z.ltb_spec c 0x10000) as [E3|E3]]]; cbn [app].
  - decode_step. reflexivity.
  - pose proof (Z.div_mod c 64 ltac:(lia)) as D.
    pose proof (Z.mod_pos_bound c 64 ltac:(lia)) as B.
    set (q := c / 64) in *. set (m := c mod 64) in *.
    decode_step. f_equal. lia.
  - pose proof (Z.div_mod c 64 ltac:(lia)) as D.
    pose proof (Z.mod_pos_bound c 64 ltac:(lia)) as B.
    pose proof (Z.div_mod (c / 64) 64 ltac:(lia)) as D2.
    pose proof (Z.mod_pos_bound (c / 64) 64 ltac:(lia)) as B2.
    replace (c / 4096) with (c / 64 / 64) by (rewrite Z.div_div by lia; reflexivity).
    set (q := c / 64) in *. set (m := c mod 64) in *.
    set (q2 := q / 64) in *. set (m2 := q mod 64) in *.
    decode_step. f_equal. lia.
  - pose proof (Z.div_mod c 64 ltac:(lia)) as D.
    pose proof (Z.mod_pos_bound c 64 ltac:(lia)) as B.
    pose proof (Z.div_mod (c / 64) 64 ltac:(lia)) as D2.
    pose proof (Z.mod_pos_bound (c / 64) 64 ltac:(lia)) as B2.
    pose proof (Z.div_mod (c / 64 / 64) 64 ltac:(lia)) as D3.
    pose proof (Z.mod_pos_bound (c / 64 / 64) 64 ltac:(lia)) as B3.
    replace (c / 262144) with (c / 64 / 64 / 64) by (rewrite !Z.div_div by lia; reflexivity).
    replace (c / 4096) with (c / 64 / 64) by (rewrite Z.div_div by lia; reflexivity).
    set (q := c / 64) in *. set (m := c mod 64) in *.
    set (q2 := q / 64) in *. set (m2 := q mod 64) in *.
    set (q3 := q2 / 64) in *. set (m3 := q2 mod 64) in *.
    decode_step. f_equal. lia.
Qed.

Lemma code_unit_spec u : code_unit u = true <-> 0 <= u < 65536.
Proof. unfold code_unit. split; [bool_arith; intros; try discriminate; lia | intros; bool_arith; reflexivity]. Qed.

Lemma codePoints_scalar s :
  isString s ->
  Forall (fun c => isScalar c = true) (codePoints s).
Proof.
  remember (length s) as n eqn:Hn. revert s Hn.
  induction n as [n IH] using lt_wf_ind. intros s Hn Hs.
  destruct s as [|u rest]; [constructor|].
  inversion Hs as [|? ? Hu Hrest]; subst.
  apply code_unit_spec in Hu.
  cbn [codePoints]. unfold isHighSurrogate, isLowSurrogate, REPLACEMENT.
  destruct ((55296 <=? u) && (u <=? 56319)) eqn:Eh.
  - apply andb_true_iff in Eh. destruct Eh as [Eh1 Eh2].
    apply Z.leb_le in Eh1, Eh2.
    destruct rest as [|v rest'].
    + repeat constructor.
    + inversion Hrest as [|? ? Hv Hrest']; subst. apply code_unit_spec in Hv.
      destruct ((56320 <=? v) && (v <=? 57343)) eqn:El.
      * apply andb_true_iff in El. destruct El as [El1 El2].
        apply Z.leb_le in El1, El2.
        constructor.
        -- apply isScalar_spec. lia.
        -- eapply IH; [| reflexivity | assumption]. cbn [length]. lia.
      * constructor; [reflexivity|].
        eapply IH; [| reflexivity | assumption]. cbn [length]. lia.
  - destruct ((56320 <=? u) && (u <=? 57343)) eqn:El.
    + constructor; [reflexivity|].
      eapply IH; [| reflexivity | assumption]. cbn [length]. lia.
    + constructor.
      * apply isScalar_spec.
        apply andb_false_iff in Eh, El.
        rewrite !Z.leb_gt in Eh, El. lia.
      * eapply IH; [| reflexivity | assumption]. cbn [length]. lia.
Qed.

Lemma decode_encode_cps cs :
  Forall (fun c => isScalar c = true) cs ->
  utf8DecodeCodePoints (flat_map utf8EncodeCodePoint cs) = cs.
Proof.
  induction 1 as [|c cs Hc _ IH]; [reflexivity|].
  cbn [flat_map]. rewrite decode_encode_cp by assumption. now rewrite IH.
Qed.

Lemma utf8Decode_utf8Encode s :
  isString s ->
  utf8Decode (utf8Encode s) = toWellFormed s.
Proof.
  intros H. unfold utf8Decode, utf8Encode, toWellFormed.
  now rewrite decode_encode_cps by (apply codePoints_scalar; assumption).
Qed.

Lemma codePoints_units c s :
  isScalar c = true ->
  codePoints (utf16Units c ++ s) = c :: codePoints s.
Proof.
  intros H. apply isScalar_spec in H. unfold utf16Units.
  destruct (Z.ltb_spec c 0x10000) as [E|E].
  - cbn [app codePoints]. unfold isHighSurrogate, isLowSurrogate.
    bool_arith; destruct s; reflexivity.
  - pose proof (Z.div_mod (c - 0x10000) 0x400 ltac:(lia)) as D.
    pose proof (Z.mod_pos_bound (c - 0x10000) 0x400 ltac:(lia)) as B.
    assert (0 <= (c - 0x10000) / 0x400 < 0x400) as Q.
    { split; [apply Z.div_pos; lia | apply Z.div_lt_upper_bound; lia]. }
    set (q := (c - 0x10000) / 0x400) in *. set (m := (c - 0x10000) mod 0x400) in *.
    cbn [app codePoints]. unfold isHighSurrogate, isLowSurrogate.
    bool_arith. f_equal. lia.
Qed.

Lemma codePoints_toWellFormed s :
  isString s ->
  codePoints (toWellFormed s) = codePoints s.
Proof.
  intros H. apply codePoints_scalar in H. unfold toWellFormed.
  induction H as [|c cs Hc _ IH]; [reflexivity|].
  cbn [flat_map]. rewrite codePoints_units by assumption. now rewrite IH.
Qed.

Lemma wellFormed_units s :
  wellFormed s = true -> isString s.
Proof.
  remember (length s) as n eqn:Hn. revert s Hn.
  induction n as [n IH] using lt_wf_ind. intros s Hn Hs.
  destruct s as [|u rest]; [constructor|].
  cbn [wellFormed] in Hs. apply andb_true_iff in Hs. destruct Hs as [Hu Hs].
  constructor; [assumption|].
  destruct (isHighSurrogate u).
  - destruct rest as [|v rest']; [discriminate|].
    apply andb_true_iff in Hs. destruct Hs as [Hv Hs].
    constructor.
    + unfold isLowSurrogate in Hv. apply code_unit_spec.
      apply andb_true_iff in Hv. rewrite !Z.leb_le in Hv. lia.
    + eapply IH; [| reflexivity | assumption]. subst n. cbn [length]. lia.
  - apply andb_true_iff in Hs. destruct Hs as [_ Hs].
    eapply IH; [| reflexivity | assumption]. subst n. cbn [length]. lia.
Qed.

Lemma toWellFormed_wellFormed s :
  wellFormed s = true -> toWellFormed s = s.
Proof.
  remember (length s) as n eqn:Hn. revert s Hn.
  induction n as [n IH] using lt_wf_ind. intros s Hn Hs.
  destruct s as [|u rest]; [reflexivity|].
  cbn [wellFormed] in Hs. apply andb_true_iff in Hs. destruct Hs as [Hu Hs].
  apply code_unit_spec in Hu.
  unfold toWellFormed. cbn [codePoints].
  destruct (isHighSurrogate u) eqn:Eh.
  - destruct rest as [|v rest']; [discriminate|].
    apply andb_true_iff in Hs. destruct Hs as [Hv Hs]. rewrite Hv.
    cbn [flat_map]. fold (toWellFormed rest').
    rewrite (IH (length rest')) by (subst n; cbn [length]; try lia; auto).
    unfold isHighSurrogate, isLowSurrogate in *.
    apply andb_true_iff in Eh, Hv. rewrite !Z.leb_le in Eh, Hv.
    unfold utf16Units.
    destruct (Z.ltb_spec (65536 + (u - 55296) * 1024 + (v - 56320)) 65536); [lia|].
    replace (65536 + (u - 55296) * 1024 + (v - 56320) - 65536)
      with ((v - 56320) + (u - 55296) * 1024) by lia.
    rewrite Z.div_add by lia. rewrite Z.mod_add by lia.
    rewrite Z.div_small by lia. rewrite Z.mod_small by lia.
    cbn [app]. f_equal; [lia | f_equal; lia].
  - apply andb_true_iff in Hs. destruct Hs as [Hl Hs].
    apply negb_true_iff in Hl. rewrite Hl.
    cbn [flat_map]. fold (toWellFormed rest).
    rewrite (IH (length rest)) by (subst n; cbn [length]; try lia; auto).
    unfold utf16Units. destruct (Z.ltb_spec u 65536); [reflexivity | lia].
Qed.
(** ** The asymmetric scheme: chunking *)

Section Rsa.
Variable P : Platform.
Variable publicKey : pubkey P.
Variable privateKey : privkey P.
Hypothesis rsa : RsaLaw P publicKey privateKey.

Lemma slice_length i j (buf : Buffer) : (length (slice i j buf) <= j - i)%nat.
Proof. unfold slice. rewrite length_firstn. lia. Qed.

Lemma decryptRSA_loop_app chunks more acc :
  decryptRSA_loop P privateKey (chunks ++ more) acc =
  bind (decryptRSA_loop P privateKey chunks acc)
       (fun acc' => decryptRSA_loop P privateKey more acc').
Proof.
  revert acc. induction chunks as [|c chunks IH]; intros acc; [reflexivity|].
  cbn [app decryptRSA_loop].
  destruct (privateDecrypt P privateKey (fromHex c)); [|reflexivity].
  cbn [of_option bind]. apply IH.
Qed.

Lemma chunkTotal_step n :
  (0 < n)%nat -> chunkTotal n = S (chunkTotal (n - chunkCapacity)).
Proof.
  unfold chunkTotal, chunkCapacity, maxChunkSize. intros Hn.
  change (190 - 1)%nat with 189%nat.
  destruct (le_lt_dec 190 n) as [Hbig|Hsmall].
  - replace (n + 189)%nat with ((n - 190 + 189) + 1 * 190)%nat by lia.
    rewrite Nat.div_add by lia. lia.
  - replace (n - 190)%nat with 0%nat by lia.
    cbn [Nat.add]. rewrite (Nat.div_small 189 190) by lia.
    replace (n + 189)%nat with ((n - 1) + 1 * 190)%nat by lia.
    rewrite Nat.div_add by lia. rewrite Nat.div_small by lia. reflexivity.
Qed.

Lemma slicesFrom_end textBuffer i :
  (length textBuffer <= i)%nat -> slicesFrom textBuffer i = [].
Proof.
  intros H. unfold slicesFrom.
  replace (length textBuffer - i)%nat with 0%nat by lia. reflexivity.
Qed.

Lemma slicesFrom_step textBuffer i :
  (i < length textBuffer)%nat ->
  slicesFrom textBuffer i =
  slice i (i + chunkCapacity) textBuffer :: slicesFrom textBuffer (i + chunkCapacity).
Proof.
  intros H. unfold slicesFrom.
  rewrite (chunkTotal_step (length textBuffer - i)) by lia.
  cbn [seq map]. rewrite <- seq_shift, map_map.
  f_equal.
  - f_equal; lia.
  - replace (length textBuffer - i - chunkCapacity)%nat
      with (length textBuffer - (i + chunkCapacity))%nat by lia.
    apply map_ext. intros k. f_equal; lia.
Qed.

(** The chunks the loop pushes from index [i] on, decrypted one by one,
    are the slices of the buffer from [i] on, in order. *)
Lemma encryptRSA_loop_spec (textBuffer : Buffer) :
  forall n i, (length textBuffer - i <= n)%nat ->
  forall chunks r,
  exists pushed r',
    encryptRSA_loop P publicKey textBuffer i chunks r = (Return (chunks ++ pushed), r') /\
    length pushed = chunkTotal (length textBuffer - i) /\
    forall acc,
      decryptRSA_loop P privateKey pushed acc = Return (acc ++ slicesFrom textBuffer i).
Proof.
  induction n as [|n IH]; intros i Hn chunks r.
  - exists [], r. simp encryptRSA_loop.
    destruct (lt_dec i (length textBuffer)) as [Hlt|Hge]; [lia|].
    rewrite slicesFrom_end by lia. cbn.
    replace (length textBuffer - i)%nat with 0%nat by lia.
    repeat split; intros; now rewrite ?app_nil_r.
  - simp encryptRSA_loop.
    destruct (lt_dec i (length textBuffer)) as [Hlt|Hge]; cbn -[slicesFrom chunkTotal].
    + destruct (rsa (slice i (i + maxChunkSize) textBuffer) r) as (c & Hc & Hd).
      { etransitivity; [apply slice_length|]. unfold maxChunkSize. lia. }
      destruct (publicEncrypt P publicKey (slice i (i + maxChunkSize) textBuffer) r)
        as [o r1] eqn:E.
      cbn [fst] in Hc. subst o. cbn -[slicesFrom chunkTotal].
      destruct (IH (i + maxChunkSize)%nat ltac:(unfold maxChunkSize; lia)
                  (chunks ++ [toHex c]) r1) as (pushed & r' & Hloop & Hlen & Hdec).
      exists (toHex c :: pushed), r'.
      rewrite Hloop, <- app_assoc. cbn [app].
      repeat split.
      * cbn [length]. rewrite Hlen.
        rewrite (chunkTotal_step (length textBuffer - i)) by lia.
        do 2 f_equal. unfold chunkCapacity. lia.
      * intros acc. cbn [decryptRSA_loop]. rewrite fromHex_toHex, Hd.
        cbn [of_option bind]. rewrite Hdec, (slicesFrom_step textBuffer i) by lia.
        rewrite <- app_assoc. reflexivity.
    + exists [], r. rewrite app_nil_r, slicesFrom_end by lia.
      replace (length textBuffer - i)%nat with 0%nat by lia.
      repeat split; intros; now rewrite ?app_nil_r.
Qed.

Lemma concat_slicesFrom (textBuffer : Buffer) :
  forall n i, (length textBuffer - i <= n)%nat ->
  concat (slicesFrom textBuffer i) = skipn i textBuffer.
Proof.
  induction n as [|n IH]; intros i Hn.
  - rewrite slicesFrom_end by lia. symmetry. apply skipn_all2. lia.
  - destruct (le_lt_dec (length textBuffer) i) as [Hge|Hlt].
    + rewrite slicesFrom_end by lia. symmetry. apply skipn_all2. lia.
    + rewrite slicesFrom_step by assumption. cbn [concat].
      rewrite IH by (unfold chunkCapacity, maxChunkSize; lia).
      unfold slice.
      replace (i + chunkCapacity - i)%nat with chunkCapacity by lia.
      rewrite <- (firstn_skipn chunkCapacity (skipn i textBuffer)) at 2.
      f_equal. rewrite skipn_skipn. f_equal. lia.
Qed.

End Rsa.

Lemma plainChunks_slicesFrom textBuffer :
  plainChunks textBuffer = slicesFrom textBuffer 0.
Proof.
  unfold plainChunks, slicesFrom. now rewrite Nat.sub_0_r.
Qed.

Lemma utf8Encode_toWellFormed s :
  isString s -> utf8Encode (toWellFormed s) = utf8Encode s.
Proof.
  intros H. unfold utf8Encode. now rewrite codePoints_toWellFormed.
Qed.

(** ** The cipher wrappers *)

Section CipherProperties.
Variable P : Platform.

Lemma seal_open_round_trip (alg : algorithm) n text key r :
  RandomLaw P -> SealOpenLaw P ->
  n = nonceLength alg ->
  length key = keyLength ->
  exists ciphertext tag,
    seal P alg key (fst (randomBytes P n r)) (utf8Encode text)
      = Some (ciphertext, tag) /\
    open P alg key (fromHex (toHex (fst (randomBytes P n r))))
      (fromHex (toHex tag)) (fromHex (toHex ciphertext))
      = Some (utf8Encode text).
Proof.
  intros Hrand Hseal -> Hkey.
  destruct (Hseal alg key (fst (randomBytes P (nonceLength alg) r))
              (utf8Encode text) Hkey (Hrand _ _)) as (ct & tag & Hs & Ho).
  exists ct, tag. now rewrite !fromHex_toHex.
Qed.

Lemma encryptAES_decryptAES text key r :
  RandomLaw P -> SealOpenLaw P ->
  isString text -> length key = keyLength ->
  exists e r',
    encryptAES P text key r = (Return e, r') /\
    decryptAES P e key = Return (toWellFormed text).
Proof.
  intros Hrand Hseal Htext Hkey.
  destruct (seal_open_round_trip aes_256_gcm 16 text key r Hrand Hseal eq_refl Hkey)
    as (ct & tag & Hs & Ho).
  unfold encryptAES, decryptAES.
  destruct (randomBytes P 16 r) as [nonce r'] eqn:E. cbn [fst] in *.
  rewrite Hs. cbn [of_option bind fst snd].
  eexists _, r'. split; [reflexivity|]. cbn [iv authTag encrypted].
  rewrite Ho. cbn [of_option bind]. now rewrite utf8Decode_utf8Encode.
Qed.

Lemma encryptChaCha20_decryptChaCha20 text key r :
  RandomLaw P -> SealOpenLaw P ->
  isString text -> length key = keyLength ->
  exists e r',
    encryptChaCha20 P text key r = (Return e, r') /\
    decryptChaCha20 P e key = Return (toWellFormed text).
Proof.
  intros Hrand Hseal Htext Hkey.
  destruct (seal_open_round_trip chacha20_poly1305 12 text key r Hrand Hseal eq_refl Hkey)
    as (ct & tag & Hs & Ho).
  unfold encryptChaCha20, decryptChaCha20.
  destruct (randomBytes P 12 r) as [nonce r'] eqn:E. cbn [fst] in *.
  rewrite Hs. cbn [of_option bind fst snd].
  eexists _, r'. split; [reflexivity|]. cbn [iv authTag encrypted].
  rewrite Ho. cbn [of_option bind]. now rewrite utf8Decode_utf8Encode.
Qed.

Lemma encryptRSA_chunks publicKey privateKey text r :
  RsaLaw P publicKey privateKey ->
  exists e r',
    encryptRSA P text publicKey r = (Return e, r') /\
    length (encryptedChunks e) = chunkTotal (length (utf8Encode text)) /\
    chunkCount e = length (encryptedChunks e) /\
    decryptRSA_loop P privateKey (encryptedChunks e) []
      = Return (plainChunks (utf8Encode text)).
Proof.
  intros Hrsa.
  destruct (encryptRSA_loop_spec P publicKey privateKey Hrsa (utf8Encode text)
              (length (utf8Encode text)) 0%nat ltac:(lia) [] r)
    as (pushed & r' & Hloop & Hlen & Hdec).
  unfold encryptRSA. rewrite Hloop. cbn [app bind].
  eexists _, r'. split; [reflexivity|]. cbn [encryptedChunks chunkCount].
  rewrite Nat.sub_0_r in Hlen.
  repeat split; [assumption|].
  rewrite Hdec, plainChunks_slicesFrom. reflexivity.
Qed.

Lemma concat_plainChunks textBuffer :
  concat (plainChunks textBuffer) = textBuffer.
Proof.
  rewrite plainChunks_slicesFrom.
  now rewrite (concat_slicesFrom textBuffer (length textBuffer) 0%nat) by lia.
Qed.

Lemma encryptRSA_decryptRSA publicKey privateKey text r :
  RsaLaw P publicKey privateKey ->
  isString text ->
  exists e r',
    encryptRSA P text publicKey r = (Return e, r') /\
    decryptRSA P e privateKey = Return (toWellFormed text).
Proof.
  intros Hrsa Htext.
  destruct (encryptRSA_chunks publicKey privateKey text r Hrsa)
    as (e & r' & He & _ & _ & Hdec).
  exists e, r'. split; [assumption|].
  unfold decryptRSA. rewrite Hdec. cbn [bind].
  now rewrite concat_plainChunks, utf8Decode_utf8Encode.
Qed.

End CipherProperties.

(** ** The small platform meets the laws *)

Lemma toy_random : RandomLaw toyPlatform.
Proof. intros n r. cbn. apply repeat_length. Qed.

Lemma Buffer_eqb_refl a : Buffer_eqb a a = true.
Proof. unfold Buffer_eqb. destruct (list_eq_dec Byte.byte_eq_dec a a); congruence. Qed.

Lemma toy_seal_open : SealOpenLaw toyPlatform.
Proof.
  intros alg key nonce plaintext Hkey _.
  exists (rev plaintext), (key ++ nonce ++ rev plaintext). cbn.
  unfold toySeal, toyOpen. rewrite Hkey, Nat.eqb_refl, Buffer_eqb_refl.
  now rewrite rev_involutive.
Qed.

Lemma toy_rsa : RsaLaw toyPlatform tt tt.
Proof.
  intros message r Hlen. exists (rev message). cbn.
  apply Nat.leb_le in Hlen. rewrite Hlen. now rewrite rev_involutive.
Qed.

Lemma toy_json : @JsonLaw SymEnvelope toyCodec.
Proof.
  intros [enc nonce tag]. split; [|discriminate]. cbn.
  rewrite !Nat2Z.id.
  rewrite firstn_app, Nat.sub_diag, firstn_all. cbn [firstn]. rewrite app_nil_r.
  rewrite skipn_app, Nat.sub_diag, skipn_all. cbn [skipn app].
  rewrite firstn_app, Nat.sub_diag, firstn_all. cbn [firstn]. rewrite app_nil_r.
  rewrite skipn_app, Nat.sub_diag, skipn_all. reflexivity.
Qed.

Lemma isString_js s : isString (js s).
Proof.
  unfold isString, js. apply Forall_forall. intros u Hu.
  apply in_map_iff in Hu. destruct Hu as (a & <- & _).
  apply code_unit_spec. pose proof (N_ascii_bounded a). lia.
Qed.

(** ** Claims about the cipher strategies *)

Lemma chunkTotal_ceiling L :
  (L <= chunkTotal L * chunkCapacity)%nat /\
  (chunkTotal L * chunkCapacity < L + chunkCapacity)%nat.
Proof.
  unfold chunkTotal, chunkCapacity, maxChunkSize.
  change (190 - 1)%nat with 189%nat.
  pose proof (Nat.div_mod_eq (L + 189) 190) as D.
  pose proof (Nat.mod_upper_bound (L + 189) 190 ltac:(lia)) as B.
  lia.
Qed.

(** C1: for each of the three schemes, with a 32-byte key (a key pair for
    RSA), encrypting a text and decrypting the envelope succeeds and gives
    back the plaintext: the decrypted text has exactly the UTF-8 bytes of
    the original, and is the original string itself whenever that string is
    well-formed UTF-16.  This holds for every length, the empty text and
    texts of several chunks included. *)
Theorem cipher_round_trip (P : Platform) (publicKey : pubkey P)
  (privateKey : privkey P) (text : jsstring) (key : Buffer) (r : rng P) :
  RandomLaw P -> SealOpenLaw P -> RsaLaw P publicKey privateKey ->
  isString text -> length key = keyLength ->
  (exists e r' d,
     encryptAES P text key r = (Return e, r') /\
     decryptAES P e key = Return d /\
     utf8Encode d = utf8Encode text /\
     (wellFormed text = true -> d = text)) /\
  (exists e r' d,
     encryptChaCha20 P text key r = (Return e, r') /\
     decryptChaCha20 P e key = Return d /\
     utf8Encode d = utf8Encode text /\
     (wellFormed text = true -> d = text)) /\
  (exists e r' d,
     encryptRSA P text publicKey r = (Return e, r') /\
     decryptRSA P e privateKey = Return d /\
     utf8Encode d = utf8Encode text /\
     (wellFormed text = true -> d = text)).
Proof.
  intros Hrand Hseal Hrsa Htext Hkey.
  pose proof (utf8Encode_toWellFormed text Htext) as Hbytes.
  pose proof (toWellFormed_wellFormed text) as Hexact.
  repeat split.
  - destruct (encryptAES_decryptAES P text key r Hrand Hseal Htext Hkey)
      as (e & r' & He & Hd).
    exists e, r', (toWellFormed text). auto.
  - destruct (encryptChaCha20_decryptChaCha20 P text key r Hrand Hseal Htext Hkey)
      as (e & r' & He & Hd).
    exists e, r', (toWellFormed text). auto.
  - destruct (encryptRSA_decryptRSA P publicKey privateKey text r Hrsa Htext)
      as (e & r' & He & Hd).
    exists e, r', (toWellFormed text). auto.
Qed.

Lemma cipher_round_trip_witness :
  exists e r' d,
    encryptAES toyPlatform (js "Lorem ipsum") toyKey 0%nat = (Return e, r') /\
    decryptAES toyPlatform e toyKey = Return d /\
    utf8Encode d = utf8Encode (js "Lorem ipsum") /\
    (wellFormed (js "Lorem ipsum") = true -> d = js "Lorem ipsum").
Proof.
  exact (proj1 (cipher_round_trip toyPlatform tt tt (js "Lorem ipsum") toyKey 0%nat
                  toy_random toy_seal_open toy_rsa (isString_js _) eq_refl)).
Defined.

(** X21: what the symmetric decryptions do with an envelope that was made
    by the matching encryption and then had one byte of its ciphertext, or
    of its authentication tag, replaced: they hand the cipher the key, the
    nonce of the encryption, and the ciphertext and the tag with exactly
    that byte replaced; they throw when the cipher rejects these, and
    otherwise return the text of the bytes the cipher returns.  Whether a
    replaced byte is rejected is the cipher's verdict alone. *)
Theorem tampered_envelope_verdict (P : Platform) (text : jsstring) (key : Buffer)
  (r r' : rng P) (e : SymEnvelope) (i : nat) (b : byte) :
  (encryptAES P text key r = (Return e, r') ->
   exists ciphertext tag,
     seal P aes_256_gcm key (fst (randomBytes P 16 r)) (utf8Encode text)
       = Some (ciphertext, tag) /\
     decryptAES P (setCiphertextByte i b e) key
       = (decrypted <- of_option "decipher"
            (open P aes_256_gcm key (fst (randomBytes P 16 r)) tag
               (setByte i b ciphertext)) ;;
          Return (utf8Decode decrypted)) /\
     decryptAES P (setTagByte i b e) key
       = (decrypted <- of_option "decipher"
            (open P aes_256_gcm key (fst (randomBytes P 16 r)) (setByte i b tag)
               ciphertext) ;;
          Return (utf8Decode decrypted))) /\
  (encryptChaCha20 P text key r = (Return e, r') ->
   exists ciphertext tag,
     seal P chacha20_poly1305 key (fst (randomBytes P 12 r)) (utf8Encode text)
       = Some (ciphertext, tag) /\
     decryptChaCha20 P (setCiphertextByte i b e) key
       = (decrypted <- of_option "decipher"
            (open P chacha20_poly1305 key (fst (randomBytes P 12 r)) tag
               (setByte i b ciphertext)) ;;
          Return (utf8Decode decrypted)) /\
     decryptChaCha20 P (setTagByte i b e) key
       = (decrypted <- of_option "decipher"
            (open P chacha20_poly1305 key (fst (randomBytes P 12 r))
               (setByte i b tag) ciphertext) ;;
          Return (utf8Decode decrypted))).
Proof.
  split.
  - unfold encryptAES. destruct (randomBytes P 16 r) as [nonce r1].
    destruct (seal P aes_256_gcm key nonce (utf8Encode text)) as [[ct tag]|] eqn:Hs;
      cbn [of_option bind fst snd]; [|discriminate].
    intros H. injection H as <- _. exists ct, tag.
    unfold decryptAES, setCiphertextByte, setTagByte.
    cbn [encrypted iv authTag fst]. rewrite !fromHex_toHex.
    split; [exact Hs|]. split; reflexivity.
  - unfold encryptChaCha20. destruct (randomBytes P 12 r) as [nonce r1].
    destruct (seal P chacha20_poly1305 key nonce (utf8Encode text)) as [[ct tag]|] eqn:Hs;
      cbn [of_option bind fst snd]; [|discriminate].
    intros H. injection H as <- _. exists ct, tag.
    unfold decryptChaCha20, setCiphertextByte, setTagByte.
    cbn [encrypted iv authTag fst]. rewrite !fromHex_toHex.
    split; [exact Hs|]. split; reflexivity.
Qed.

Lemma tampered_envelope_verdict_witness :
  encryptAES toyPlatform (js "Lorem ipsum") toyKey 0%nat = (Return toyEnvelope, 1%nat) /\
  exists ciphertext tag,
    decryptAES toyPlatform (setCiphertextByte 0 Byte.x00 toyEnvelope) toyKey
    = (decrypted <- of_option "decipher"
         (open toyPlatform aes_256_gcm toyKey (repeat Byte.x00 16) tag
            (setByte 0 Byte.x00 ciphertext)) ;;
       Return (utf8Decode decrypted)).
Proof.
  split; [reflexivity|].
  destruct (proj1 (tampered_envelope_verdict toyPlatform (js "Lorem ipsum") toyKey
                     0%nat 1%nat toyEnvelope 0 Byte.x00) eq_refl)
    as (ciphertext & tag & _ & H & _).
  exists ciphertext, tag. exact H.
Defined.

(** ** Numbers *)

Section Rounding.
#[local] Abbreviation prec := 53.
#[local] Abbreviation emax := 1024.

Lemma iter_pos_invariant {A : Type} (f : A -> A) (I : A -> Prop) :
  (forall x, I x -> I (f x)) ->
  forall p x, I x -> I (SpecFloat.iter_pos f p x).
Proof.
  intros Hf. induction p as [p IH|p IH|]; intros x Hx; cbn [SpecFloat.iter_pos].
  - apply IH, IH, Hf, Hx.
  - apply IH, IH, Hx.
  - apply Hf, Hx.
Qed.

Lemma shr_1_not_negative mrs :
  0 <= SpecFloat.shr_m mrs -> 0 <= SpecFloat.shr_m (SpecFloat.shr_1 mrs).
Proof.
  destruct mrs as [m r s]. cbn [SpecFloat.shr_m].
  destruct m as [|[p|p|]|p]; cbn; lia.
Qed.

Lemma shr_fexp_not_negative m e l :
  0 <= m -> 0 <= SpecFloat.shr_m (fst (SpecFloat.shr_fexp prec emax m e l)).
Proof.
  intros Hm. unfold SpecFloat.shr_fexp, SpecFloat.shr.
  assert (0 <= SpecFloat.shr_m (SpecFloat.shr_record_of_loc m l)) as H0
    by (destruct l as [|[]]; exact Hm).
  destruct (_ - e) as [|p|p]; cbn [fst]; try exact H0.
  apply (iter_pos_invariant _ (fun mrs => 0 <= SpecFloat.shr_m mrs));
    [apply shr_1_not_negative | exact H0].
Qed.

Lemma round_nearest_even_not_negative m l :
  0 <= m -> 0 <= SpecFloat.round_nearest_even m l.
Proof.
  intros Hm. unfold SpecFloat.round_nearest_even.
  destruct l as [|[]]; try destruct (Z.even m); lia.
Qed.

(** Rounding keeps the sign it is given and never yields NaN. *)
Lemma binary_round_aux_sign s m e l :
  0 <= m ->
  match SpecFloat.binary_round_aux prec emax s m e l with
  | SpecFloat.S754_zero s' | SpecFloat.S754_infinity s'
  | SpecFloat.S754_finite s' _ _ => s' = s
  | SpecFloat.S754_nan => False
  end.
Proof.
  intros Hm. unfold SpecFloat.binary_round_aux.
  pose proof (shr_fexp_not_negative m e l Hm) as H1.
  destruct (SpecFloat.shr_fexp prec emax m e l) as [mrs' e'].
  cbn [fst] in H1.
  pose proof (shr_fexp_not_negative _ e' SpecFloat.loc_Exact
                (round_nearest_even_not_negative _
                   (SpecFloat.loc_of_shr_record mrs') H1)) as H2.
  destruct (SpecFloat.shr_fexp prec emax _ e' SpecFloat.loc_Exact) as [mrs'' e''].
  cbn [fst] in H2.
  destruct (SpecFloat.shr_m mrs'') as [|p|p]; [reflexivity| |lia].
  destruct (e'' <=? emax - prec); reflexivity.
Qed.

Lemma div_core_not_negative n d :
  0 <= fst (fst (SpecFloat.SFdiv_core_binary prec emax (Zpos n) 0 (Zpos d) 0)).
Proof.
  unfold SpecFloat.SFdiv_core_binary.
  set (s := 0 - 0 - _).
  set (m' := match s with Zpos _ => Z.shiftl (Zpos n) s | Z0 => Zpos n | Zneg _ => 0 end).
  assert (0 <= m') as Hm'.
  { subst m'. destruct s; try lia. apply Z.shiftl_nonneg. lia. }
  pose proof (Z.div_pos m' (Zpos d) Hm' ltac:(lia)) as Hq.
  unfold Z.div in Hq.
  destruct (Z.div_eucl m' (Zpos d)) as [q r]. exact Hq.
Qed.

End Rounding.

Lemma Qred_not_negative q : (0 <= q)%Q -> (0 <= Qred q)%Q.
Proof. intros H. now rewrite Qred_correct. Qed.

Lemma ofDouble_positive m e :
  notNegative (ofDouble (SpecFloat.S754_finite false m e)).
Proof.
  cbn [ofDouble notNegative]. apply Qred_not_negative.
  assert (0 <= inject_Z (Zpos m * 2 ^ e))%Q as Hz.
  { change 0%Q with (inject_Z 0). rewrite <- Zle_Qle.
    apply Z.mul_nonneg_nonneg; [lia | apply Z.pow_nonneg; lia]. }
  destruct e as [|p|p]; try exact Hz. unfold Qle. cbn. lia.
Qed.

Lemma roundMagnitude_not_negative n d : notNegative (roundMagnitude false n d).
Proof.
  unfold roundMagnitude.
  pose proof (div_core_not_negative n d) as Hq.
  destruct (SpecFloat.SFdiv_core_binary 53 1024 (Zpos n) 0 (Zpos d) 0) as [[m e] l].
  cbn [fst] in Hq.
  pose proof (binary_round_aux_sign false m e l Hq) as Hs.
  destruct (SpecFloat.binary_round_aux 53 1024 false m e l) as [s|s| |s m' e'];
    try contradiction; subst.
  - cbn. unfold Qle. cbn. lia.
  - exact I.
  - apply ofDouble_positive.
Qed.

Lemma roundMagnitude_not_NaN negative n d : roundMagnitude negative n d <> NaN.
Proof.
  unfold roundMagnitude.
  pose proof (div_core_not_negative n d) as Hq.
  destruct (SpecFloat.SFdiv_core_binary 53 1024 (Zpos n) 0 (Zpos d) 0) as [[m e] l].
  cbn [fst] in Hq.
  pose proof (binary_round_aux_sign negative m e l Hq) as Hs.
  destruct (SpecFloat.binary_round_aux 53 1024 negative m e l) as [s|[]| |s m' e'];
    try contradiction; discriminate.
Qed.

Lemma roundDouble_not_NaN q : roundDouble q <> NaN.
Proof.
  unfold roundDouble. destruct (Qnum (Qred q));
    [discriminate | apply roundMagnitude_not_NaN | apply roundMagnitude_not_NaN].
Qed.

Lemma roundDouble_not_negative q : (0 <= q)%Q -> notNegative (roundDouble q).
Proof.
  intros Hq. apply Qred_not_negative in Hq. unfold roundDouble.
  destruct (Qred q) as [n d]. cbn [Qnum Qden].
  destruct n as [|n|n].
  - cbn. unfold Qle. cbn. lia.
  - apply roundMagnitude_not_negative.
  - unfold Qle in Hq. cbn in Hq. lia.
Qed.

Lemma roundDouble_Qeq p q : (p == q)%Q -> roundDouble p = roundDouble q.
Proof. intros H. unfold roundDouble. now rewrite (Qred_complete p q H). Qed.

(** A clock that has not gone back gives a duration that is not negative. *)
Lemma durationOf_not_negative start finish :
  start <= finish -> (0 <= durationOf start finish)%Q.
Proof.
  intros Hle. unfold durationOf, Number_ofBigInt.
  assert (0 <= Qmake (finish - start) 1000000)%Q as Hexact
    by (unfold Qle; cbn; lia).
  assert (0 <= inject_Z (finish - start))%Q as Hdiff
    by (unfold Qle; cbn; lia).
  pose proof (roundDouble_not_negative _ Hdiff) as Hn.
  destruct (roundDouble (inject_Z (finish - start))) as [d| | |];
    cbn in Hn; try contradiction; [|exact Hexact].
  unfold Number_div. change (Qeq_bool 1000000 0) with false. cbv iota.
  assert (0 <= d / 1000000)%Q as Hq.
  { apply Qle_shift_div_l; [reflexivity|]. now rewrite Qmult_0_l. }
  pose proof (roundDouble_not_negative _ Hq) as Hr.
  destruct (roundDouble (d / 1000000)); cbn in Hr; try contradiction; assumption.
Qed.

(** ** Statistics *)

Lemma insert_perm x l : Permutation (x :: l) (insert x l).
Proof.
  induction l as [|y l IH]; cbn; [reflexivity|].
  destruct (Qle_bool y x); [|reflexivity].
  rewrite perm_swap. now constructor.
Qed.

Lemma sortAscending_perm times : Permutation times (sortAscending times).
Proof.
  induction times as [|x l IH]; cbn; [reflexivity|].
  rewrite <- insert_perm. now constructor.
Qed.

Lemma insert_HdRel a x l :
  (a <= x)%Q -> HdRel Qle a l -> HdRel Qle a (insert x l).
Proof.
  intros Hax H. destruct l as [|y l]; cbn; [now constructor|].
  destruct (Qle_bool y x); constructor; [now inversion H | assumption].
Qed.

Lemma insert_sorted x l : Sorted Qle l -> Sorted Qle (insert x l).
Proof.
  induction 1 as [|y l Hs IH Hd]; cbn; [repeat constructor|].
  destruct (Qle_bool y x) eqn:E.
  - apply Qle_bool_iff in E. constructor; [assumption|].
    now apply insert_HdRel.
  - assert (x <= y)%Q as Hxy.
    { apply Qlt_le_weak, Qnot_le_lt. intros H. apply Qle_bool_iff in H. congruence. }
    repeat constructor; assumption.
Qed.

Lemma sortAscending_sorted times : Sorted Qle (sortAscending times).
Proof.
  induction times as [|x l IH]; cbn; [constructor | now apply insert_sorted].
Qed.

Lemma sortAscending_length times : length (sortAscending times) = length times.
Proof. symmetry. apply Permutation_length, sortAscending_perm. Qed.

Lemma sorted_adjacent l i a b :
  Sorted Qle l ->
  nth_error l i = Some a -> nth_error l (S i) = Some b -> (a <= b)%Q.
Proof.
  intros Hs. revert i. induction Hs as [|x l Hs IH Hd]; intros i Ha Hb.
  - destruct i; discriminate.
  - destruct i as [|i]; cbn in Ha, Hb.
    + injection Ha as <-. destruct l as [|y l]; [discriminate|].
      cbn in Hb. injection Hb as <-. now inversion Hd.
    + eapply IH; eassumption.
Qed.

Lemma fold_numberMin l m0 :
  exists m, fold_left numberMin l (Finite m0) = Finite m /\
            (m = m0 \/ In m l) /\ (m <= m0)%Q /\ forall x, In x l -> (m <= x)%Q.
Proof.
  revert m0. induction l as [|y l IH]; intros m0; cbn [fold_left numberMin].
  - exists m0. repeat split; [now left | apply Qle_refl | intros x []].
  - destruct (Qle_bool m0 y) eqn:E.
    + apply Qle_bool_iff in E.
      destruct (IH m0) as (m & Hm & Hin & Hle & Hall).
      exists m. repeat split; try assumption.
      * destruct Hin; [now left | right; now right].
      * intros x [<-|Hx]; [eapply Qle_trans; eassumption | now apply Hall].
    + assert (y <= m0)%Q as Hy.
      { apply Qlt_le_weak, Qnot_le_lt. intros H. apply Qle_bool_iff in H. congruence. }
      destruct (IH y) as (m & Hm & Hin & Hle & Hall).
      exists m. repeat split; try assumption.
      * right. destruct Hin as [->|Hin]; [now left | now right].
      * eapply Qle_trans; eassumption.
      * intros x [<-|Hx]; [assumption | now apply Hall].
Qed.

Lemma fold_numberMax l m0 :
  exists m, fold_left numberMax l (Finite m0) = Finite m /\
            (m = m0 \/ In m l) /\ (m0 <= m)%Q /\ forall x, In x l -> (x <= m)%Q.
Proof.
  revert m0. induction l as [|y l IH]; intros m0; cbn [fold_left numberMax].
  - exists m0. repeat split; [now left | apply Qle_refl | intros x []].
  - destruct (Qle_bool y m0) eqn:E.
    + apply Qle_bool_iff in E.
      destruct (IH m0) as (m & Hm & Hin & Hle & Hall).
      exists m. repeat split; try assumption.
      * destruct Hin; [now left | right; now right].
      * intros x [<-|Hx]; [eapply Qle_trans; eassumption | now apply Hall].
    + assert (m0 <= y)%Q as Hy.
      { apply Qlt_le_weak, Qnot_le_lt. intros H. apply Qle_bool_iff in H. congruence. }
      destruct (IH y) as (m & Hm & Hin & Hle & Hall).
      exists m. repeat split; try assumption.
      * right. destruct Hin as [->|Hin]; [now left | now right].
      * eapply Qle_trans; eassumption.
      * intros x [<-|Hx]; [assumption | now apply Hall].
Qed.

Lemma Math_min_least times :
  times <> [] ->
  exists m, Math_min times = Finite m /\ In m times /\
            forall x, In x times -> (m <= x)%Q.
Proof.
  destruct times as [|y l]; [congruence|]. intros _.
  unfold Math_min. cbn [fold_left numberMin].
  destruct (fold_numberMin l y) as (m & Hm & Hin & Hle & Hall).
  exists m. repeat split; [assumption | |].
  - destruct Hin as [->|Hin]; [now left | now right].
  - intros x [<-|Hx]; [assumption | now apply Hall].
Qed.

Lemma Math_max_greatest times :
  times <> [] ->
  exists m, Math_max times = Finite m /\ In m times /\
            forall x, In x times -> (x <= m)%Q.
Proof.
  destruct times as [|y l]; [congruence|]. intros _.
  unfold Math_max. cbn [fold_left numberMax].
  destruct (fold_numberMax l y) as (m & Hm & Hin & Hle & Hall).
  exists m. repeat split; [assumption | |].
  - destruct Hin as [->|Hin]; [now left | now right].
  - intros x [<-|Hx]; [assumption | now apply Hall].
Qed.

(** ** The average *)

Lemma sum_from_exact times :
  forall acc acc', (acc' == acc)%Q ->
  Forall isDouble (prefixSums acc times) ->
  fold_left (fun a b => Number_add a (Finite b)) times (Finite acc')
  = Finite (match times with
            | [] => acc'
            | _ => Qred (fold_left Qplus times acc)
            end).
Proof.
  induction times as [|x rest IH]; intros acc acc' Hacc Hall; [reflexivity|].
  cbn [prefixSums] in Hall. inversion Hall as [|? ? Hx Hrest]; subst.
  cbn [fold_left Number_add].
  rewrite (roundDouble_Qeq (acc' + x) (acc + x)) by now rewrite Hacc.
  rewrite Hx.
  rewrite (IH (acc + x)%Q (Qred (acc + x))) by (apply Qred_correct || assumption).
  destruct rest; reflexivity.
Qed.

(** When no addition and not the division rounds, the average is the
    exact mean. *)
Lemma average_exact times :
  times <> [] ->
  Forall isDouble (prefixSums 0 times) -> isDouble (mean times) ->
  divideByLength (sum times) (length times) = Finite (Qred (mean times)).
Proof.
  intros Hne Hall Hmean. unfold sum.
  rewrite (sum_from_exact times 0 0 (Qeq_refl 0) Hall).
  destruct times as [|x rest]; [congruence|].
  set (times := x :: rest) in *.
  unfold divideByLength, Number_div, Number_ofNat.
  assert (Qeq_bool (inject_Z (Z.of_nat (length times))) 0 = false) as ->.
  { apply not_true_is_false. intros H. apply Qeq_bool_eq in H.
    unfold Qeq in H. cbn in H. lia. }
  rewrite <- Hmean. apply roundDouble_Qeq. unfold mean.
  now rewrite Qred_correct.
Qed.

Lemma sum_not_NaN times : forall a, a <> NaN ->
  fold_left (fun a b => Number_add a (Finite b)) times a <> NaN.
Proof.
  induction times as [|x rest IH]; intros a Ha; [exact Ha|].
  cbn [fold_left]. apply IH.
  destruct a; cbn; try discriminate; try congruence. apply roundDouble_not_NaN.
Qed.

Lemma average_not_NaN times :
  times <> [] -> divideByLength (sum times) (length times) <> NaN.
Proof.
  intros Hne. pose proof (sum_not_NaN times (Finite 0) ltac:(discriminate)) as Hs.
  fold (sum times) in Hs.
  destruct times as [|x rest]; [congruence|].
  set (times := x :: rest) in *.
  unfold divideByLength, Number_div, Number_ofNat.
  assert (Qeq_bool (inject_Z (Z.of_nat (length times))) 0 = false) as ->.
  { apply not_true_is_false. intros H. apply Qeq_bool_eq in H.
    unfold Qeq in H. cbn in H. lia. }
  destruct (sum times); try congruence.
  - apply roundDouble_not_NaN.
  - cbn [signum infinityOf]. destruct (Qle_bool 0 _); discriminate.
  - cbn [signum infinityOf]. destruct (Qle_bool 0 _); discriminate.
Qed.

Lemma sum_not_negative times : forall a, notNegative a ->
  Forall (fun x => (0 <= x)%Q) times ->
  notNegative (fold_left (fun a b => Number_add a (Finite b)) times a).
Proof.
  induction times as [|x rest IH]; intros a Ha Hall; [exact Ha|].
  inversion Hall as [|? ? Hx Hrest]; subst.
  cbn [fold_left]. apply IH; [|assumption].
  destruct a; cbn in Ha |- *; try contradiction; [|exact I].
  apply roundDouble_not_negative.
  rewrite <- (Qplus_0_r 0). now apply Qplus_le_compat.
Qed.

Lemma average_not_negative times :
  times <> [] -> Forall (fun x => (0 <= x)%Q) times ->
  notNegative (divideByLength (sum times) (length times)).
Proof.
  intros Hne Hall.
  pose proof (sum_not_negative times (Finite 0) (Qle_refl 0) Hall) as Hs.
  fold (sum times) in Hs.
  destruct times as [|x rest]; [congruence|].
  set (times := x :: rest) in *.
  unfold divideByLength, Number_div, Number_ofNat.
  assert (0 < inject_Z (Z.of_nat (length times)))%Q as Hn.
  { unfold Qlt. cbn. lia. }
  assert (Qeq_bool (inject_Z (Z.of_nat (length times))) 0 = false) as ->.
  { apply not_true_is_false. intros H. apply Qeq_bool_eq in H.
    rewrite H in Hn. discriminate Hn. }
  destruct (sum times) as [t| | |]; cbn in Hs; try contradiction.
  - apply roundDouble_not_negative.
    apply Qle_shift_div_l; [assumption|]. now rewrite Qmult_0_l.
  - cbn [signum infinityOf].
    assert (Qle_bool 0 (inject_Z (Z.of_nat (length times))) = true) as ->
      by (apply Qle_bool_iff; now apply Qlt_le_weak).
    exact I.
Qed.

Lemma median_defined times :
  times <> [] ->
  exists m, nth_error (sortAscending times) (Nat.div (length (sortAscending times)) 2)
            = Some m.
Proof.
  intros Hne.
  destruct (nth_error (sortAscending times) (Nat.div (length (sortAscending times)) 2))
    eqn:E; [eauto|].
  apply nth_error_None in E. rewrite sortAscending_length in E.
  destruct times; [congruence|]. cbn [length] in E.
  pose proof (Nat.div_lt (S (length times)) 2 ltac:(lia) ltac:(lia)). lia.
Qed.

(** C8 as the specification states it does not hold: the durations are
    doubles and the average is computed in doubles.  On three durations of
    0.1 ms (100000 ns each) the average returned is 0.10000000000000002:
    it is not their arithmetic mean, which is 0.1, and it is above their
    maximum. *)
Lemma mean_rounded_counterexample :
  durationOf 0 100000 = tenth /\
  exists s a,
    summarize [tenth; tenth; tenth] = Return s /\
    avg s = Finite a /\
    (mean [tenth; tenth; tenth] == tenth)%Q /\
    ~ (a == mean [tenth; tenth; tenth])%Q /\
    max s = Finite tenth /\ (tenth < a)%Q.
Proof.
  split; [vm_compute; reflexivity|].
  eexists _, _. split; [vm_compute; reflexivity|]. cbn [avg max].
  split; [reflexivity|]. split; [vm_compute; reflexivity|].
  split; [intros H; vm_compute in H; discriminate H|].
  split; reflexivity.
Qed.

(** C8, amended: on a non-empty sequence [summarize] returns a summary
    whose average is the sum of the durations, added one by one from the
    left starting at 0 with every addition rounded to the nearest double,
    divided by their number and rounded again; it is never NaN, and it is
    the arithmetic mean whenever none of these operations rounds.  Its min
    is the least and its max the greatest element, and its median is the
    element at index floor(n / 2) of the sequence sorted in ascending
    order; on [5, 1, 3] the summary is min = 1, max = 5, average = 3,
    median = 3. *)
Theorem summarize_statistics :
  (forall times : list Q, times <> [] ->
   exists a m lo hi,
     summarize times
       = Return {| avg := a; median := Some m; min := Finite lo; max := Finite hi |} /\
     (a = Number_div
            (fold_left (fun total x => Number_add total (Finite x)) times (Finite 0))
            (Number_ofNat (length times)) /\
      a <> NaN /\
      (Forall isDouble (prefixSums 0 times) -> isDouble (mean times) ->
       a = Finite (Qred (mean times)))) /\
     (In lo times /\ forall x, In x times -> (lo <= x)%Q) /\
     (In hi times /\ forall x, In x times -> (x <= hi)%Q) /\
     (Sorted Qle (sortAscending times) /\
      Permutation times (sortAscending times) /\
      nth_error (sortAscending times) (Nat.div (length times) 2) = Some m)) /\
  summarize [5; 1; 3]%Q
    = Return {| avg := Finite 3; median := Some 3; min := Finite 1; max := Finite 5 |}%Q.
Proof.
  split.
  - intros times Hne.
    destruct (Math_min_least times Hne) as (lo & Hlo & Hlo_in & Hlo_le).
    destruct (Math_max_greatest times Hne) as (hi & Hhi & Hhi_in & Hhi_le).
    destruct (median_defined times Hne) as (m & Hm).
    exists (divideByLength (sum times) (length times)), m, lo, hi.
    unfold summarize, statistics, report. cbn [median].
    rewrite Hm, Hlo, Hhi. cbn [bind].
    rewrite sortAscending_length in Hm.
    split; [reflexivity|]. split.
    { split; [reflexivity|]. split.
      - now apply average_not_NaN.
      - now apply average_exact. }
    repeat split; auto using sortAscending_sorted, sortAscending_perm.
  - vm_compute. reflexivity.
Qed.

Lemma summarize_statistics_witness :
  [5; 1; 3]%Q <> [] /\
  exists a m lo hi,
    summarize [5; 1; 3]%Q
      = Return {| avg := a; median := Some m; min := Finite lo; max := Finite hi |} /\
    a = Finite (Qred (mean [5; 1; 3]%Q)).
Proof.
  split; [discriminate|].
  destruct (proj1 summarize_statistics [5; 1; 3]%Q ltac:(discriminate))
    as (a & m & lo & hi & H & (_ & _ & Hexact) & _).
  exists a, m, lo, hi. split; [exact H|]. apply Hexact.
  - repeat constructor; vm_compute; reflexivity.
  - vm_compute. reflexivity.
Defined.

(** C2 as the specification states it does not hold: on [1, 2, 3, 4] the
    median returned is 3, the upper of the two middle elements 2 and 3, and
    not 2. *)
Lemma median_lower_middle_counterexample :
  exists s m lower,
    summarize [1; 2; 3; 4]%Q = Return s /\
    median s = Some m /\
    nth_error (sortAscending [1; 2; 3; 4]%Q) (Nat.div 4 2 - 1) = Some lower /\
    (lower == 2)%Q /\ (m == 3)%Q /\ ~ (m == lower)%Q.
Proof.
  eexists _, _, _. repeat split; try reflexivity. intros H. discriminate H.
Qed.

(** C2, amended: for every sequence of even length 2 k > 0, [summarize]
    returns as median the element at index k of the sequence sorted in
    ascending order, which is the upper of the two middle elements; on
    [1, 2, 3, 4] the median is 3. *)
Theorem median_even_length (times : list Q) (k : nat) :
  length times = (2 * k)%nat -> (0 < k)%nat ->
  (exists s lower upper,
     summarize times = Return s /\
     Sorted Qle (sortAscending times) /\
     Permutation times (sortAscending times) /\
     nth_error (sortAscending times) (k - 1) = Some lower /\
     nth_error (sortAscending times) k = Some upper /\
     (lower <= upper)%Q /\
     median s = Some upper) /\
  (exists s, summarize [1; 2; 3; 4]%Q = Return s /\ median s = Some 3%Q).
Proof.
  intros Hlen Hk. split; [|eexists; split; reflexivity].
  pose proof (sortAscending_length times) as Hsl.
  destruct (nth_error (sortAscending times) (k - 1)) as [lower|] eqn:El;
    [|apply nth_error_None in El; lia].
  destruct (nth_error (sortAscending times) k) as [upper|] eqn:Eu;
    [|apply nth_error_None in Eu; lia].
  assert (Nat.div (length (sortAscending times)) 2 = k) as Hmid.
  { rewrite Hsl, Hlen, Nat.mul_comm. apply Nat.div_mul. lia. }
  exists (statistics times), lower, upper.
  unfold summarize, report, statistics at 1. cbn [median].
  rewrite Hmid, Eu. cbn [bind].
  repeat split; auto using sortAscending_sorted, sortAscending_perm.
  - apply (sorted_adjacent (sortAscending times) (k - 1));
      [apply sortAscending_sorted | assumption |].
    now replace (S (k - 1)) with k by lia.
  - unfold statistics. cbn [median]. now rewrite Hmid.
Qed.

Lemma median_even_length_witness :
  exists s lower upper,
    summarize [4; 1; 3; 2]%Q = Return s /\
    nth_error (sortAscending [4; 1; 3; 2]%Q) 1 = Some lower /\
    nth_error (sortAscending [4; 1; 3; 2]%Q) 2 = Some upper /\
    (lower <= upper)%Q /\
    median s = Some upper.
Proof.
  destruct (proj1 (median_even_length [4; 1; 3; 2]%Q 2 eq_refl ltac:(lia)))
    as (s & lower & upper & Hs & _ & _ & Hl & Hu & Hle & Hm).
  exists s, lower, upper. repeat split; assumption.
Defined.

(** C3 as the specification states it does not hold: on the empty sequence
    the statistics are computed all the same (NaN, undefined, Infinity,
    -Infinity), and the exception that follows is not an error the program
    raises for empty input but the runtime's TypeError on formatting the
    undefined median. *)
Lemma empty_input_counterexample :
  statistics []
    = {| avg := NaN; median := None; min := PosInfinity; max := NegInfinity |} /\
  ~ (exists message, summarize [] = Throw (JsError message)).
Proof.
  split; [reflexivity|]. intros [message H]. discriminate H.
Qed.

(** C3, amended: on the empty sequence [summarize] returns no summary: it
    fails, with the TypeError raised when the undefined median is
    formatted; this is how [benchmark] ends when it is asked for zero
    iterations, whatever the strategy, the peer and the text. *)
Theorem summarize_empty :
  summarize [] = Throw (TypeError "toFixed") /\
  (forall s, summarize [] <> Return s) /\
  (forall (P : Platform) (Peer : Type) (network : request -> Peer -> exchange * Peer)
          (Envelope : Type) (codec : JsonCodec Envelope) (Key : Type)
          encryptFn decryptFn (key : Key) (text : jsstring) (w : World P Peer),
     benchmark P Peer network Envelope Key encryptFn decryptFn key text (Some 0) w
     = (Throw (TypeError "toFixed"), w)).
Proof.
  split; [reflexivity|]. split; [intros s H; discriminate H|].
  intros. destruct w. reflexivity.
Qed.

Lemma summarize_empty_witness :
  benchmark toyPlatform (App toyPlatform) (express toyPlatform) SymEnvelope Buffer
    None None toyKey (js "Lorem ipsum") (Some 0) toyWorld
  = (Throw (TypeError "toFixed"), toyWorld).
Proof.
  exact (proj2 (proj2 summarize_empty) toyPlatform (App toyPlatform)
           (express toyPlatform) SymEnvelope toyCodec Buffer None None toyKey
           (js "Lorem ipsum") toyWorld).
Defined.

(** ** Identifiers in request paths *)

Lemma uintDigits_digits d :
  Forall (fun c => 48 <= c <= 57) (uintDigits d).
Proof. induction d; cbn; constructor; try assumption; lia. Qed.

Lemma digitVal_decimal c : 48 <= c <= 57 -> digitVal 10 c = Some (c - 48).
Proof.
  intros H. unfold digitVal.
  destruct (Z.leb_spec 48 c); [|lia]. destruct (Z.leb_spec c 57); [|lia].
  cbn [andb]. destruct (Z.ltb_spec (c - 48) 10); [reflexivity | lia].
Qed.

Lemma parseDigits_uintDigits d acc :
  0 <= acc ->
  parseDigits 10 (uintDigits d) acc = Z.of_nat (Nat.of_uint_acc d (Z.to_nat acc)).
Proof.
  revert acc.
  induction d as [|d IH|d IH|d IH|d IH|d IH|d IH|d IH|d IH|d IH|d IH];
    intros acc Hacc; cbn [uintDigits parseDigits Nat.of_uint_acc];
    [now rewrite Z2Nat.id | ..];
    rewrite digitVal_decimal by lia; rewrite IH by lia;
    rewrite Nat.tail_mul_spec; do 2 f_equal; lia.
Qed.

Lemma isWhiteSpace_digit c : 48 <= c <= 57 -> isWhiteSpace c = false.
Proof.
  intros H. unfold isWhiteSpace. cbn [existsb].
  repeat match goal with
         | |- context [?a =? ?b] => destruct (Z.eqb_spec a b); [lia|]
         end.
  cbn [orb]. destruct (Z.leb_spec 8192 c); [lia | reflexivity].
Qed.

Ltac enumerate_digit c :=
  destruct c as [|c|c]; try lia;
  repeat match goal with
         | p : positive |- _ => destruct p; try lia
         end.

Lemma signOf_digit c rest :
  48 <= c <= 57 -> signOf (c :: rest) = (1, c :: rest).
Proof. intros H. unfold signOf. enumerate_digit c; reflexivity. Qed.

Lemma radixOf_digits s :
  Forall (fun c => 48 <= c <= 57) s -> radixOf s = (10, s).
Proof.
  intros H. unfold radixOf.
  destruct s as [|c [|x rest]].
  - reflexivity.
  - inversion H as [|? ? Hc _]; subst. enumerate_digit c; reflexivity.
  - inversion H as [|? ? Hc Hrest]; subst.
    inversion Hrest as [|? ? Hx _]; subst.
    destruct (Z.eqb_spec x 120); [lia|]. destruct (Z.eqb_spec x 88); [lia|].
    cbn [orb]. enumerate_digit c; reflexivity.
Qed.

Lemma parseInt_Number_toString n :
  parseInt (Number_toString n) = Some (Z.of_nat n).
Proof.
  unfold Number_toString.
  pose proof (DecimalNat.Unsigned.of_to n) as Hof.
  pose proof (uintDigits_digits (Nat.to_uint n)) as Hdig.
  pose proof (parseDigits_uintDigits (Nat.to_uint n) 0 ltac:(lia)) as Hparse.
  assert (Nat.to_uint n <> Decimal.Nil) as Hnil.
  { rewrite <- Hof at 1. rewrite DecimalNat.Unsigned.to_of.
    apply DecimalFacts.unorm_nonnil. }
  change (Z.to_nat 0) with 0%nat in Hparse.
  fold (Nat.of_uint (Nat.to_uint n)) in Hparse. rewrite Hof in Hparse.
  destruct (uintDigits (Nat.to_uint n)) as [|c rest] eqn:E.
  { destruct (Nat.to_uint n); try discriminate. congruence. }
  inversion Hdig as [|? ? Hc Hrest]; subst.
  unfold parseInt. cbn [trimStart]. rewrite isWhiteSpace_digit by assumption.
  rewrite signOf_digit by assumption.
  rewrite radixOf_digits by (constructor; assumption).
  rewrite digitVal_decimal by assumption. rewrite Hparse. f_equal. lia.
Qed.

(** ** The store *)

Section StoreProperties.
Variable P : Platform.

Lemma post_store_accepts text app :
  falsy text = false ->
  post_store P text app =
  ({| status := 201;
      json := Stored "String stored successfully" (length (strings app)) text |},
   {| strings := strings app ++
                 [{| id := length (strings app); text := text;
                     timestamp := fst (dateNow P (wallClock app)) |}];
      wallClock := snd (dateNow P (wallClock app)) |}).
Proof.
  intros H. unfold post_store. rewrite H.
  now destruct (dateNow P (wallClock app)).
Qed.

Lemma post_store_rejects text app :
  falsy text = true ->
  post_store P text app =
  ({| status := 400; json := Failed "Text field is required" |}, app).
Proof. intros H. unfold post_store. now rewrite H. Qed.

Lemma handle_outcome req app :
  (snd (handle P req app) = app /\ assignedId (fst (handle P req app)) = None) \/
  (exists text now later,
     req = POST_store text /\ falsy text = false /\
     assignedId (fst (handle P req app)) = Some (length (strings app)) /\
     snd (handle P req app) =
       {| strings := strings app ++
                     [{| id := length (strings app); text := text; timestamp := now |}];
          wallClock := later |}).
Proof.
  destruct req as [text| |param]; cbn [handle].
  - destruct (falsy text) eqn:E.
    + left. now rewrite post_store_rejects.
    + right. rewrite post_store_accepts by assumption.
      eexists _, _, _. repeat split; try reflexivity. assumption.
  - left. split; reflexivity.
  - left. split; [reflexivity|]. cbn [fst]. unfold get_strings_id.
    now destruct (index (strings app) (parseInt param)).
Qed.

Lemma handle_append_only req app :
  exists more, strings (snd (handle P req app)) = strings app ++ more.
Proof.
  destruct (handle_outcome req app)
    as [[-> _]|(text & now & later & _ & _ & _ & ->)].
  - exists []. now rewrite app_nil_r.
  - eexists. reflexivity.
Qed.

Lemma serve_append_only reqs app :
  exists more, strings (snd (serve P reqs app)) = strings app ++ more.
Proof.
  revert app. induction reqs as [|req reqs IH]; intros app; cbn [serve].
  - exists []. now rewrite app_nil_r.
  - destruct (handle_append_only req app) as (m1 & H1).
    destruct (handle P req app) as [resp app'] eqn:E. cbn [snd] in H1.
    destruct (IH app') as (m2 & H2).
    destruct (serve P reqs app') as [resps app'']. cbn [snd] in *.
    exists (m1 ++ m2). now rewrite H2, H1, app_assoc.
Qed.

Lemma handle_consistent req app :
  consistent app -> consistent (snd (handle P req app)).
Proof.
  intros Hc.
  destruct (handle_outcome req app)
    as [[-> _]|(text & now & later & _ & _ & _ & ->)]; [assumption|].
  intros i str. cbn [strings].
  destruct (Nat.lt_ge_cases i (length (strings app))) as [Hlt|Hge].
  - rewrite nth_error_app1 by assumption. apply Hc.
  - rewrite nth_error_app2 by assumption.
    destruct (i - length (strings app))%nat as [|j] eqn:E; cbn.
    + intros H. injection H as <-. cbn. lia.
    + destruct j; discriminate.
Qed.

Lemma serve_assigns reqs app :
  consistent app ->
  consistent (snd (serve P reqs app)) /\
  exists k,
    assignedIds (fst (serve P reqs app)) = seq (length (strings app)) k /\
    length (strings (snd (serve P reqs app))) = (length (strings app) + k)%nat.
Proof.
  revert app. induction reqs as [|req reqs IH]; intros app Hc; cbn [serve].
  - split; [assumption|]. exists 0%nat. cbn. split; [reflexivity | lia].
  - pose proof (handle_consistent req app Hc) as Hc'.
    pose proof (handle_outcome req app) as Hout.
    destruct (handle P req app) as [resp app'] eqn:E. cbn [fst snd] in *.
    destruct (IH app' Hc') as (Hc'' & k & Hids & Hlen).
    destruct (serve P reqs app') as [resps app'']. cbn [fst snd] in *.
    split; [assumption|].
    unfold assignedIds in *. cbn [flat_map].
    destruct Hout as [[-> ->]|(text & now & later & _ & _ & -> & ->)].
    + exists k. cbn [List.app]. split; assumption.
    + exists (S k). cbn [strings] in *. rewrite length_app in *. cbn [length] in *.
      cbn [List.app seq]. rewrite Hids, Hlen.
      split; [do 2 f_equal; lia | lia].
Qed.

Lemma retrieve_stored app i str :
  nth_error (strings app) i = Some str ->
  get_strings_id P (Number_toString i) app = {| status := 200; json := Entry str |}.
Proof.
  intros H. unfold get_strings_id. rewrite parseInt_Number_toString.
  unfold index. destruct (Z.ltb_spec (Z.of_nat i) 0); [lia|].
  now rewrite Nat2Z.id, H.
Qed.

End StoreProperties.

Lemma serve_truthy (P : Platform) reqs (app : App P) :
  Forall (fun str => falsy (text str) = false) (strings app) ->
  Forall (fun str => falsy (text str) = false) (strings (snd (serve P reqs app))).
Proof.
  revert app. induction reqs as [|req reqs IH]; intros app H; cbn [serve];
    [assumption|].
  destruct (handle_outcome P req app)
    as [[Hsame _]|(txt & now & later & _ & Htruthy & _ & Hnew)];
    destruct (handle P req app) as [resp app']; cbn [snd] in *;
    specialize (IH app'); destruct (serve P reqs app') as [resps app''];
    cbn [snd] in *; apply IH; subst app'; [assumption|].
  cbn [strings]. apply Forall_app. split; [assumption|].
  constructor; [assumption | constructor].
Qed.

(** ** Claims about the store *)

(** C7: from an empty store, whatever requests are served, the identifiers
    given by the successful stores are 0, 1, 2, ... in the order of the
    stores, as many as there are records (none reused, none skipped), and
    every record sits at the index equal to its identifier; a request never
    changes or removes a record already there; and the identifier a store
    returns retrieves, then and after any further requests, the record with
    exactly the text that was stored. *)
Theorem store_identifiers (P : Platform) (c0 : clock P) (reqs : list request) :
  let fresh := Build_App P [] c0 in
  let resps := fst (serve P reqs fresh) in
  let final := snd (serve P reqs fresh) in
  assignedIds resps = seq 0 (length (strings final)) /\
  (forall i str, nth_error (strings final) i = Some str -> id str = i) /\
  (forall req, exists more,
     strings (snd (handle P req final)) = strings final ++ more) /\
  (forall txt later, falsy txt = false ->
   exists i ts,
     assignedId (fst (handle P (POST_store txt) final)) = Some i /\
     i = length (strings final) /\
     get_strings_id P (Number_toString i)
       (snd (serve P later (snd (handle P (POST_store txt) final))))
     = {| status := 200;
          json := Entry {| id := i; text := txt; timestamp := ts |} |}).
Proof.
  intros fresh resps final.
  assert (consistent fresh) as Hfresh by (intros [|i] str H; discriminate H).
  destruct (serve_assigns P reqs fresh Hfresh) as (Hc & k & Hids & Hlen).
  fold resps in Hids. fold final in Hc, Hlen. cbn in Hids, Hlen.
  repeat split.
  - now rewrite Hlen.
  - exact Hc.
  - intros req. apply handle_append_only.
  - intros txt later Htruthy. cbn [handle].
    rewrite post_store_accepts by assumption. cbn [fst snd assignedId json].
    set (str := {| id := length (strings final); text := txt;
                   timestamp := fst (dateNow P (wallClock final)) |}).
    set (app1 := {| strings := strings final ++ [str];
                    wallClock := snd (dateNow P (wallClock final)) |}).
    destruct (serve_append_only P later app1) as (more & Hmore).
    exists (length (strings final)), (fst (dateNow P (wallClock final))).
    repeat split. apply retrieve_stored. rewrite Hmore. cbn [strings app1].
    rewrite <- app_assoc, nth_error_app2 by lia. now rewrite Nat.sub_diag.
Qed.

Lemma store_identifiers_witness :
  falsy (VString (js "a")) = false /\
  exists i ts,
    assignedId (fst (handle toyPlatform (POST_store (VString (js "a")))
                       (snd (serve toyPlatform [POST_store (VString (js "b"))]
                               (Build_App toyPlatform [] 0))))) = Some i /\
    get_strings_id toyPlatform (Number_toString i)
      (snd (serve toyPlatform []
              (snd (handle toyPlatform (POST_store (VString (js "a")))
                      (snd (serve toyPlatform [POST_store (VString (js "b"))]
                              (Build_App toyPlatform [] 0)))))))
    = {| status := 200;
         json := Entry {| id := i; text := VString (js "a"); timestamp := ts |} |}.
Proof.
  split; [reflexivity|].
  destruct (proj2 (proj2 (proj2
              (store_identifiers toyPlatform 0 [POST_store (VString (js "b"))])))
              (VString (js "a")) [] eq_refl) as (i & ts & Hi & _ & Hget).
  exists i, ts. split; [exact Hi | exact Hget].
Defined.

(** C10: a store request whose text is the empty string, or is missing, is
    answered with status 400 and an error body and leaves the store as it
    was, so the next store is given the identifier it would have been given
    anyway; no record of a store served from empty ever holds an empty
    (or otherwise falsy) text. *)
Theorem empty_text_rejected (P : Platform) (app : App P) (next : jsvalue)
  (c0 : clock P) (reqs : list request) :
  handle P (POST_store (VString [])) app
    = ({| status := 400; json := Failed "Text field is required" |}, app) /\
  handle P (POST_store VUndefined) app
    = ({| status := 400; json := Failed "Text field is required" |}, app) /\
  handle P (POST_store next) (snd (handle P (POST_store (VString [])) app))
    = handle P (POST_store next) app /\
  Forall (fun str => falsy (text str) = false)
         (strings (snd (serve P reqs (Build_App P [] c0)))).
Proof.
  repeat split. apply serve_truthy. constructor.
Qed.

(** ** Claims about the transport *)

(** C4 as the specification states it does not hold: asked for identifier
    0, the empty store answers 404, and [makeRequest] resolves with the
    error body; sent an empty text, the store answers 400, and
    [makeRequest] resolves as well.  Neither request fails. *)
Lemma status_not_checked_counterexample :
  let fresh := Build_App toyPlatform [] 0 in
  express toyPlatform (GET_strings_id (js "0")) fresh
    = (Answer 404 (JsonText (Failed "String not found")), fresh) /\
  makeRequest (express toyPlatform) (GET_strings_id (js "0")) fresh
    = (Return (Parsed (Failed "String not found")), fresh) /\
  express toyPlatform (POST_store (VString [])) fresh
    = (Answer 400 (JsonText (Failed "Text field is required")), fresh) /\
  makeRequest (express toyPlatform) (POST_store (VString [])) fresh
    = (Return (Parsed (Failed "Text field is required")), fresh).
Proof. repeat split. Qed.

(** ** The benchmark driver *)

Section BenchmarkProperties.
Variable P : Platform.
Variable Envelope : Type.
Context {codec : JsonCodec Envelope}.
Variable Key : Type.

#[local] Abbreviation iteration_on := (iteration P (App P) (express P) Envelope Key).
#[local] Abbreviation iterate_on := (iterate P (App P) (express P) Envelope Key).
#[local] Abbreviation benchmark_on := (benchmark P (App P) (express P) Envelope Key).

Lemma jsstring_eqb_refl s : jsstring_eqb s s = true.
Proof. unfold jsstring_eqb. destruct (list_eq_dec Z.eq_dec s s); congruence. Qed.

Lemma store_then_retrieve (payload : jsstring) (app : App P) :
  payload <> [] ->
  exists str app',
    express P (POST_store (VString payload)) app
      = (Answer 201 (JsonText (Stored "String stored successfully"
                                 (length (strings app)) (VString payload))), app') /\
    strings app' = strings app ++ [str] /\
    express P (GET_strings_id (Number_toString (length (strings app)))) app'
      = (Answer 200 (JsonText (Entry str)), app') /\
    text str = VString payload.
Proof.
  intros Hne. unfold express. cbn [handle].
  rewrite post_store_accepts by (destruct payload; [congruence | reflexivity]).
  cbn [status json]. eexists _, _. split; [reflexivity|].
  cbn [strings]. split; [reflexivity|]. split; [|reflexivity].
  erewrite retrieve_stored; [reflexivity|].
  cbn [strings]. rewrite nth_error_app2 by lia. now rewrite Nat.sub_diag.
Qed.

Ltac run_step :=
  cbv beta iota zeta
      delta [entropy timer peer trace parseBody field_id field_text templateId].

Lemma iteration_round_trip encryptFn decryptFn key text
  (w : World P (App P)) :
  StrategyWorks encryptFn decryptFn key text ->
  exists duration w',
    iteration_on encryptFn decryptFn key text w = (Return duration, w') /\
    trace w' = trace w ++ roundTrip encryptFn decryptFn (length (strings (peer w))) /\
    length (strings (peer w')) = S (length (strings (peer w))).
Proof.
  intros Hs. destruct w as [r c app tr].
  unfold iteration, mbind, now, await, emit, withEntropy, lift, ret, makeRequest.
  run_step.
  destruct (hrtime P c) as [t1 c1]. run_step.
  destruct encryptFn as [encrypt|], decryptFn as [decrypt|]; cbn in Hs;
    try contradiction.
  - destruct Hs as [Hjson Henc].
    destruct (Henc r) as (e & r' & He & Hd). rewrite He. run_step.
    destruct (Hjson e) as [Hparse Hne].
    destruct (store_then_retrieve (JSON_stringify e) app Hne)
      as (str & app' & Hpost & Hstr & Hget & Htext).
    rewrite Hpost. run_step. rewrite Hget. run_step. rewrite Htext.
    unfold parseEnvelope. rewrite Hparse, Hd. run_step.
    rewrite jsstring_eqb_refl. unfold emit. run_step.
    destruct (hrtime P c1) as [t2 c2]. run_step.
    eexists _, _. split; [reflexivity|]. run_step.
    split.
    + unfold roundTrip. rewrite <- !app_assoc. reflexivity.
    + rewrite Hstr, length_app. cbn. lia.
  - destruct (store_then_retrieve text app Hs)
      as (str & app' & Hpost & Hstr & Hget & Htext).
    rewrite Hpost. run_step. rewrite Hget. run_step.
    destruct (hrtime P c1) as [t2 c2]. run_step.
    eexists _, _. split; [reflexivity|]. run_step.
    split.
    + unfold roundTrip. rewrite <- !app_assoc. reflexivity.
    + rewrite Hstr, length_app. cbn. lia.
Qed.

Lemma iterate_round_trips encryptFn decryptFn key text count :
  StrategyWorks encryptFn decryptFn key text ->
  forall times (w : World P (App P)),
  exists durations w',
    iterate_on encryptFn decryptFn key text count times w
      = (Return (times ++ durations), w') /\
    length durations = count /\
    trace w' = trace w ++ flat_map (roundTrip encryptFn decryptFn)
                            (seq (length (strings (peer w))) count) /\
    length (strings (peer w')) = (length (strings (peer w)) + count)%nat.
Proof.
  intros Hs. induction count as [|count IH]; intros times w; cbn [iterate].
  - exists [], w. unfold ret. rewrite !app_nil_r. cbn. repeat split. lia.
  - destruct (iteration_round_trip encryptFn decryptFn key text w Hs)
      as (d & w1 & Hit & Htr & Hlen).
    unfold mbind. rewrite Hit.
    destruct (IH (times ++ [d]) w1) as (ds & w2 & Hrest & Hds & Htr2 & Hlen2).
    exists (d :: ds), w2. rewrite Hrest, <- app_assoc. cbn [List.app].
    repeat split.
    + cbn [length]. now rewrite Hds.
    + rewrite Htr2, Htr, Hlen. cbn [seq flat_map]. now rewrite app_assoc.
    + rewrite Hlen2, Hlen. lia.
Qed.

Lemma summarize_nonempty times :
  times <> [] -> exists s, summarize times = Return s.
Proof.
  intros Hne. destruct (median_defined times Hne) as (m & Hm).
  unfold summarize, report, statistics. cbn [median]. rewrite Hm.
  eexists. reflexivity.
Qed.

Lemma benchmark_round_trips encryptFn decryptFn key text n
  (w : World P (App P)) :
  0 < n ->
  StrategyWorks encryptFn decryptFn key text ->
  exists times w' s,
    iterate_on encryptFn decryptFn key text (loopCount n) [] w = (Return times, w') /\
    length times = Z.to_nat n /\
    trace w' = trace w ++ flat_map (roundTrip encryptFn decryptFn)
                            (seq (length (strings (peer w))) (Z.to_nat n)) /\
    length (strings (peer w')) = (length (strings (peer w)) + Z.to_nat n)%nat /\
    summarize times = Return s /\
    benchmark_on encryptFn decryptFn key text (Some n) w = (Return s, w').
Proof.
  intros Hn Hs.
  destruct (iterate_round_trips encryptFn decryptFn key text (loopCount n) Hs [] w)
    as (ds & w' & Hit & Hlen & Htr & Hstr).
  cbn [List.app] in Hit. unfold loopCount in *.
  destruct (summarize_nonempty ds) as (s & Hsum).
  { intros ->. cbn in Hlen. lia. }
  exists ds, w', s. unfold benchmark, mbind, lift, loopCount. rewrite Hit, Hsum.
  repeat split; assumption.
Qed.

End BenchmarkProperties.

Lemma aes_strategy_works (P : Platform) {codec : JsonCodec SymEnvelope}
  (key : Buffer) (text : jsstring) :
  RandomLaw P -> SealOpenLaw P -> JsonLaw SymEnvelope ->
  wellFormed text = true -> length key = keyLength ->
  StrategyWorks (P := P) (Some (encryptAES P)) (Some (decryptAES P)) key text.
Proof.
  intros Hrand Hseal Hjson Hwf Hkey. split; [exact Hjson|]. intros r.
  destruct (encryptAES_decryptAES P text key r Hrand Hseal
              (wellFormed_units text Hwf) Hkey) as (e & r' & He & Hd).
  exists e, r'. rewrite toWellFormed_wellFormed in Hd by assumption. auto.
Qed.

Lemma chacha_strategy_works (P : Platform) {codec : JsonCodec SymEnvelope}
  (key : Buffer) (text : jsstring) :
  RandomLaw P -> SealOpenLaw P -> JsonLaw SymEnvelope ->
  wellFormed text = true -> length key = keyLength ->
  StrategyWorks (P := P) (Some (encryptChaCha20 P)) (Some (decryptChaCha20 P))
    key text.
Proof.
  intros Hrand Hseal Hjson Hwf Hkey. split; [exact Hjson|]. intros r.
  destruct (encryptChaCha20_decryptChaCha20 P text key r Hrand Hseal
              (wellFormed_units text Hwf) Hkey) as (e & r' & He & Hd).
  exists e, r'. rewrite toWellFormed_wellFormed in Hd by assumption. auto.
Qed.

Lemma rsa_strategy_works (P : Platform) {codec : JsonCodec RsaEnvelope}
  (publicKey : pubkey P) (privateKey : privkey P) (text : jsstring) :
  RsaLaw P publicKey privateKey -> JsonLaw RsaEnvelope ->
  wellFormed text = true ->
  StrategyWorks (P := P) (Some (rsaEncrypt P publicKey))
    (Some (rsaDecrypt P privateKey)) tt text.
Proof.
  intros Hrsa Hjson Hwf. split; [exact Hjson|]. intros r.
  destruct (encryptRSA_decryptRSA P publicKey privateKey text r Hrsa
              (wellFormed_units text Hwf)) as (e & r' & He & Hd).
  exists e, r'. rewrite toWellFormed_wellFormed in Hd by assumption.
  unfold rsaEncrypt, rsaDecrypt. auto.
Qed.

Lemma storedIds_roundTrips {A B : Type} (encryptFn : option A)
  (decryptFn : option B) ids :
  storedIds (flat_map (roundTrip encryptFn decryptFn) ids) = ids.
Proof.
  induction ids as [|i ids IH]; [reflexivity|].
  cbn [flat_map]. unfold storedIds in *. rewrite flat_map_app, IH.
  destruct encryptFn, decryptFn; reflexivity.
Qed.

(** Without a strategy an empty text is sent as it is; the store rejects
    it and assigns no identifier, the retrieval of "undefined" finds
    nothing, and, there being nothing to verify, the iteration is timed all
    the same: the run produces its durations and stores no record. *)
Remark unencrypted_empty_text (P : Platform) (Envelope : Type)
  {codec : JsonCodec Envelope} (Key : Type) (key : Key) (count : nat)
  (times : list Q) (w : World P (App P)) :
  exists durations w',
    iterate P (App P) (express P) Envelope Key None None key [] count times w
      = (Return (times ++ durations), w') /\
    length durations = count /\
    peer w' = peer w /\
    trace w' = trace w ++ flat_map (fun _ => [StoreDone None; RetrieveDone None])
                            (seq 0 count).
Proof.
  revert times w. induction count as [|count IH]; intros times w; cbn [iterate].
  - exists [], w. unfold ret. rewrite !app_nil_r. repeat split.
  - destruct w as [r c app tr].
    assert (express P (POST_store (VString [])) app
            = (Answer 400 (JsonText (Failed "Text field is required")), app))
      as Hpost by reflexivity.
    assert (express P (GET_strings_id (js "undefined")) app
            = (Answer 404 (JsonText (Failed "String not found")), app))
      as Hget by reflexivity.
    unfold mbind at 1.
    unfold iteration, mbind, now, await, emit, lift, ret, makeRequest.
    cbv beta iota zeta delta [entropy timer peer trace].
    destruct (hrtime P c) as [t1 c1]. cbv beta iota zeta. rewrite Hpost.
    cbv beta iota zeta delta [parseBody field_id templateId]. rewrite Hget.
    cbv beta iota zeta.
    destruct (hrtime P c1) as [t2 c2]. cbv beta iota zeta.
    destruct (IH (times ++ [durationOf t1 t2])
                (Build_World P (App P) r c2 app
                   ((tr ++ [StoreDone None]) ++ [RetrieveDone None])))
      as (ds & w' & Hrest & Hlen & Hpeer & Htr).
    exists (durationOf t1 t2 :: ds), w'.
    rewrite Hrest, <- app_assoc. cbn [List.app].
    repeat split.
    + cbn [length]. now rewrite Hlen.
    + exact Hpeer.
    + etransitivity; [exact Htr|]. cbv beta iota zeta delta [trace].
      rewrite <- !app_assoc. cbn [List.app seq flat_map]. do 3 f_equal.
      rewrite <- seq_shift, !flat_map_concat_map, map_map. reflexivity.
Qed.

(** C4, amended: a request fails only when the exchange itself fails (the
    request's error event): then the promise is rejected with that error;
    any response, whatever its status, resolves with its parsed body.  A
    failed store, or a failed retrieval, ends the benchmark at once with
    that error: no further exchange takes place, no step of the iteration
    is recorded after it, no duration is produced. *)
Theorem transport_failures (P : Platform) (Peer : Type)
  (network : request -> Peer -> exchange * Peer)
  (Envelope : Type) {codec : JsonCodec Envelope} (Key : Type)
  (key : Key) (text : jsstring) (n : Z) (w : World P Peer) :
  (forall req s code s',
     network req s = (NetworkError code, s') ->
     makeRequest network req s = (Throw (SystemError code), s')) /\
  (forall req s status content s',
     network req s = (Answer status content, s') ->
     makeRequest network req s = (Return (parseBody content), s')) /\
  (0 < n ->
   forall code s',
     network (POST_store (VString text)) (peer w) = (NetworkError code, s') ->
     exists w',
       benchmark P Peer network Envelope Key None None key text (Some n) w
         = (Throw (SystemError code), w') /\
       peer w' = s' /\ trace w' = trace w) /\
  (0 < n ->
   forall status content s1 id code s2,
     network (POST_store (VString text)) (peer w) = (Answer status content, s1) ->
     field_id (parseBody content) = Return id ->
     network (GET_strings_id (templateId id)) s1 = (NetworkError code, s2) ->
     exists w',
       benchmark P Peer network Envelope Key None None key text (Some n) w
         = (Throw (SystemError code), w') /\
       peer w' = s2 /\
       trace w' = trace w ++ [StoreDone id]).
Proof.
  repeat split.
  - intros req s code s' H. unfold makeRequest. now rewrite H.
  - intros req s status content s' H. unfold makeRequest. now rewrite H.
  - intros Hn code s' H. unfold benchmark, loopCount.
    destruct (Z.to_nat n) as [|k] eqn:E; [lia|]. cbn [iterate].
    destruct w as [r c s tr].
    unfold iteration, mbind, now, await, emit, lift, ret, makeRequest.
    cbv beta iota zeta delta [entropy timer peer trace] in *.
    destruct (hrtime P c) as [t1 c1]. cbv beta iota zeta. rewrite H.
    eexists. repeat split.
  - intros Hn status content s1 id code s2 H1 Hid H2. unfold benchmark, loopCount.
    destruct (Z.to_nat n) as [|k] eqn:E; [lia|]. cbn [iterate].
    destruct w as [r c s tr].
    unfold iteration, mbind, now, await, emit, lift, ret, makeRequest.
    cbv beta iota zeta delta [entropy timer peer trace] in *.
    destruct (hrtime P c) as [t1 c1]. cbv beta iota zeta. rewrite H1.
    cbv beta iota zeta. rewrite Hid. cbv beta iota zeta. rewrite H2.
    eexists. repeat split.
Qed.

Lemma transport_failures_witness :
  0 < 1 /\
  exists w',
    benchmark toyPlatform (App toyPlatform) (unreachable "ECONNREFUSED")
      SymEnvelope Buffer None None toyKey (js "Lorem ipsum") (Some 1) toyWorld
    = (Throw (SystemError "ECONNREFUSED"), w') /\
    peer w' = peer toyWorld /\ trace w' = trace toyWorld.
Proof.
  split; [reflexivity|].
  exact (proj1 (proj2 (proj2 (transport_failures toyPlatform (App toyPlatform)
                                (unreachable "ECONNREFUSED") SymEnvelope
                                (codec := toyCodec) Buffer toyKey
                                (js "Lorem ipsum") 1 toyWorld)))
           eq_refl "ECONNREFUSED"%string (peer toyWorld) eq_refl).
Defined.

(** ** More on the store *)

Lemma parseDigits_uintDigits_app d rest acc :
  0 <= acc ->
  parseDigits 10 (uintDigits d ++ rest) acc
  = parseDigits 10 rest (Z.of_nat (Nat.of_uint_acc d (Z.to_nat acc))).
Proof.
  revert acc.
  induction d as [|d IH|d IH|d IH|d IH|d IH|d IH|d IH|d IH|d IH|d IH];
    intros acc Hacc; cbn [uintDigits List.app parseDigits Nat.of_uint_acc];
    [now rewrite Z2Nat.id | ..];
    rewrite digitVal_decimal by lia; rewrite IH by lia;
    rewrite Nat.tail_mul_spec; do 3 f_equal; lia.
Qed.

Lemma trimStart_whitespace ws s :
  Forall (fun c => isWhiteSpace c = true) ws ->
  trimStart (ws ++ s) = trimStart s.
Proof.
  induction 1 as [|c ws Hc _ IH]; [reflexivity|].
  cbn [List.app trimStart]. now rewrite Hc.
Qed.

Lemma Number_toString_digits n :
  exists c rest,
    Number_toString n = c :: rest /\ 48 <= c <= 57 /\
    Forall (fun c => 48 <= c <= 57) rest /\
    (rest = [] -> c = 48 -> n = 0%nat).
Proof.
  unfold Number_toString.
  pose proof (uintDigits_digits (Nat.to_uint n)) as Hdig.
  pose proof (DecimalNat.Unsigned.of_to n) as Hof.
  destruct (uintDigits (Nat.to_uint n)) as [|c rest] eqn:E.
  - exfalso. assert (Nat.to_uint n <> Decimal.Nil) as Hnil.
    { rewrite <- Hof at 1. rewrite DecimalNat.Unsigned.to_of.
      apply DecimalFacts.unorm_nonnil. }
    destruct (Nat.to_uint n); try discriminate. congruence.
  - inversion Hdig as [|? ? Hc Hrest]; subst.
    exists c, rest. repeat split; try assumption; try lia.
    intros -> ->. rewrite <- Hof.
    destruct (Nat.to_uint n) as [|d|d|d|d|d|d|d|d|d|d]; try discriminate.
    cbn in E. injection E as E. destruct d; try discriminate. reflexivity.
Qed.

Lemma parseInt_lenient ws n suffix :
  Forall (fun c => isWhiteSpace c = true) ws ->
  ignoredSuffix n suffix ->
  parseInt (ws ++ Number_toString n ++ suffix) = Some (Z.of_nat n).
Proof.
  intros Hws Hsuf.
  pose proof (parseDigits_uintDigits_app (Nat.to_uint n) suffix 0 ltac:(lia)) as Hparse.
  change (Z.to_nat 0) with 0%nat in Hparse.
  fold (Nat.of_uint (Nat.to_uint n)) in Hparse.
  rewrite DecimalNat.Unsigned.of_to in Hparse. fold (Number_toString n) in Hparse.
  destruct (Number_toString_digits n) as (c & rest & E & Hc & Hrest & Hzero).
  unfold parseInt. rewrite trimStart_whitespace by assumption.
  rewrite E in *. cbn [List.app trimStart] in *.
  rewrite isWhiteSpace_digit by assumption.
  rewrite signOf_digit by assumption.
  assert (radixOf (c :: rest ++ suffix) = (10, c :: rest ++ suffix)) as ->.
  { destruct rest as [|c2 rest].
    - destruct suffix as [|x suffix]; cbn [List.app].
      + apply radixOf_digits. constructor; [assumption | constructor].
      + destruct Hsuf as [_ Hx]. unfold radixOf.
        destruct (Z.eq_dec c 48) as [->|Hne].
        * destruct (Hx (Hzero eq_refl eq_refl)) as [Hx1 Hx2].
          destruct (Z.eqb_spec x 120); [contradiction|].
          destruct (Z.eqb_spec x 88); [contradiction|]. reflexivity.
        * enumerate_digit c; reflexivity.
    - inversion Hrest as [|? ? Hc2 _]; subst. cbn [List.app]. unfold radixOf.
      destruct (Z.eqb_spec c2 120); [lia|]. destruct (Z.eqb_spec c2 88); [lia|].
      cbn [orb]. enumerate_digit c; reflexivity. }
  rewrite digitVal_decimal by assumption. rewrite Hparse.
  assert (parseDigits 10 suffix (Z.of_nat n) = Z.of_nat n) as ->.
  { destruct suffix as [|x suffix]; [reflexivity|].
    destruct Hsuf as [Hx _]. cbn [parseDigits]. now rewrite Hx. }
  f_equal. lia.
Qed.

Lemma parseInt_negative n :
  parseInt (45 :: Number_toString n) = Some (- Z.of_nat n).
Proof.
  pose proof (parseInt_Number_toString n) as H.
  destruct (Number_toString_digits n) as (c & rest & E & Hc & Hrest & _).
  unfold parseInt in *. rewrite E in *. cbn [trimStart] in *.
  change (isWhiteSpace 45) with false. cbv iota.
  rewrite isWhiteSpace_digit in H by assumption.
  rewrite signOf_digit in H by assumption.
  change (signOf (45 :: c :: rest)) with (-1, c :: rest). cbv beta iota.
  destruct (radixOf (c :: rest)) as [radix s3].
  destruct s3 as [|c3 s3]; [discriminate|].
  destruct (digitVal radix c3); [|discriminate].
  set (v := parseDigits radix (c3 :: s3) 0) in *.
  rewrite Z.mul_1_l in H. injection H as H. rewrite H. reflexivity.
Qed.

(** X1: asking the store for the decimal identifier n gives the record at
    index n, with status 200, when n is below the number of records, and
    status 404 otherwise; a negative identifier (other than -0) and an
    identifier that is not a number give 404 as well; the store is left as
    it was in every case. *)
Theorem retrieve_by_identifier (P : Platform) (app : App P) (n : nat)
  (param : jsstring) :
  ((n < length (strings app))%nat ->
   exists str,
     nth_error (strings app) n = Some str /\
     handle P (GET_strings_id (Number_toString n)) app
     = ({| status := 200; json := Entry str |}, app)) /\
  ((length (strings app) <= n)%nat ->
   handle P (GET_strings_id (Number_toString n)) app
   = ({| status := 404; json := Failed "String not found" |}, app)) /\
  ((0 < n)%nat ->
   handle P (GET_strings_id (45 :: Number_toString n)) app
   = ({| status := 404; json := Failed "String not found" |}, app)) /\
  (parseInt param = None ->
   handle P (GET_strings_id param) app
   = ({| status := 404; json := Failed "String not found" |}, app)).
Proof.
  cbn [handle]. unfold get_strings_id. repeat split.
  - intros Hn. destruct (nth_error (strings app) n) as [str|] eqn:E;
      [|apply nth_error_None in E; lia].
    exists str. split; [reflexivity|].
    rewrite parseInt_Number_toString. unfold index.
    destruct (Z.ltb_spec (Z.of_nat n) 0); [lia|]. now rewrite Nat2Z.id, E.
  - intros Hn. rewrite parseInt_Number_toString. unfold index.
    destruct (Z.ltb_spec (Z.of_nat n) 0); [lia|]. rewrite Nat2Z.id.
    now rewrite (proj2 (nth_error_None _ _) Hn).
  - intros Hn. rewrite parseInt_negative. unfold index.
    destruct (Z.ltb_spec (- Z.of_nat n) 0); [reflexivity | lia].
  - intros ->. reflexivity.
Qed.

Lemma retrieve_by_identifier_witness :
  (0 < 1)%nat /\
  handle toyPlatform (GET_strings_id (js "-1"))
    (snd (serve toyPlatform [POST_store (VString (js "a")); POST_store (VString (js "b"))]
            (Build_App toyPlatform [] 0)))
  = ({| status := 404; json := Failed "String not found" |},
     snd (serve toyPlatform [POST_store (VString (js "a")); POST_store (VString (js "b"))]
            (Build_App toyPlatform [] 0))) /\
  exists str,
    handle toyPlatform (GET_strings_id (js "1"))
      (snd (serve toyPlatform [POST_store (VString (js "a")); POST_store (VString (js "b"))]
              (Build_App toyPlatform [] 0)))
    = ({| status := 200; json := Entry str |},
       snd (serve toyPlatform [POST_store (VString (js "a")); POST_store (VString (js "b"))]
              (Build_App toyPlatform [] 0))).
Proof.
  pose (app := snd (serve toyPlatform
                      [POST_store (VString (js "a")); POST_store (VString (js "b"))]
                      (Build_App toyPlatform [] 0))).
  pose (claim := retrieve_by_identifier toyPlatform app 1 (js "undefined")).
  split; [lia|]. split.
  - exact (proj1 (proj2 (proj2 claim)) ltac:(lia)).
  - destruct (proj1 claim ltac:(cbn; lia)) as (str & _ & H).
    exists str. exact H.
Defined.

(** X2: the identifier in the path is read as [parseInt] reads it: white
    space before the digits and anything after them that is not a digit
    are ignored, so such a path retrieves what the plain decimal
    identifier retrieves. *)
Theorem retrieve_ignores_around_digits (P : Platform) (app : App P) (n : nat)
  (ws suffix : jsstring) :
  Forall (fun c => isWhiteSpace c = true) ws ->
  ignoredSuffix n suffix ->
  handle P (GET_strings_id (ws ++ Number_toString n ++ suffix)) app
  = handle P (GET_strings_id (Number_toString n)) app.
Proof.
  intros Hws Hsuf. cbn [handle]. unfold get_strings_id.
  now rewrite parseInt_lenient, parseInt_Number_toString.
Qed.

Lemma retrieve_ignores_around_digits_witness :
  Forall (fun c => isWhiteSpace c = true) (js " ") /\
  ignoredSuffix 0 (js "abc") /\
  handle toyPlatform (GET_strings_id (js " 0abc"))
    (snd (serve toyPlatform [POST_store (VString (js "a"))] (Build_App toyPlatform [] 0)))
  = handle toyPlatform (GET_strings_id (js "0"))
      (snd (serve toyPlatform [POST_store (VString (js "a"))] (Build_App toyPlatform [] 0))).
Proof.
  assert (Forall (fun c => isWhiteSpace c = true) (js " ")) as Hws
      by (repeat constructor).
  assert (ignoredSuffix 0 (js "abc")) as Hsuf.
  { split; [reflexivity|]. intros _. split; discriminate. }
  split; [exact Hws|]. split; [exact Hsuf|].
  exact (retrieve_ignores_around_digits toyPlatform _ 0 (js " ") (js "abc") Hws Hsuf).
Defined.

(** The hexadecimal prefix is honoured: "0x10" asks for identifier 16. *)
Example parseInt_hexadecimal_identifier :
  parseInt (js "0x10") = parseInt (js "16").
Proof. reflexivity. Qed.

Lemma serve_texts (P : Platform) reqs (app : App P) :
  map text (strings (snd (serve P reqs app)))
  = map text (strings app) ++ acceptedTexts reqs.
Proof.
  revert app. induction reqs as [|req reqs IH]; intros app; cbn [serve acceptedTexts flat_map].
  - now rewrite app_nil_r.
  - specialize (IH (snd (handle P req app))).
    destruct (handle P req app) as [resp app'] eqn:E. cbn [snd] in IH.
    destruct (serve P reqs app') as [resps app'']. cbn [snd] in *.
    rewrite IH. fold (acceptedTexts reqs). rewrite app_assoc. f_equal.
    destruct req as [txt| |param]; cbn [handle] in E.
    + unfold post_store in E. destruct (falsy txt).
      * injection E as _ <-. now rewrite app_nil_r.
      * destruct (dateNow P (wallClock app)). injection E as _ <-.
        cbn [strings]. now rewrite map_app.
    + injection E as _ <-. now rewrite app_nil_r.
    + injection E as _ <-. now rewrite app_nil_r.
Qed.

(** X3: served from empty, the store holds exactly the texts it was asked
    to store and accepted (those that are not falsy), in the order of the
    requests, under the identifiers 0, 1, 2, ...; [GET /strings] returns
    them all with their count, and changes nothing. *)
Theorem listing_after_requests (P : Platform) (c0 : clock P)
  (reqs : list request) :
  let final := snd (serve P reqs (Build_App P [] c0)) in
  map text (strings final) = acceptedTexts reqs /\
  map id (strings final) = seq 0 (length (acceptedTexts reqs)) /\
  handle P GET_strings final
  = ({| status := 200;
        json := Listing (length (acceptedTexts reqs)) (strings final) |}, final).
Proof.
  intros final.
  pose proof (serve_texts P reqs (Build_App P [] c0)) as Htexts.
  fold final in Htexts. cbn in Htexts.
  assert (length (strings final) = length (acceptedTexts reqs)) as Hlen.
  { rewrite <- Htexts. now rewrite length_map. }
  assert (consistent (Build_App P [] c0)) as Hfresh
      by (intros [|i] str H; discriminate H).
  pose proof (proj1 (serve_assigns P reqs _ Hfresh)) as Hc. fold final in Hc.
  repeat split.
  - exact Htexts.
  - rewrite <- Hlen. apply nth_error_ext. intros i.
    rewrite nth_error_map.
    destruct (nth_error (strings final) i) as [str|] eqn:E; cbn [option_map].
    + rewrite (Hc i str E). symmetry.
      rewrite nth_error_seq.
      assert (i < length (strings final))%nat as Hi
          by (apply nth_error_Some; congruence).
      destruct (Nat.ltb_spec i (length (strings final))); [reflexivity | lia].
    + symmetry. apply nth_error_None. rewrite length_seq.
      now apply nth_error_None.
  - cbn [handle]. unfold get_strings. now rewrite Hlen.
Qed.

(** ** More on the asymmetric scheme *)

Section RsaMore.
Variable P : Platform.
Variable publicKey : pubkey P.
Variable privateKey : privkey P.

Lemma decryptRSA_loop_chunkwise chunks plain acc :
  Forall2 (fun c d => privateDecrypt P privateKey (fromHex c) = Some d) chunks plain ->
  decryptRSA_loop P privateKey chunks acc = Return (acc ++ plain).
Proof.
  intros H. revert acc. induction H as [|c d chunks plain Hc _ IH]; intros acc.
  - cbn. now rewrite app_nil_r.
  - cbn [decryptRSA_loop]. rewrite Hc. cbn [of_option bind].
    rewrite IH, <- app_assoc. reflexivity.
Qed.

Lemma decryptRSA_loop_inv chunks :
  forall acc plain,
  decryptRSA_loop P privateKey chunks acc = Return plain ->
  exists ds, plain = acc ++ ds /\
    Forall2 (fun c d => privateDecrypt P privateKey (fromHex c) = Some d) chunks ds.
Proof.
  induction chunks as [|c chunks IH]; intros acc plain H; cbn [decryptRSA_loop] in H.
  - injection H as <-. exists []. split; [now rewrite app_nil_r | constructor].
  - destruct (privateDecrypt P privateKey (fromHex c)) as [d|] eqn:E;
      cbn [of_option bind] in H; [|discriminate].
    destruct (IH _ _ H) as (ds & -> & Hds).
    exists (d :: ds). split; [now rewrite <- app_assoc | now constructor].
Qed.

Lemma decryptRSA_loop_fails chunks acc :
  Exists (fun c => privateDecrypt P privateKey (fromHex c) = None) chunks ->
  decryptRSA_loop P privateKey chunks acc = Throw (CryptoError "privateDecrypt").
Proof.
  intros H. revert acc. induction H as [c chunks Hc|c chunks _ IH]; intros acc;
    cbn [decryptRSA_loop].
  - now rewrite Hc.
  - destruct (privateDecrypt P privateKey (fromHex c)); [|reflexivity].
    cbn [of_option bind]. apply IH.
Qed.

Lemma firstn_add {A} a b (l : list A) :
  firstn (a + b) l = firstn a l ++ firstn b (skipn a l).
Proof.
  revert l. induction a as [|a IH]; intros l; [reflexivity|].
  destruct l as [|x l]; cbn [Nat.add firstn skipn List.app].
  - now rewrite firstn_nil.
  - now rewrite IH.
Qed.

Lemma concat_firstn_slicesFrom (textBuffer : Buffer) k :
  forall i,
  concat (firstn k (slicesFrom textBuffer i))
  = firstn (k * chunkCapacity) (skipn i textBuffer).
Proof.
  induction k as [|k IH]; intros i; [reflexivity|].
  destruct (le_lt_dec (length textBuffer) i) as [Hge|Hlt].
  - rewrite slicesFrom_end by assumption. rewrite skipn_all2 by assumption.
    now rewrite firstn_nil.
  - rewrite slicesFrom_step by assumption. cbn [firstn concat].
    rewrite IH. cbn [Nat.mul]. rewrite firstn_add. unfold slice.
    replace (i + chunkCapacity - i)%nat with chunkCapacity by lia.
    rewrite skipn_skipn. do 3 f_equal. lia.
Qed.

Lemma Forall2_firstn {A B} (R : A -> B -> Prop) k l l' :
  Forall2 R l l' -> Forall2 R (firstn k l) (firstn k l').
Proof.
  intros H. revert k. induction H; intros [|k]; cbn; constructor; auto.
Qed.

Lemma slicesFrom_lengths (textBuffer : Buffer) :
  forall n i, (length textBuffer - i <= n)%nat ->
  Forall (fun d => (1 <= length d <= chunkCapacity)%nat) (slicesFrom textBuffer i) /\
  forall k, (S k < length (slicesFrom textBuffer i))%nat ->
            length (nth k (slicesFrom textBuffer i) []) = chunkCapacity.
Proof.
  induction n as [|n IH]; intros i Hn.
  - rewrite slicesFrom_end by lia. split; [constructor | cbn; lia].
  - destruct (le_lt_dec (length textBuffer) i) as [Hge|Hlt].
    + rewrite slicesFrom_end by lia. split; [constructor | cbn; lia].
    + rewrite slicesFrom_step by assumption.
      destruct (IH (i + chunkCapacity)%nat
                  ltac:(unfold chunkCapacity, maxChunkSize; lia)) as [Hall Hfull].
      assert (length (slice i (i + chunkCapacity) textBuffer)
              = Nat.min chunkCapacity (length textBuffer - i)) as Hlen.
      { unfold slice. rewrite length_firstn, length_skipn. f_equal. lia. }
      split.
      * constructor; [|assumption]. rewrite Hlen.
        unfold chunkCapacity, maxChunkSize. lia.
      * intros [|k] Hk; cbn [nth length] in *.
        -- rewrite Hlen.
           destruct (le_lt_dec (length textBuffer) (i + chunkCapacity)) as [Hshort|Hlong].
           ++ rewrite slicesFrom_end in Hk by assumption. cbn in Hk. lia.
           ++ lia.
        -- apply Hfull. lia.
Qed.

(** X4: what [decryptRSA] returns is decided chunk by chunk: whenever each
    chunk of an envelope decrypts, the result is the text of the
    concatenated plaintexts, whatever [chunkCount] says.  So the first k
    chunks of an envelope made by [encryptRSA] decrypt, without any error,
    to the first 190 k bytes of the plaintext: a truncated envelope is not
    detected, and neither is a wrong [chunkCount]. *)
Theorem decryptRSA_chunkwise (text : jsstring) (r : rng P) (k count : nat)
  (chunks : list jsstring) (plain : list Buffer) :
  (Forall2 (fun c d => privateDecrypt P privateKey (fromHex c) = Some d) chunks plain ->
   decryptRSA P {| encryptedChunks := chunks; chunkCount := count |} privateKey
   = Return (utf8Decode (concat plain))) /\
  (RsaLaw P publicKey privateKey ->
   exists e r',
     encryptRSA P text publicKey r = (Return e, r') /\
     decryptRSA P {| encryptedChunks := firstn k (encryptedChunks e);
                     chunkCount := count |} privateKey
     = Return (utf8Decode (firstn (k * 190) (utf8Encode text)))).
Proof.
  split.
  - intros H. unfold decryptRSA. cbn [encryptedChunks].
    now rewrite (decryptRSA_loop_chunkwise chunks plain []).
  - intros Hrsa.
    destruct (encryptRSA_chunks P publicKey privateKey text r Hrsa)
      as (e & r' & He & _ & _ & Hdec).
    exists e, r'. split; [assumption|].
    destruct (decryptRSA_loop_inv _ _ _ Hdec) as (ds & Hds & Hall).
    cbn [List.app] in Hds. subst ds.
    unfold decryptRSA. cbn [encryptedChunks].
    rewrite (decryptRSA_loop_chunkwise _ _ [] (Forall2_firstn _ k _ _ Hall)).
    cbn [List.app bind]. rewrite plainChunks_slicesFrom, concat_firstn_slicesFrom.
    reflexivity.
Qed.

(** X5: if any chunk of an envelope fails to decrypt, [decryptRSA] throws;
    it never returns the text of the chunks that did decrypt. *)
Theorem decryptRSA_bad_chunk (e : RsaEnvelope) :
  Exists (fun c => privateDecrypt P privateKey (fromHex c) = None)
         (encryptedChunks e) ->
  decryptRSA P e privateKey = Throw (CryptoError "privateDecrypt").
Proof.
  intros H. unfold decryptRSA. now rewrite decryptRSA_loop_fails.
Qed.

(** X6: every chunk of the envelope [encryptRSA] returns is the encryption
    of at least 1 and at most 190 bytes of the plaintext, and of exactly
    190 bytes unless it is the last one: the RSA primitive is never given
    an empty message nor one above its capacity. *)
Theorem encryptRSA_chunk_sizes (text : jsstring) (r : rng P) :
  RsaLaw P publicKey privateKey ->
  exists e r' plain,
    encryptRSA P text publicKey r = (Return e, r') /\
    Forall2 (fun c d => privateDecrypt P privateKey (fromHex c) = Some d)
            (encryptedChunks e) plain /\
    concat plain = utf8Encode text /\
    Forall (fun d => (1 <= length d <= 190)%nat) plain /\
    (forall j, (S j < length plain)%nat -> length (nth j plain []) = 190%nat).
Proof.
  intros Hrsa.
  destruct (encryptRSA_chunks P publicKey privateKey text r Hrsa)
    as (e & r' & He & _ & _ & Hdec).
  destruct (decryptRSA_loop_inv _ _ _ Hdec) as (ds & Hds & Hall).
  cbn [List.app] in Hds. subst ds.
  exists e, r', (plainChunks (utf8Encode text)).
  split; [assumption|]. split; [assumption|].
  split; [apply concat_plainChunks|].
  rewrite plainChunks_slicesFrom.
  exact (slicesFrom_lengths (utf8Encode text) (length (utf8Encode text)) 0%nat
           ltac:(lia)).
Qed.

(** X7: the empty text is encrypted to an envelope without chunks, with no
    call of the RSA primitive and no use of the random source, and an
    envelope without chunks decrypts to the empty text, whatever the keys. *)
Theorem rsa_empty_text (r : rng P) (count : nat) :
  encryptRSA P [] publicKey r
  = (Return {| encryptedChunks := []; chunkCount := 0 |}, r) /\
  decryptRSA P {| encryptedChunks := []; chunkCount := count |} privateKey
  = Return [].
Proof.
  split; [|reflexivity].
  unfold encryptRSA. cbn [utf8Encode codePoints flat_map].
  simp encryptRSA_loop. reflexivity.
Qed.

End RsaMore.

Lemma decryptRSA_chunkwise_witness :
  RsaLaw toyPlatform tt tt /\
  exists e r',
    encryptRSA toyPlatform (js "Lorem ipsum") tt 0%nat = (Return e, r') /\
    decryptRSA toyPlatform {| encryptedChunks := firstn 1 (encryptedChunks e);
                              chunkCount := 7 |} tt
    = Return (utf8Decode (firstn (1 * 190) (utf8Encode (js "Lorem ipsum")))).
Proof.
  split; [exact toy_rsa|].
  exact (proj2 (decryptRSA_chunkwise toyPlatform tt tt (js "Lorem ipsum") 0%nat 1 7 [] [])
           toy_rsa).
Defined.

Lemma encryptRSA_chunk_sizes_witness :
  RsaLaw toyPlatform tt tt /\
  exists e r' plain,
    encryptRSA toyPlatform (js "Lorem ipsum") tt 0%nat = (Return e, r') /\
    concat plain = utf8Encode (js "Lorem ipsum") /\
    Forall (fun d => (1 <= length d <= 190)%nat) plain.
Proof.
  split; [exact toy_rsa|].
  destruct (encryptRSA_chunk_sizes toyPlatform tt tt (js "Lorem ipsum") 0%nat toy_rsa)
    as (e & r' & plain & He & _ & Hc & Hall & _).
  exists e, r', plain. repeat split; assumption.
Defined.

Lemma decryptRSA_bad_chunk_witness :
  Exists (fun c => privateDecrypt pickyPlatform tt (fromHex c) = None) [js "00"] /\
  decryptRSA pickyPlatform {| encryptedChunks := [js "00"]; chunkCount := 1 |} tt
  = Throw (CryptoError "privateDecrypt").
Proof.
  assert (Exists (fun c => privateDecrypt pickyPlatform tt (fromHex c) = None)
                 [js "00"]) as H by (constructor; reflexivity).
  split; [exact H|].
  exact (decryptRSA_bad_chunk pickyPlatform tt
           {| encryptedChunks := [js "00"]; chunkCount := 1 |} H).
Defined.

(** ** More on the symmetric schemes *)

(** C5: the asymmetric scheme encrypts a text whose UTF-8 form has [L]
    bytes into exactly ceil(L / 190) chunks (and records that count), where
    190 = 256 - 2 * 32 - 2 is the capacity of a block under a 2048-bit key;
    chunk [k] is the encryption of the bytes [190 k, 190 k + 190) of the
    plaintext, so the boundaries depend on the plaintext alone, whatever
    the random source gives.  [decryptRSA] decrypts the chunks one by one,
    which gives these pieces back in order, concatenates them, which gives
    the [L] bytes of the plaintext, and returns the text these bytes
    encode. *)
Theorem rsa_chunking (P : Platform) (publicKey : pubkey P)
  (privateKey : privkey P) (text : jsstring) (r : rng P) :
  RsaLaw P publicKey privateKey ->
  let textBuffer := utf8Encode text in
  let L := length textBuffer in
  (chunkCapacity = 256 - 2 * 32 - 2 /\ chunkCapacity < 256)%nat /\
  (L <= chunkTotal L * chunkCapacity < L + chunkCapacity)%nat /\
  exists e r',
    encryptRSA P text publicKey r = (Return e, r') /\
    length (encryptedChunks e) = chunkTotal L /\
    chunkCount e = chunkTotal L /\
    Forall2 (fun chunk piece =>
               privateDecrypt P privateKey (fromHex chunk) = Some piece)
            (encryptedChunks e) (plainChunks textBuffer) /\
    (forall k, (k < chunkTotal L)%nat ->
       nth k (plainChunks textBuffer) []
       = slice (k * chunkCapacity) (k * chunkCapacity + chunkCapacity) textBuffer) /\
    concat (plainChunks textBuffer) = textBuffer /\
    length (concat (plainChunks textBuffer)) = L /\
    decryptRSA P e privateKey
      = Return (utf8Decode (concat (plainChunks textBuffer))) /\
    (isString text ->
     exists decrypted,
       decryptRSA P e privateKey = Return decrypted /\
       utf8Encode decrypted = textBuffer).
Proof.
  intros Hrsa textBuffer L.
  split; [unfold chunkCapacity, maxChunkSize; lia|].
  split; [apply chunkTotal_ceiling|].
  destruct (encryptRSA_chunks P publicKey privateKey text r Hrsa)
    as (e & r' & He & Hlen & Hcount & Hdec).
  exists e, r'. fold textBuffer in Hlen, Hdec. fold L in Hlen.
  destruct (decryptRSA_loop_inv P privateKey _ _ _ Hdec) as (pieces & Hpieces & Hall).
  cbn [List.app] in Hpieces. subst pieces.
  assert (decryptRSA P e privateKey
          = Return (utf8Decode (concat (plainChunks textBuffer)))) as Hdecrypt.
  { unfold decryptRSA. rewrite Hdec. reflexivity. }
  split; [assumption|]. split; [assumption|]. split; [congruence|].
  split; [assumption|]. split.
  { intros k Hk. unfold plainChunks. fold L.
    rewrite (nth_indep _ [] (slice (0 * chunkCapacity)
                               (0 * chunkCapacity + chunkCapacity) textBuffer))
      by (rewrite length_map, length_seq; exact Hk).
    rewrite (map_nth (fun k => slice (k * chunkCapacity)
                                 (k * chunkCapacity + chunkCapacity) textBuffer)).
    now rewrite seq_nth. }
  split; [apply concat_plainChunks|].
  split; [now rewrite concat_plainChunks|]. split; [exact Hdecrypt|].
  intros Hstr. exists (toWellFormed text).
  rewrite Hdecrypt, concat_plainChunks. unfold textBuffer.
  rewrite utf8Decode_utf8Encode by assumption.
  split; [reflexivity|]. now apply utf8Encode_toWellFormed.
Qed.

Lemma rsa_chunking_witness :
  RsaLaw toyPlatform tt tt /\
  exists e r',
    encryptRSA toyPlatform testString tt 0%nat = (Return e, r') /\
    length (encryptedChunks e) = 54%nat /\
    decryptRSA toyPlatform e tt = Return testString.
Proof.
  split; [exact toy_rsa|].
  destruct (rsa_chunking toyPlatform tt tt testString 0%nat toy_rsa)
    as (_ & _ & e & r' & He & Hlen & _ & _ & _ & Hconcat & _ & Hdec & _).
  exists e, r'. split; [exact He|]. split.
  - rewrite Hlen. vm_compute. reflexivity.
  - rewrite Hdec, Hconcat. vm_compute. reflexivity.
Defined.

Lemma toHex_length buf : length (toHex buf) = (2 * length buf)%nat.
Proof.
  induction buf as [|b buf IH]; [reflexivity|].
  cbn [toHex flat_map List.app length]. fold (toHex buf). rewrite IH. lia.
Qed.

Lemma hexDigit_isHexDigit n : 0 <= n < 16 -> isHexDigit (hexDigit n) = true.
Proof.
  intros H. unfold isHexDigit, hexDigit.
  destruct (Z.ltb_spec n 10); bool_arith; reflexivity.
Qed.

Lemma toHex_hex buf : Forall (fun c => isHexDigit c = true) (toHex buf).
Proof.
  induction buf as [|b buf IH]; [constructor|].
  pose proof (byte.unsigned_range b) as R.
  cbn [toHex flat_map List.app]. fold (toHex buf).
  constructor; [|constructor; [|assumption]]; apply hexDigit_isHexDigit.
  - split; [apply Z.div_pos; lia | apply Z.div_lt_upper_bound; lia].
  - apply Z.mod_pos_bound. lia.
Qed.

Lemma toHex_injective a b : toHex a = toHex b -> a = b.
Proof. intros H. rewrite <- (fromHex_toHex a), <- (fromHex_toHex b). now rewrite H. Qed.

(** X8: the envelope of either symmetric wrapper carries, as [iv], the
    bytes it has just drawn from the random source, 16 for AES-256-GCM and
    12 for ChaCha20-Poly1305, in one draw that advances the source; its
    three fields are lower-case hexadecimal strings of even length, the
    [iv] of 32, respectively 24, characters. *)
Theorem symmetric_envelope_shape (P : Platform) (text : jsstring)
  (key : Buffer) (r r' : rng P) (e : SymEnvelope) :
  RandomLaw P ->
  (encryptAES P text key r = (Return e, r') ->
   fromHex (iv e) = fst (randomBytes P 16 r) /\
   r' = snd (randomBytes P 16 r) /\
   length (fromHex (iv e)) = 16%nat /\ length (iv e) = 32%nat /\
   Forall (fun c => isHexDigit c = true) (encrypted e ++ iv e ++ authTag e) /\
   Nat.even (length (encrypted e)) = true /\ Nat.even (length (authTag e)) = true) /\
  (encryptChaCha20 P text key r = (Return e, r') ->
   fromHex (iv e) = fst (randomBytes P 12 r) /\
   r' = snd (randomBytes P 12 r) /\
   length (fromHex (iv e)) = 12%nat /\ length (iv e) = 24%nat /\
   Forall (fun c => isHexDigit c = true) (encrypted e ++ iv e ++ authTag e) /\
   Nat.even (length (encrypted e)) = true /\ Nat.even (length (authTag e)) = true).
Proof.
  intros Hrand. split.
  - unfold encryptAES. pose proof (Hrand 16%nat r) as Hlen.
    destruct (randomBytes P 16 r) as [nonce r1]. cbn [fst snd] in *.
    destruct (seal P aes_256_gcm key nonce (utf8Encode text)) as [[ct tag]|];
      cbn [of_option bind fst snd]; [|discriminate].
    intros H. injection H as <- <-. cbn [iv encrypted authTag].
    rewrite fromHex_toHex, !toHex_length, Hlen, !Nat.even_mul.
    repeat split. rewrite !Forall_app. repeat split; apply toHex_hex.
  - unfold encryptChaCha20. pose proof (Hrand 12%nat r) as Hlen.
    destruct (randomBytes P 12 r) as [nonce r1]. cbn [fst snd] in *.
    destruct (seal P chacha20_poly1305 key nonce (utf8Encode text)) as [[ct tag]|];
      cbn [of_option bind fst snd]; [|discriminate].
    intros H. injection H as <- <-. cbn [iv encrypted authTag].
    rewrite fromHex_toHex, !toHex_length, Hlen, !Nat.even_mul.
    repeat split. rewrite !Forall_app. repeat split; apply toHex_hex.
Qed.

Lemma symmetric_envelope_shape_witness :
  RandomLaw toyPlatform /\
  encryptAES toyPlatform (js "Lorem ipsum") toyKey 0%nat = (Return toyEnvelope, 1%nat) /\
  length (fromHex (iv toyEnvelope)) = 16%nat /\ length (iv toyEnvelope) = 32%nat.
Proof.
  split; [exact toy_random|]. split; [reflexivity|].
  destruct (proj1 (symmetric_envelope_shape toyPlatform (js "Lorem ipsum") toyKey
                     0%nat 1%nat toyEnvelope toy_random) eq_refl)
    as (_ & _ & H1 & H2 & _).
  split; assumption.
Defined.

(** X9: two encryptions in a row, of the same text under the same key,
    take their nonces from two successive draws of the random source;
    whenever these draws differ, the two envelopes have different [iv]
    fields. *)
Theorem successive_nonces (P : Platform) (text : jsstring) (key : Buffer)
  (r r1 r2 : rng P) (e1 e2 : SymEnvelope) :
  encryptAES P text key r = (Return e1, r1) ->
  encryptAES P text key r1 = (Return e2, r2) ->
  r1 = snd (randomBytes P 16 r) /\
  r2 = snd (randomBytes P 16 r1) /\
  (fst (randomBytes P 16 r) <> fst (randomBytes P 16 r1) -> iv e1 <> iv e2).
Proof.
  unfold encryptAES.
  destruct (randomBytes P 16 r) as [n1 s1].
  destruct (seal P aes_256_gcm key n1 (utf8Encode text)) as [[ct1 tag1]|];
    cbn [of_option bind fst snd]; [|discriminate].
  intros H. injection H as <- <-.
  destruct (randomBytes P 16 s1) as [n2 s2].
  destruct (seal P aes_256_gcm key n2 (utf8Encode text)) as [[ct2 tag2]|];
    cbn [of_option bind fst snd]; [|discriminate].
  intros H. injection H as <- <-. cbn [iv].
  repeat split. intros Hne Heq. apply Hne. now apply toHex_injective.
Qed.

Lemma successive_nonces_witness :
  encryptAES toyPlatform (js "Lorem ipsum") toyKey 0%nat = (Return toyEnvelope, 1%nat) /\
  fst (randomBytes toyPlatform 16 0%nat) <> fst (randomBytes toyPlatform 16 1%nat) /\
  exists e2, encryptAES toyPlatform (js "Lorem ipsum") toyKey 1%nat = (Return e2, 2%nat) /\
             iv toyEnvelope <> iv e2.
Proof.
  split; [reflexivity|].
  assert (fst (randomBytes toyPlatform 16 0%nat) <> fst (randomBytes toyPlatform 16 1%nat))
    as Hne by (vm_compute; discriminate).
  split; [exact Hne|].
  eexists. split; [reflexivity|].
  exact (proj2 (proj2 (successive_nonces toyPlatform (js "Lorem ipsum") toyKey
                         0%nat 1%nat 2%nat toyEnvelope _ eq_refl eq_refl)) Hne).
Defined.

(** ** More on the benchmark driver *)

Section BenchmarkMore.
Variable P : Platform.
Variable Envelope : Type.
Context {codec : JsonCodec Envelope}.
Variable Key : Type.

Ltac world_step :=
  cbv beta iota zeta
      delta [entropy timer peer trace parseBody field_id field_text templateId].

Lemma iteration_detail encryptFn decryptFn key text (w : World P (App P)) :
  StrategyWorks encryptFn decryptFn key text ->
  exists duration w' str,
    iteration P (App P) (express P) Envelope Key encryptFn decryptFn key text w
      = (Return duration, w') /\
    duration = durationOf (fst (hrtime P (timer w)))
                 (fst (hrtime P (snd (hrtime P (timer w))))) /\
    timer w' = snd (hrtime P (snd (hrtime P (timer w)))) /\
    strings (peer w') = strings (peer w) ++ [str] /\
    storedBy decryptFn key text str.
Proof.
  intros Hs. destruct w as [r c app tr].
  unfold iteration, mbind, now, await, emit, withEntropy, lift, ret, makeRequest.
  world_step.
  destruct (hrtime P c) as [t1 c1]. world_step. cbn [fst snd].
  destruct encryptFn as [encrypt|], decryptFn as [decrypt|]; cbn in Hs;
    try contradiction.
  - destruct Hs as [Hjson Henc].
    destruct (Henc r) as (e & r' & He & Hd). rewrite He. world_step.
    destruct (Hjson e) as [Hparse Hne].
    destruct (store_then_retrieve P (JSON_stringify e) app Hne)
      as (str & app' & Hpost & Hstr & Hget & Htext).
    rewrite Hpost. world_step. rewrite Hget. world_step. rewrite Htext.
    unfold parseEnvelope. rewrite Hparse, Hd. world_step.
    rewrite jsstring_eqb_refl. unfold emit. world_step.
    destruct (hrtime P c1) as [t2 c2]. world_step.
    eexists _, _, str. split; [reflexivity|]. world_step. cbn [fst snd].
    repeat split; try assumption. unfold storedBy. exists e. split; assumption.
  - destruct (store_then_retrieve P text app Hs)
      as (str & app' & Hpost & Hstr & Hget & Htext).
    rewrite Hpost. world_step. rewrite Hget. world_step.
    destruct (hrtime P c1) as [t2 c2]. world_step.
    eexists _, _, str. split; [reflexivity|]. world_step. cbn [fst snd].
    repeat split; assumption.
Qed.

Lemma iterate_detail encryptFn decryptFn key text count :
  StrategyWorks encryptFn decryptFn key text ->
  forall times (w : World P (App P)),
  exists durations w' added,
    iterate P (App P) (express P) Envelope Key encryptFn decryptFn key text
      count times w = (Return (times ++ durations), w') /\
    length durations = count /\
    durations = clockDurations P (timer w) count /\
    (MonotoneClock P -> Forall (fun d => (0 <= d)%Q) durations) /\
    strings (peer w') = strings (peer w) ++ added /\
    length added = count /\
    Forall (storedBy decryptFn key text) added.
Proof.
  intros Hs. induction count as [|count IH]; intros times w; cbn [iterate].
  - exists [], w, []. unfold ret. rewrite !app_nil_r. repeat split; constructor.
  - destruct (iteration_detail encryptFn decryptFn key text w Hs)
      as (d & w1 & str & Hit & Hd & Htimer & Hstr & Hby).
    unfold mbind. rewrite Hit.
    destruct (IH (times ++ [d]) w1)
      as (ds & w2 & added & Hrest & Hlen & Hclock & Hpos & Hadd & Hn & Hall).
    exists (d :: ds), w2, (str :: added). rewrite Hrest, <- app_assoc.
    cbn [List.app length]. repeat split; try congruence.
    + cbn [clockDurations]. rewrite Hclock, Htimer, Hd.
      destruct (hrtime P (timer w)) as [t1 c1]. cbn [fst snd].
      destruct (hrtime P c1) as [t2 c2]. reflexivity.
    + intros Hmono. constructor; [|auto]. subst d.
      apply durationOf_not_negative. exact (Hmono (timer w)).
    + rewrite Hadd, Hstr, <- app_assoc. reflexivity.
    + constructor; assumption.
Qed.

End BenchmarkMore.

Lemma wellFormed_unit c rest :
  0 <= c < 0xD800 \/ 0xE000 <= c < 0x10000 ->
  wellFormed (c :: rest) = wellFormed rest.
Proof.
  intros H. change (wellFormed (c :: rest))
    with (code_unit c &&
          (if isHighSurrogate c
           then match rest with
                | v :: rest' => isLowSurrogate v && wellFormed rest'
                | [] => false
                end
           else negb (isLowSurrogate c) && wellFormed rest)).
  unfold code_unit, isHighSurrogate, isLowSurrogate. bool_arith; reflexivity.
Qed.

Lemma wellFormed_pair hi lo rest :
  0xD800 <= hi <= 0xDBFF -> 0xDC00 <= lo <= 0xDFFF ->
  wellFormed (hi :: lo :: rest) = wellFormed rest.
Proof.
  intros Hhi Hlo. change (wellFormed (hi :: lo :: rest))
    with (code_unit hi &&
          (if isHighSurrogate hi
           then isLowSurrogate lo && wellFormed rest
           else negb (isLowSurrogate hi) && wellFormed (lo :: rest))).
  unfold code_unit, isHighSurrogate, isLowSurrogate. bool_arith; reflexivity.
Qed.

Lemma wellFormed_toWellFormed s : isString s -> wellFormed (toWellFormed s) = true.
Proof.
  intros H. apply codePoints_scalar in H. unfold toWellFormed.
  induction H as [|c cs Hc _ IH]; [reflexivity|].
  apply isScalar_spec in Hc. cbn [flat_map]. unfold utf16Units.
  destruct (Z.ltb_spec c 0x10000) as [E|E]; cbn [List.app].
  - rewrite wellFormed_unit by lia. exact IH.
  - pose proof (Z.mod_pos_bound (c - 0x10000) 0x400 ltac:(lia)) as B.
    assert (0 <= (c - 0x10000) / 0x400 < 0x400) as Q.
    { split; [apply Z.div_pos; lia | apply Z.div_lt_upper_bound; lia]. }
    rewrite wellFormed_pair by lia. exact IH.
Qed.

Lemma toWellFormed_changes s :
  isString s -> wellFormed s = false -> toWellFormed s <> s.
Proof.
  intros Hs Hwf Heq. pose proof (wellFormed_toWellFormed s Hs) as H.
  rewrite Heq in H. congruence.
Qed.

Lemma jsstring_eqb_neq a b : a <> b -> jsstring_eqb a b = false.
Proof. unfold jsstring_eqb. destruct (list_eq_dec Z.eq_dec a b); congruence. Qed.

Section BenchmarkFailures.
Variable P : Platform.
Variable Envelope : Type.
Context {codec : JsonCodec Envelope}.
Variable Key : Type.

Ltac fail_step :=
  cbv beta iota zeta
      delta [entropy timer peer trace parseBody field_id field_text templateId].

Ltac enter_first_iteration n :=
  unfold benchmark, loopCount;
  let k := fresh "k" in
  let E := fresh "E" in
  destruct (Z.to_nat n) as [|k] eqn:E; [lia|]; cbn [iterate];
  unfold iteration, mbind, now, await, emit, withEntropy, lift, ret, throw,
    makeRequest;
  fail_step.

(** X10: when the encryption throws, [benchmark] throws the same exception
    in its first iteration, before any request: the peer is not contacted
    and no step is recorded. *)
Theorem benchmark_encryption_failure (Peer : Type)
  (network : request -> Peer -> exchange * Peer)
  (encrypt : jsstring -> Key -> rng P -> outcome Envelope * rng P)
  (decryptFn : option (Envelope -> Key -> outcome jsstring))
  (key : Key) (text : jsstring) (n : Z) (w : World P Peer)
  (e : exn) (r' : rng P) :
  0 < n ->
  encrypt text key (entropy w) = (Throw e, r') ->
  exists w',
    benchmark P Peer network Envelope Key (Some encrypt) decryptFn key text
      (Some n) w = (Throw e, w') /\
    peer w' = peer w /\ trace w' = trace w.
Proof.
  intros Hn Henc. destruct w as [r c s tr]. enter_first_iteration n.
  destruct (hrtime P c) as [t1 c1]. fail_step.
  cbv delta [entropy] in Henc. cbv beta iota in Henc. rewrite Henc. fail_step.
  eexists. repeat split.
Qed.

(** What happens in the first iteration when the decryption of the
    retrieved envelope gives another text than the original. *)
Lemma decryption_mismatch_detail
  (encrypt : jsstring -> Key -> rng P -> outcome Envelope * rng P)
  (decrypt : Envelope -> Key -> outcome jsstring)
  (key : Key) (text : jsstring) (n : Z) (w : World P (App P))
  (e : Envelope) (r' : rng P) (decrypted : jsstring) :
  0 < n ->
  encrypt text key (entropy w) = (Return e, r') ->
  JSON_parse (JSON_stringify e) = Some e ->
  JSON_stringify e <> [] ->
  decrypt e key = Return decrypted -> decrypted <> text ->
  let first := length (strings (peer w)) in
  exists w',
    benchmark P (App P) (express P) Envelope Key (Some encrypt) (Some decrypt)
      key text (Some n) w
    = (Throw (JsError "Decryption failed - data mismatch!"), w') /\
    length (strings (peer w')) = S first /\
    trace w' = trace w ++ [Encrypted; StoreDone (Some first); RetrieveDone (Some first);
                           Decrypted].
Proof.
  intros Hn Henc Hparse Hne Hd Hdiff first. subst first.
  destruct w as [r c app tr].
  destruct (store_then_retrieve P (JSON_stringify e) app Hne)
    as (str & app' & Hpost & Hstr & Hget & Htext).
  cbv delta [entropy] in Henc. cbv beta iota in Henc.
  enter_first_iteration n.
  destruct (hrtime P c) as [t1 c1]. fail_step.
  rewrite Henc. fail_step. rewrite Hpost. fail_step. rewrite Hget. fail_step.
  rewrite Htext. unfold parseEnvelope. rewrite Hparse, Hd. fail_step.
  rewrite jsstring_eqb_neq by assumption. fail_step.
  eexists. split; [reflexivity|]. fail_step.
  rewrite Hstr, length_app, <- !app_assoc. cbn. split; [lia | reflexivity].
Qed.

(** X11: when the envelope has gone to the store and come back, a
    decryption that throws makes [benchmark] throw the same exception, and
    a decryption that returns a text other than the original makes it throw
    the error "Decryption failed - data mismatch!"; in both cases the run
    ends in its first iteration, the record stays in the store, and no
    duration is produced. *)
Theorem benchmark_decryption_failure
  (encrypt : jsstring -> Key -> rng P -> outcome Envelope * rng P)
  (decrypt : Envelope -> Key -> outcome jsstring)
  (key : Key) (text : jsstring) (n : Z) (w : World P (App P))
  (e : Envelope) (r' : rng P) :
  0 < n ->
  encrypt text key (entropy w) = (Return e, r') ->
  JSON_parse (JSON_stringify e) = Some e ->
  JSON_stringify e <> [] ->
  let first := length (strings (peer w)) in
  (forall ex, decrypt e key = Throw ex ->
   exists w',
     benchmark P (App P) (express P) Envelope Key (Some encrypt) (Some decrypt)
       key text (Some n) w = (Throw ex, w') /\
     length (strings (peer w')) = S first /\
     trace w' = trace w ++ [Encrypted; StoreDone (Some first); RetrieveDone (Some first)]) /\
  (forall decrypted, decrypt e key = Return decrypted -> decrypted <> text ->
   exists w',
     benchmark P (App P) (express P) Envelope Key (Some encrypt) (Some decrypt)
       key text (Some n) w
     = (Throw (JsError "Decryption failed - data mismatch!"), w') /\
     length (strings (peer w')) = S first /\
     trace w' = trace w ++ [Encrypted; StoreDone (Some first); RetrieveDone (Some first);
                            Decrypted]).
Proof.
  intros Hn Henc Hparse Hne first. split.
  - intros ex Hd. subst first. destruct w as [r c app tr].
    destruct (store_then_retrieve P (JSON_stringify e) app Hne)
      as (str & app' & Hpost & Hstr & Hget & Htext).
    cbv delta [entropy] in Henc. cbv beta iota in Henc.
    enter_first_iteration n.
    destruct (hrtime P c) as [t1 c1]. fail_step.
    rewrite Henc. fail_step. rewrite Hpost. fail_step. rewrite Hget. fail_step.
    rewrite Htext. unfold parseEnvelope. rewrite Hparse, Hd. fail_step.
    eexists. split; [reflexivity|]. fail_step.
    rewrite Hstr, length_app, <- !app_assoc. cbn. split; [lia | reflexivity].
  - intros decrypted Hd Hdiff.
    exact (decryption_mismatch_detail encrypt decrypt key text n w e r' decrypted
             Hn Henc Hparse Hne Hd Hdiff).
Qed.


(** X13: with a strategy, a retrieval that comes back without a text (a 404
    body, a body that is not JSON) makes the first iteration throw a
    SyntaxError, raised by [JSON.parse] on [undefined]; neither the status
    of the store's answer nor that of the retrieval is what fails. *)
Theorem benchmark_missing_text (Peer : Type)
  (network : request -> Peer -> exchange * Peer)
  (encrypt : jsstring -> Key -> rng P -> outcome Envelope * rng P)
  (decrypt : Envelope -> Key -> outcome jsstring)
  (key : Key) (text : jsstring) (n : Z) (w : World P Peer)
  (e : Envelope) (r' : rng P) status1 content1 s1 id status2 content2 s2 :
  0 < n ->
  encrypt text key (entropy w) = (Return e, r') ->
  network (POST_store (VString (JSON_stringify e))) (peer w)
    = (Answer status1 content1, s1) ->
  field_id (parseBody content1) = Return id ->
  network (GET_strings_id (templateId id)) s1 = (Answer status2 content2, s2) ->
  field_text (parseBody content2) = Return VUndefined ->
  exists w',
    benchmark P Peer network Envelope Key (Some encrypt) (Some decrypt) key text
      (Some n) w = (Throw SyntaxError, w') /\
    peer w' = s2.
Proof.
  intros Hn Henc H1 Hid H2 Htext. destruct w as [r c s tr].
  cbv delta [entropy peer] in Henc, H1. cbv beta iota in Henc, H1.
  enter_first_iteration n.
  destruct (hrtime P c) as [t1 c1]. fail_step.
  rewrite Henc. fail_step. rewrite H1. fail_step.
  cbv delta [parseBody field_id] in Hid. cbv beta iota in Hid.
  rewrite Hid. fail_step.
  cbv delta [templateId] in H2. cbv beta iota in H2.
  rewrite H2. fail_step.
  cbv delta [parseBody field_text] in Htext. cbv beta iota in Htext.
  rewrite Htext. unfold parseEnvelope. fail_step.
  eexists. split; reflexivity.
Qed.

End BenchmarkFailures.

(** ** The iterations of the benchmark *)





(** X14: for a text with an unpaired surrogate the round trip through any
    of the three schemes gives back another string (the surrogate replaced
    by U+FFFD), so the run with the AES wrappers stops in its first
    iteration with "Decryption failed - data mismatch!", after the envelope
    has been stored. *)
Theorem benchmark_unpaired_surrogate (P : Platform)
  {codec : JsonCodec SymEnvelope} (key : Buffer) (text : jsstring) (n : Z)
  (w : World P (App P)) :
  RandomLaw P -> SealOpenLaw P -> JsonLaw SymEnvelope ->
  isString text -> wellFormed text = false -> length key = keyLength ->
  0 < n ->
  (exists e r' decrypted,
     encryptAES P text key (entropy w) = (Return e, r') /\
     decryptAES P e key = Return decrypted /\
     decrypted <> text /\ utf8Encode decrypted = utf8Encode text) /\
  exists w',
    benchmark P (App P) (express P) SymEnvelope Buffer
      (Some (encryptAES P)) (Some (decryptAES P)) key text (Some n) w
    = (Throw (JsError "Decryption failed - data mismatch!"), w') /\
    length (strings (peer w')) = S (length (strings (peer w))).
Proof.
  intros Hrand Hseal Hjson Hstr Hwf Hkey Hn.
  destruct (encryptAES_decryptAES P text key (entropy w) Hrand Hseal Hstr Hkey)
    as (e & r' & He & Hd).
  pose proof (toWellFormed_changes text Hstr Hwf) as Hdiff.
  split.
  - exists e, r', (toWellFormed text).
    repeat split; try assumption. now apply utf8Encode_toWellFormed.
  - destruct (Hjson e) as [Hparse Hne].
    destruct (decryption_mismatch_detail P SymEnvelope Buffer
                (encryptAES P) (decryptAES P) key text n w e r' (toWellFormed text)
                Hn He Hparse Hne Hd Hdiff)
      as (w' & Hb & Hlen & _).
    exists w'. split; assumption.
Qed.

(** X15: a run that works leaves the records that were in the store as
    they were and adds one record per iteration: without a strategy each
    holds the text itself; with one, each holds the JSON text of an
    envelope that decrypts to the text. *)
Theorem benchmark_store_contents (P : Platform) (Envelope : Type)
  {codec : JsonCodec Envelope} (Key : Type)
  (encryptFn : option (jsstring -> Key -> rng P -> outcome Envelope * rng P))
  (decryptFn : option (Envelope -> Key -> outcome jsstring))
  (key : Key) (text : jsstring) (n : Z) (w : World P (App P)) :
  0 < n ->
  StrategyWorks encryptFn decryptFn key text ->
  exists s w' added,
    benchmark P (App P) (express P) Envelope Key encryptFn decryptFn key text
      (Some n) w = (Return s, w') /\
    strings (peer w') = strings (peer w) ++ added /\
    length added = Z.to_nat n /\
    Forall (storedBy decryptFn key text) added.
Proof.
  intros Hn Hs.
  destruct (iterate_detail P Envelope Key encryptFn decryptFn key text (loopCount n)
              Hs [] w) as (ds & w' & added & Hit & Hlen & _ & _ & Hadd & Hcount & Hall).
  cbn [List.app] in Hit. unfold loopCount in *.
  destruct (summarize_nonempty ds) as (s & Hsum).
  { intros ->. cbn in Hlen. lia. }
  exists s, w', added. unfold benchmark, mbind, lift, loopCount. rewrite Hit, Hsum.
  repeat split; assumption.
Qed.

(** X16: when the clock does not run backwards, no duration is negative:
    the least duration the summary reports is at least 0. *)
Theorem benchmark_durations_not_negative (P : Platform) (Envelope : Type)
  {codec : JsonCodec Envelope} (Key : Type)
  (encryptFn : option (jsstring -> Key -> rng P -> outcome Envelope * rng P))
  (decryptFn : option (Envelope -> Key -> outcome jsstring))
  (key : Key) (text : jsstring) (n : Z) (w : World P (App P)) :
  MonotoneClock P ->
  0 < n ->
  StrategyWorks encryptFn decryptFn key text ->
  exists times s w' lo,
    iterate P (App P) (express P) Envelope Key encryptFn decryptFn key text
      (loopCount n) [] w = (Return times, w') /\
    Forall (fun d => (0 <= d)%Q) times /\
    benchmark P (App P) (express P) Envelope Key encryptFn decryptFn key text
      (Some n) w = (Return s, w') /\
    min s = Finite lo /\ (0 <= lo)%Q.
Proof.
  intros Hmono Hn Hs.
  destruct (iterate_detail P Envelope Key encryptFn decryptFn key text (loopCount n)
              Hs [] w) as (ds & w' & added & Hit & Hlen & _ & Hpos & _).
  cbn [List.app] in Hit. unfold loopCount in *. specialize (Hpos Hmono).
  assert (ds <> []) as Hne by (intros ->; cbn in Hlen; lia).
  destruct (Math_min_least ds Hne) as (lo & Hlo & Hin & _).
  destruct (median_defined ds Hne) as (m & Hm).
  exists ds, (statistics ds), w', lo.
  unfold benchmark, mbind, lift, loopCount. rewrite Hit.
  unfold summarize, report, statistics at 1. cbn [median]. rewrite Hm. cbn [bind].
  repeat split; try assumption.
  eapply Forall_forall in Hpos; eassumption.
Qed.

(** ** More on the statistics *)

Lemma sorted_around l : StronglySorted Qle l ->
  forall k m, nth_error l k = Some m ->
  exists before after,
    l = before ++ m :: after /\ length before = k /\
    Forall (fun x => (x <= m)%Q) before /\ Forall (fun x => (m <= x)%Q) after.
Proof.
  induction 1 as [|a l Hs IH Ha]; intros k m Hk.
  - destruct k; discriminate.
  - destruct k as [|k]; cbn in Hk.
    + injection Hk as <-. exists [], l. repeat split; [constructor | assumption].
    + destruct (IH k m Hk) as (before & after & -> & Hlen & Hb & Haf).
      exists (a :: before), after. cbn. repeat split; try congruence; try assumption.
      constructor; [|assumption].
      apply Forall_app in Ha. destruct Ha as [_ Ha]. now inversion Ha.
Qed.

(** X17: the statistics of a non-empty sequence: the median lies between
    the minimum and the maximum.  The average is never NaN and, when no
    duration is negative, is not negative either; but, being rounded, it
    need not lie between the minimum and the maximum: on three durations
    of 0.1 ms it is above the maximum. *)
Theorem summary_ordering (times : list Q) :
  times <> [] ->
  (exists s m lo hi,
     summarize times = Return s /\
     median s = Some m /\ min s = Finite lo /\ max s = Finite hi /\
     (lo <= m)%Q /\ (m <= hi)%Q /\
     avg s <> NaN /\
     (Forall (fun x => (0 <= x)%Q) times -> notNegative (avg s))) /\
  (exists s a,
     summarize [tenth; tenth; tenth] = Return s /\
     avg s = Finite a /\ max s = Finite tenth /\ (tenth < a)%Q).
Proof.
  intros Hne. split.
  - destruct (Math_min_least times Hne) as (lo & Hlo & _ & Hlo_le).
    destruct (Math_max_greatest times Hne) as (hi & Hhi & _ & Hhi_le).
    destruct (median_defined times Hne) as (m & Hm).
    exists (statistics times), m, lo, hi.
    unfold summarize, report, statistics at 1. cbn [median]. rewrite Hm. cbn [bind].
    assert (In m times) as Hin.
    { apply (Permutation_in _ (Permutation_sym (sortAscending_perm times))).
      eapply nth_error_In; eassumption. }
    unfold statistics. cbn [median min max avg].
    repeat split; auto.
    + now apply average_not_NaN.
    + now apply average_not_negative.
  - eexists _, _. split; [vm_compute; reflexivity|]. cbn [avg max].
    repeat split.
Qed.

Lemma summary_ordering_witness :
  [5; 1; 3]%Q <> [] /\
  exists s m lo hi,
    summarize [5; 1; 3]%Q = Return s /\
    median s = Some m /\ min s = Finite lo /\ max s = Finite hi /\
    (lo <= m)%Q /\ (m <= hi)%Q.
Proof.
  split; [discriminate|].
  destruct (proj1 (summary_ordering [5; 1; 3]%Q ltac:(discriminate)))
    as (s & m & lo & hi & H1 & H2 & H3 & H4 & H5 & H6 & _).
  exists s, m, lo, hi. repeat split; assumption.
Defined.

(** X18: the median splits the sorted durations: exactly floor(n / 2) of
    them come before it, none greater than it, and the others come after
    it, none smaller than it. *)
Theorem median_splits (times : list Q) :
  times <> [] ->
  exists s m before after,
    summarize times = Return s /\ median s = Some m /\
    Permutation times (before ++ m :: after) /\
    length before = Nat.div (length times) 2 /\
    Forall (fun x => (x <= m)%Q) before /\
    Forall (fun x => (m <= x)%Q) after.
Proof.
  intros Hne.
  destruct (median_defined times Hne) as (m & Hm).
  assert (StronglySorted Qle (sortAscending times)) as Hs.
  { apply Sorted_StronglySorted; [|apply sortAscending_sorted].
    intros x y z. apply Qle_trans. }
  destruct (sorted_around _ Hs _ _ Hm) as (before & after & Heq & Hlen & Hb & Ha).
  exists (statistics times), m, before, after.
  unfold summarize, report, statistics at 1. cbn [median]. rewrite Hm. cbn [bind].
  split; [reflexivity|]. split; [exact Hm|].
  split; [rewrite <- Heq; apply sortAscending_perm|].
  split; [now rewrite Hlen, sortAscending_length|].
  split; assumption.
Qed.

Lemma median_splits_witness :
  [4; 1; 3; 2]%Q <> [] /\
  exists s m before after,
    summarize [4; 1; 3; 2]%Q = Return s /\ median s = Some m /\
    Permutation [4; 1; 3; 2]%Q (before ++ m :: after) /\
    length before = 2%nat.
Proof.
  split; [discriminate|].
  destruct (median_splits [4; 1; 3; 2]%Q ltac:(discriminate))
    as (s & m & before & after & H1 & H2 & H3 & H4 & _).
  exists s, m, before, after. repeat split; assumption.
Defined.

(** ** The small platform in these properties *)

Lemma toy_monotone : MonotoneClock toyPlatform.
Proof. intros c. cbn. lia. Qed.



Lemma benchmark_encryption_failure_witness :
  0 < 1 /\
  encryptAES toyPlatform (js "Lorem ipsum") [] (entropy toyWorld)
    = (Throw (CryptoError "createCipheriv"), 1%nat) /\
  exists w',
    benchmark toyPlatform (App toyPlatform) (express toyPlatform) SymEnvelope Buffer
      (Some (encryptAES toyPlatform)) (Some (decryptAES toyPlatform)) []
      (js "Lorem ipsum") (Some 1) toyWorld
    = (Throw (CryptoError "createCipheriv"), w') /\
    peer w' = peer toyWorld /\ trace w' = trace toyWorld.
Proof.
  split; [reflexivity|]. split; [reflexivity|].
  exact (benchmark_encryption_failure toyPlatform SymEnvelope (codec := toyCodec)
           Buffer (App toyPlatform) (express toyPlatform) (encryptAES toyPlatform)
           (Some (decryptAES toyPlatform)) [] (js "Lorem ipsum") 1 toyWorld
           (CryptoError "createCipheriv") 1%nat eq_refl eq_refl).
Defined.

Lemma benchmark_decryption_failure_witness :
  exists e,
    encryptAES toyPlatform [0xD800] toyKey (entropy toyWorld) = (Return e, 1%nat) /\
    decryptAES toyPlatform e toyKey = Return [0xFFFD] /\
    exists w',
      benchmark toyPlatform (App toyPlatform) (express toyPlatform) SymEnvelope Buffer
        (Some (encryptAES toyPlatform)) (Some (decryptAES toyPlatform)) toyKey
        [0xD800] (Some 1) toyWorld
      = (Throw (JsError "Decryption failed - data mismatch!"), w').
Proof.
  eexists. split; [reflexivity|]. split; [reflexivity|].
  pose (e := {| encrypted := toHex (rev (utf8Encode [0xD800]));
                iv := toHex (repeat Byte.x00 16);
                authTag := toHex (toyKey ++ repeat Byte.x00 16
                                  ++ rev (utf8Encode [0xD800])) |}).
  destruct (proj2 (benchmark_decryption_failure toyPlatform SymEnvelope
                     (codec := toyCodec) Buffer (encryptAES toyPlatform)
                     (decryptAES toyPlatform) toyKey [0xD800] 1 toyWorld e 1%nat
                     eq_refl eq_refl (proj1 (toy_json e)) (proj2 (toy_json e)))
              [0xFFFD] eq_refl ltac:(discriminate)) as (w' & H & _).
  exists w'. exact H.
Defined.


Lemma benchmark_missing_text_witness :
  0 < 1 /\
  exists w',
    benchmark toyPlatform (App toyPlatform) knowsNothing SymEnvelope Buffer
      (Some (encryptAES toyPlatform)) (Some (decryptAES toyPlatform)) toyKey
      (js "Lorem ipsum") (Some 1) toyWorld = (Throw SyntaxError, w') /\
    peer w' = peer toyWorld.
Proof.
  split; [reflexivity|].
  exact (benchmark_missing_text toyPlatform SymEnvelope (codec := toyCodec) Buffer
           (App toyPlatform) knowsNothing (encryptAES toyPlatform)
           (decryptAES toyPlatform) toyKey (js "Lorem ipsum") 1 toyWorld
           toyEnvelope 1%nat 404%nat (JsonText (Failed "String not found"))
           (peer toyWorld) None 404%nat (JsonText (Failed "String not found"))
           (peer toyWorld) eq_refl eq_refl eq_refl eq_refl eq_refl eq_refl).
Defined.

Lemma benchmark_unpaired_surrogate_witness :
  (isString [0xD800] /\ wellFormed [0xD800] = false /\ 0 < 1) /\
  exists w',
    benchmark toyPlatform (App toyPlatform) (express toyPlatform) SymEnvelope Buffer
      (Some (encryptAES toyPlatform)) (Some (decryptAES toyPlatform)) toyKey
      [0xD800] (Some 1) toyWorld
    = (Throw (JsError "Decryption failed - data mismatch!"), w') /\
    length (strings (peer w')) = S (length (strings (peer toyWorld))).
Proof.
  assert (isString [0xD800]) as Hs by (repeat constructor).
  split; [repeat split; assumption|].
  exact (proj2 (benchmark_unpaired_surrogate toyPlatform (codec := toyCodec) toyKey
                  [0xD800] 1 toyWorld toy_random toy_seal_open toy_json Hs
                  eq_refl eq_refl eq_refl)).
Defined.

Lemma benchmark_store_contents_witness :
  0 < 2 /\
  exists s w' added,
    benchmark toyPlatform (App toyPlatform) (express toyPlatform) SymEnvelope Buffer
      None None toyKey (js "Lorem ipsum") (Some 2) toyWorld = (Return s, w') /\
    strings (peer w') = strings (peer toyWorld) ++ added /\
    length added = 2%nat /\
    Forall (fun str => text str = VString (js "Lorem ipsum")) added.
Proof.
  split; [reflexivity|].
  exact (benchmark_store_contents toyPlatform SymEnvelope (codec := toyCodec) Buffer
           None None toyKey (js "Lorem ipsum") 2 toyWorld eq_refl
           ltac:(discriminate)).
Defined.

Lemma benchmark_durations_not_negative_witness :
  MonotoneClock toyPlatform /\ 0 < 2 /\
  exists times s w' lo,
    iterate toyPlatform (App toyPlatform) (express toyPlatform) SymEnvelope Buffer
      None None toyKey (js "Lorem ipsum") (loopCount 2) [] toyWorld
      = (Return times, w') /\
    Forall (fun d => (0 <= d)%Q) times /\
    benchmark toyPlatform (App toyPlatform) (express toyPlatform) SymEnvelope Buffer
      None None toyKey (js "Lorem ipsum") (Some 2) toyWorld = (Return s, w') /\
    min s = Finite lo /\ (0 <= lo)%Q.
Proof.
  split; [exact toy_monotone|]. split; [reflexivity|].
  exact (benchmark_durations_not_negative toyPlatform SymEnvelope (codec := toyCodec)
           Buffer None None toyKey (js "Lorem ipsum") 2 toyWorld toy_monotone
           eq_refl ltac:(discriminate)).
Defined.

(** ** The main function [run] *)

Lemma testString_wellFormed : wellFormed testString = true.
Proof. vm_compute. reflexivity. Qed.

Lemma testString_not_empty : testString <> [].
Proof. intros H. apply (f_equal (@length Z)) in H. vm_compute in H. discriminate. Qed.

Lemma toyParseChunks_spec chunks :
  forall fuel, (length chunks <= fuel)%nat ->
  toyParseChunks fuel (flat_map (fun c => Z.of_nat (length c) :: c) chunks) = chunks.
Proof.
  induction chunks as [|c cs IH]; intros fuel Hfuel.
  - destruct fuel; reflexivity.
  - destruct fuel as [|fuel]; [cbn in Hfuel; lia|].
    cbn [flat_map List.app toyParseChunks]. rewrite Nat2Z.id.
    rewrite firstn_app, Nat.sub_diag, firstn_all. cbn [firstn]. rewrite app_nil_r.
    rewrite skipn_app, Nat.sub_diag, skipn_all. cbn [skipn List.app].
    rewrite IH by (cbn in Hfuel; lia). reflexivity.
Qed.

Lemma flat_map_chunks_length (chunks : list jsstring) :
  (length chunks
   <= length (flat_map (fun c => Z.of_nat (length c) :: c) chunks))%nat.
Proof.
  induction chunks as [|c cs IH]; [apply Nat.le_refl|].
  cbn [flat_map List.app length]. rewrite length_app. lia.
Qed.

Lemma toy_json_rsa : @JsonLaw RsaEnvelope toyRsaCodec.
Proof.
  intros [chunks count]. split; [|discriminate].
  cbn [JSON_stringify JSON_parse toyRsaCodec encryptedChunks chunkCount].
  rewrite Nat2Z.id, toyParseChunks_spec by apply flat_map_chunks_length.
  reflexivity.
Qed.

Lemma toy_key_pairs : KeyPairLaw toyPlatform toyKeyPair.
Proof. intros r. exact toy_rsa. Qed.

Lemma mbind_return (P : Platform) (Peer A B : Type) (m : M P Peer A)
  (k : A -> M P Peer B) w a w' :
  m w = (Return a, w') -> mbind P Peer m k w = k a w'.
Proof. intros H. unfold mbind. now rewrite H. Qed.

Lemma mbind_throw (P : Platform) (Peer A B : Type) (m : M P Peer A)
  (k : A -> M P Peer B) w e w' :
  m w = (Throw e, w') -> mbind P Peer m k w = (Throw e, w').
Proof. intros H. unfold mbind. now rewrite H. Qed.

Lemma draw_spec (P : Platform) (Peer A : Type) (g : rng P -> A * rng P)
  (w : World P Peer) :
  withEntropy P Peer (fun r => let (k, r') := g r in (Return k, r')) w
  = (Return (fst (g (entropy w))),
     Build_World P Peer (snd (g (entropy w))) (timer w) (peer w) (trace w)).
Proof. unfold withEntropy. destruct (g (entropy w)). reflexivity. Qed.

Lemma summarize_median times s :
  summarize times = Return s -> exists m, median s = Some m.
Proof.
  unfold summarize, report. cbn zeta.
  destruct (median (statistics times)) as [m|] eqn:Hm; cbn; [|discriminate].
  intros H. injection H as <-. eauto.
Qed.

Lemma Math_abs_not_negative x : x <> NaN -> notNegative (Math_abs x).
Proof.
  intros Hx. destruct x as [q| | |]; cbn [Math_abs notNegative];
    [|congruence|exact I|exact I].
  destruct (Qle_bool 0 q) eqn:Hq.
  - now apply Qle_bool_iff.
  - assert (~ (0 <= q)%Q) as Hn by (rewrite <- Qle_bool_iff; congruence).
    apply Qnot_le_lt in Hn. apply Qlt_le_weak in Hn.
    apply Qopp_le_compat in Hn. exact Hn.
Qed.

Lemma benchmark_default (P : Platform) (Envelope : Type)
  {codec : JsonCodec Envelope} (Key : Type) encryptFn decryptFn
  (key : Key) (text : jsstring) (w : World P (App P)) :
  StrategyWorks encryptFn decryptFn key text ->
  exists s m w',
    benchmark P (App P) (express P) Envelope Key encryptFn decryptFn key text
      None w = (Return s, w') /\
    median s = Some m /\
    trace w' = trace w ++ flat_map (roundTrip encryptFn decryptFn)
                            (seq (length (strings (peer w))) 100) /\
    length (strings (peer w')) = (length (strings (peer w)) + 100)%nat.
Proof.
  intros Hs.
  destruct (benchmark_round_trips P Envelope Key encryptFn decryptFn key text
              100 w ltac:(lia) Hs)
    as (times & w' & s & _ & _ & Htr & Hlen & Hsum & Hb).
  destruct (summarize_median times s Hsum) as (m & Hm).
  exists s, m, w'. repeat split; assumption.
Qed.

Lemma roundTrip_encrypted {A B A' B' : Type} (a : A) (b : B) (a' : A') (b' : B') :
  forall ids,
    flat_map (roundTrip (Some a) (Some b)) ids
    = flat_map (roundTrip (Some a') (Some b')) ids.
Proof. intros ids. apply flat_map_ext. reflexivity. Qed.

Section RunProperties.
Variable P : Platform.
Variable generateKeyPairSync : rng P -> (pubkey P * privkey P) * rng P.
Context {symCodec : JsonCodec SymEnvelope} {rsaCodec : JsonCodec RsaEnvelope}.

(** X19: with working primitives and the store as the peer, [run] does not
    end in its [catch]: the four benchmarks of 100 iterations each complete
    one after the other, the store gains 400 records, the first 100 round
    trips are plain and the 300 that follow are encrypted, decrypted and
    verified, with consecutive identifiers throughout, and a summary is
    printed whose difference between the two symmetric medians is not
    negative. *)
Theorem run_completes (w : World P (App P)) :
  RandomLaw P -> SealOpenLaw P -> KeyPairLaw P generateKeyPairSync ->
  JsonLaw SymEnvelope -> JsonLaw RsaEnvelope ->
  let first := length (strings (peer w)) in
  exists report w',
    run P generateKeyPairSync (App P) (express P) w = (Reported report, w') /\
    length (strings (peer w')) = (first + 400)%nat /\
    trace w' = trace w
               ++ flat_map (roundTrip (@None unit) (@None unit)) (seq first 100)
               ++ flat_map (roundTrip (Some tt) (Some tt)) (seq (first + 100) 300) /\
    storedIds (skipn (length (trace w)) (trace w')) = seq first 400 /\
    notNegative (diff report).
Proof.
  intros Hrand Hseal Hkeys Hsym Hrsa first. unfold run, runBody.
  rewrite (mbind_return _ _ _ _ _ _ _ _ _ (draw_spec P _ _ _ w)).
  set (w1 := Build_World P _ _ _ _ _).
  rewrite (mbind_return _ _ _ _ _ _ _ _ _ (draw_spec P _ _ _ w1)).
  set (w2 := Build_World P _ _ _ _ _).
  rewrite (mbind_return _ _ _ _ _ _ _ _ _ (draw_spec P _ _ _ w2)).
  set (w3 := Build_World P _ _ _ _ _).
  set (aesKey := fst (randomBytes P 32 (entropy w))).
  set (chachaKey := fst (randomBytes P 32 (entropy w1))).
  set (keys := fst (generateKeyPairSync (entropy w2))).
  assert (length aesKey = keyLength) as Haes by apply Hrand.
  assert (length chachaKey = keyLength) as Hchacha by apply Hrand.
  destruct (benchmark_default P SymEnvelope unit None None tt testString w3
              testString_not_empty)
    as (s1 & m1 & w4 & Hb1 & Hm1 & Htr1 & Hlen1).
  rewrite (mbind_return _ _ _ _ _ _ _ _ _ Hb1).
  destruct (benchmark_default P SymEnvelope Buffer _ _ aesKey testString w4
              (aes_strategy_works P aesKey testString Hrand Hseal Hsym
                 testString_wellFormed Haes))
    as (s2 & m2 & w5 & Hb2 & Hm2 & Htr2 & Hlen2).
  rewrite (mbind_return _ _ _ _ _ _ _ _ _ Hb2).
  destruct (benchmark_default P SymEnvelope Buffer _ _ chachaKey testString w5
              (chacha_strategy_works P chachaKey testString Hrand Hseal Hsym
                 testString_wellFormed Hchacha))
    as (s3 & m3 & w6 & Hb3 & Hm3 & Htr3 & Hlen3).
  rewrite (mbind_return _ _ _ _ _ _ _ _ _ Hb3).
  destruct (benchmark_default P RsaEnvelope unit _ _ tt testString w6
              (rsa_strategy_works P (fst keys) (snd keys) testString
                 (Hkeys (entropy w2)) Hrsa testString_wellFormed))
    as (s4 & m4 & w7 & Hb4 & Hm4 & Htr4 & Hlen4).
  rewrite (mbind_return _ _ _ _ _ _ _ _ _ Hb4).
  unfold lift, printSummary, medianOf. rewrite Hm1, Hm2, Hm3, Hm4.
  cbn [bind].
  eexists _, w7. split; [reflexivity|].
  change (peer w3) with (peer w) in *. change (trace w3) with (trace w) in *.
  fold first in Htr1, Hlen1.
  assert (trace w7 = trace w
               ++ flat_map (roundTrip (@None unit) (@None unit)) (seq first 100)
               ++ flat_map (roundTrip (Some tt) (Some tt)) (seq (first + 100) 300))
    as Htrace.
  { rewrite Htr4, Htr3, Htr2, Htr1, Hlen3, Hlen2, Hlen1.
    rewrite (roundTrip_encrypted _ _ tt tt (seq (first + 100) 100)).
    rewrite (roundTrip_encrypted _ _ tt tt (seq (first + 100 + 100) 100)).
    rewrite (roundTrip_encrypted _ _ tt tt (seq (first + 100 + 100 + 100) 100)).
    change 300%nat with (100 + (100 + 100))%nat.
    rewrite !seq_app, !flat_map_app, <- ?app_assoc, ?Nat.add_assoc.
    reflexivity. }
  split; [lia|]. split; [exact Htrace|]. split.
  - rewrite Htrace, skipn_app, Nat.sub_diag, skipn_all. cbn [skipn List.app].
    unfold storedIds. rewrite flat_map_app. fold storedIds.
    rewrite !storedIds_roundTrips.
    change 400%nat with (100 + 300)%nat. now rewrite seq_app.
  - cbn [diff]. apply Math_abs_not_negative. apply roundDouble_not_NaN.
Qed.

(** X20: when the first request gets no answer, [run] ends in its [catch]
    with that system error: the three keys have been drawn, nothing has
    been stored or recorded, and none of the later benchmarks has run. *)
Theorem run_catches_network_error (Peer : Type)
  (network : request -> Peer -> exchange * Peer)
  (w : World P Peer) (code : string) (s' : Peer) :
  network (POST_store (VString testString)) (peer w) = (NetworkError code, s') ->
  exists w',
    run P generateKeyPairSync Peer network w = (Caught (SystemError code), w') /\
    peer w' = s' /\ trace w' = trace w /\
    entropy w'
    = snd (generateKeyPairSync
             (snd (randomBytes P 32 (snd (randomBytes P 32 (entropy w)))))).
Proof.
  intros Hnet. unfold run, runBody.
  rewrite (mbind_return _ _ _ _ _ _ _ _ _ (draw_spec P _ _ _ w)).
  set (w1 := Build_World P _ _ _ _ _).
  rewrite (mbind_return _ _ _ _ _ _ _ _ _ (draw_spec P _ _ _ w1)).
  set (w2 := Build_World P _ _ _ _ _).
  rewrite (mbind_return _ _ _ _ _ _ _ _ _ (draw_spec P _ _ _ w2)).
  set (w3 := Build_World P _ _ _ _ _).
  assert (exists w',
            benchmark P Peer network SymEnvelope unit None None tt testString None w3
            = (Throw (SystemError code), w') /\
            peer w' = s' /\ trace w' = trace w /\ entropy w' = entropy w3)
    as (w' & Hb & Hpeer & Htrace & Hentropy).
  { subst w3 w2 w1. destruct w as [r c s tr].
    cbv delta [peer] in Hnet. cbv beta iota in Hnet.
    unfold benchmark, loopCount.
    change (Z.to_nat 100) with 100%nat. cbn [iterate].
    unfold iteration, mbind, now, await, emit, withEntropy, lift, ret, throw,
      makeRequest.
    cbv beta iota zeta delta [entropy timer peer trace].
    destruct (hrtime P c) as [t1 c1].
    cbv beta iota zeta delta [entropy timer peer trace].
    rewrite Hnet.
    eexists. split; [reflexivity|]. repeat split. }
  rewrite (mbind_throw _ _ _ _ _ _ _ _ _ Hb).
  exists w'. repeat split; assumption.
Qed.

End RunProperties.

Lemma run_completes_witness :
  exists report w',
    run toyPlatform toyKeyPair (rsaCodec := toyRsaCodec)
      (App toyPlatform) (express toyPlatform) toyWorld
      = (Reported report, w') /\
    length (strings (peer w')) = 400%nat.
Proof.
  destruct (run_completes toyPlatform toyKeyPair (rsaCodec := toyRsaCodec) toyWorld
              toy_random toy_seal_open toy_key_pairs toy_json toy_json_rsa)
    as (report & w' & Hrun & Hlen & _).
  exists report, w'. split; [exact Hrun | exact Hlen].
Defined.

Lemma run_catches_network_error_witness :
  exists w',
    run toyPlatform toyKeyPair (rsaCodec := toyRsaCodec)
      (App toyPlatform) (unreachable "ECONNREFUSED") toyWorld
      = (Caught (SystemError "ECONNREFUSED"), w') /\
    trace w' = [].
Proof.
  destruct (run_catches_network_error toyPlatform toyKeyPair
              (rsaCodec := toyRsaCodec) (App toyPlatform)
              (unreachable "ECONNREFUSED") toyWorld "ECONNREFUSED"
              (peer toyWorld) eq_refl)
    as (w' & Hrun & _ & Htrace & _).
  exists w'. split; [exact Hrun | exact Htrace].
Defined.
